(** * Chirm: the WebSocket hub, its voice-room registry and the signaling relay

    A shallow embedding of the hub of [internal/handlers] (the file that
    declares [WSEvent], [Client] and [Hub]) together with the properties the
    specification states about it.

    Conventions of the embedding.
    - A [*Client] is a handle into a heap of [Client] structs; the hub's
      [map[*Client]bool] (whose values are always [true]) is a finite set of
      handles and [voiceRooms] is a finite map from channel ids to such sets.
    - A Go channel is a buffer with a capacity and a closed flag.  A
      [select { case ch <- m: default: }] appends when there is room, does
      nothing when the buffer is full and crashes the process on a closed
      channel; a plain [ch <- m] on a full buffer parks the goroutine.
    - [encoding/json] belongs to Go's standard library.  Frames are taken
      at the level of the JSON value they carry, and a serialised event is
      represented by the event it serialises.  Where the bytes of a value
      matter (a [json.RawMessage] that is sent on), the value carries them
      ([JRaw]).  The events built here are maps of strings, booleans and
      raw values taken from a decoded frame, which always encode, so the
      error branch after [json.Marshal] is left out.
    - [ReadMessage] belongs to the websocket library.  What it returns is
      given to the read loop frame by frame, each frame with its size, so
      that the read limit set by [readPump] can be applied.
    - Go leaves the iteration order of a map unspecified.  Loops over a map
      run here over [elements]/[map_to_list] of the finite set or map, and
      the properties below do not depend on that order. *)

From stdpp Require Import gmap strings list fin_maps.
From Stdlib Require Import Ascii String.

Local Open Scope string_scope.

(** ** JSON values and the decoding done by [json.Unmarshal] *)

#[local] Set Warnings "-register-all".
Inductive json : Type :=
  | JNull
  | JBool (b : bool)
  | JNum (lit : string)
  | JStr (s : string)
  | JArr (items : list json)
  | JObj (members : list (string * json))
  | JRaw (text : string) (value : json).

(** [JRaw text v] is the value [v] together with the bytes [text] it is
    written with in the frame.  Decoding looks at the value only. *)
Fixpoint value_of (j : json) : json :=
  match j with
  | JRaw _ v => value_of v
  | _ => j
  end.


(** [json.RawMessage]: the undecoded text of a value; [None] is the nil
    slice left behind when the key is absent. *)
Abbreviation RawMessage := (option json).

(** What a connection reads from its transport: bytes that may or may not
    be a JSON text. *)
Inductive inbound : Type :=
  | NotJSON
  | Text (j : json).

(** A frame as it arrives: its size in bytes and what it holds. *)
Record frame : Type := mkFrame {
  frameSize : N;
  frameBody : inbound
}.

Definition lower_ascii (a : ascii) : ascii :=
  let n := nat_of_ascii a in
  if (65 <=? n)%nat && (n <=? 90)%nat then ascii_of_nat (n + 32) else a.

Definition byte_is (n : nat) (a : ascii) : bool := (nat_of_ascii a =? n)%nat.

(** The case folding under which [encoding/json] matches an object key
    with a struct tag (Unicode simple folding, as [bytes.EqualFold]).
    Two letters beyond ASCII fold to an ASCII letter: U+017F, the long s
    (bytes C5 BF), folds to [s], and U+212A, the Kelvin sign (bytes
    E2 84 AA), folds to [k].  Every other byte above 7F stays as it is
    and so never matches a tag, the tags of the source being ASCII. *)
Fixpoint foldName (s : string) : string :=
  match s with
  | EmptyString => EmptyString
  | String a rest =>
      match rest with
      | String b rest2 =>
          if byte_is 197 a && byte_is 191 b then String "s" (foldName rest2)
          else
            match rest2 with
            | String c rest3 =>
                if byte_is 226 a && byte_is 132 b && byte_is 170 c
                then String "k" (foldName rest3)
                else String (lower_ascii a) (foldName rest)
            | EmptyString => String (lower_ascii a) (foldName rest)
            end
      | EmptyString => String (lower_ascii a) (foldName rest)
      end
  end.

(** Object keys are matched to struct tags without regard to case.
    [name] is a tag of the source and is lower case already. *)
Definition key_matches (name key : string) : bool := String.eqb (foldName key) name.

(** A struct field of Go type [string]: every member whose key matches is
    stored in turn, [null] leaves the field alone, any other kind of value
    is an [UnmarshalTypeError]. *)
Fixpoint string_field (name : string) (members : list (string * json))
    (cur : string) : option string :=
  match members with
  | [] => Some cur
  | (k, v) :: rest =>
      if key_matches name k then
        match value_of v with
        | JStr s => string_field name rest s
        | JNull => string_field name rest cur
        | _ => None
        end
      else string_field name rest cur
  end.

(** A struct field of Go type [bool]. *)
Fixpoint bool_field (name : string) (members : list (string * json))
    (cur : bool) : option bool :=
  match members with
  | [] => Some cur
  | (k, v) :: rest =>
      if key_matches name k then
        match value_of v with
        | JBool b => bool_field name rest b
        | JNull => bool_field name rest cur
        | _ => None
        end
      else bool_field name rest cur
  end.

(** A struct field of type [json.RawMessage]: the text of the value is
    kept as it is, whatever its kind. *)
Fixpoint raw_field (name : string) (members : list (string * json))
    (cur : RawMessage) : RawMessage :=
  match members with
  | [] => cur
  | (k, v) :: rest =>
      if key_matches name k then raw_field name rest (Some v)
      else raw_field name rest cur
  end.

(** [json.Unmarshal(data, &d)] for a struct [d]: an empty input is a syntax
    error, [null] leaves the zero value, an object is decoded member by
    member and every other kind of value is a type error. *)
Definition unmarshal_struct {A : Type} (zero : A)
    (fields : list (string * json) → option A) (data : RawMessage) : option A :=
  match value_of <$> data with
  | None => None
  | Some JNull => Some zero
  | Some (JObj members) => fields members
  | Some _ => None
  end.

(** ** Events and client messages *)

(** [WSEvent] is the envelope for all WebSocket messages. *)
Record WSEvent : Type := mkEvent {
  evType : string;
  evData : json
}.

(** [rawClientMessage]: the type tag and the still undecoded data. *)
Record rawClientMessage : Type := mkRaw {
  rawType : string;
  rawData : RawMessage
}.

(** [json.Unmarshal(msg, &evt)] in [readPump]. *)
Definition unmarshal_rawClientMessage (msg : inbound) : option rawClientMessage :=
  match msg with
  | NotJSON => None
  | Text j =>
      unmarshal_struct (mkRaw "" None)
        (λ members,
           ty ← string_field "type" members "";
           Some (mkRaw ty (raw_field "data" members None)))
        (Some j)
  end.

(** The anonymous struct [{ ChannelID string `json:"channel_id"` }] used by
    [subscribe], [typing], [voice.join] and [voice.leave]. *)
Definition unmarshal_channel (data : RawMessage) : option string :=
  unmarshal_struct "" (λ members, string_field "channel_id" members "") data.

(** The struct decoded by the signaling relay. *)
Record signal : Type := mkSignal {
  sigChannelID : string;
  sigTargetUserID : string;
  sigPayload : RawMessage
}.

Definition unmarshal_signal (data : RawMessage) : option signal :=
  unmarshal_struct (mkSignal "" "" None)
    (λ members,
       ch ← string_field "channel_id" members "";
       target ← string_field "target_user_id" members "";
       Some (mkSignal ch target (raw_field "payload" members None)))
    data.

(** The struct decoded by [voice.media_state]. *)
Record mediaState : Type := mkMediaState {
  msChannelID : string;
  msCamEnabled : bool;
  msScreenSharing : bool
}.

Definition unmarshal_mediaState (data : RawMessage) : option mediaState :=
  unmarshal_struct (mkMediaState "" false false)
    (λ members,
       ch ← string_field "channel_id" members "";
       cam ← bool_field "cam_enabled" members false;
       screen ← bool_field "screen_sharing" members false;
       Some (mkMediaState ch cam screen))
    data.

(** A [json.RawMessage] inside an event is written out as it is; the nil
    slice is written as [null]. *)
Definition raw_value (r : RawMessage) : json :=
  match r with
  | Some v => v
  | None => JNull
  end.

(** *** The bytes written for a raw message

    [json.Marshal] does not copy a [json.RawMessage] as it is: the bytes
    go through [compact] with HTML escaping on.  White space between
    tokens is left out, and [<], [>], [&] and the line separators U+2028
    and U+2029 (bytes E2 80 A8 and E2 80 A9) are written as [\u] escapes.
    The bytes of a raw message come from a frame that decoded, so they
    are a valid JSON text, on which [compact] cannot fail; all it has to
    keep track of is whether a byte stands inside a string. *)













(** The events built by the hub.  Go writes the keys of a map in sorted
    order. *)
Definition evVoiceLeft (channelID uid : string) : WSEvent :=
  mkEvent "voice.left" (JObj [("channel_id", JStr channelID); ("user_id", JStr uid)]).

Definition evVoiceJoined (channelID uid : string) : WSEvent :=
  mkEvent "voice.joined" (JObj [("channel_id", JStr channelID); ("user_id", JStr uid)]).

Definition evTyping (channelID uid : string) : WSEvent :=
  mkEvent "typing" (JObj [("channel_id", JStr channelID); ("user_id", JStr uid)]).

(** [existing] is made with [make([]string, 0)], so it is written as an
    array even when it is empty, never as [null]. *)
Definition evRoomState (channelID : string) (existing : list string) : WSEvent :=
  mkEvent "voice.room_state"
    (JObj [("channel_id", JStr channelID); ("participants", JArr (JStr <$> existing))]).

Definition evSignal (ty channelID from : string) (payload : RawMessage) : WSEvent :=
  mkEvent ty
    (JObj [("channel_id", JStr channelID); ("from_user_id", JStr from);
           ("payload", raw_value payload)]).

Definition evMediaState (channelID from : string) (cam screen : bool) : WSEvent :=
  mkEvent "voice.media_state"
    (JObj [("cam_enabled", JBool cam); ("channel_id", JStr channelID);
           ("from_user_id", JStr from); ("screen_sharing", JBool screen)]).

(** ** Channels, clients, the hub *)

Record chan : Type := mkChan {
  buf : list WSEvent;
  cap : nat;
  closed : bool
}.

(** [make(chan []byte, 256)] *)
Definition make_chan (n : nat) : chan := mkChan [] n false.

(** [Client] represents a single WebSocket connection. *)
Record Client : Type := mkClient {
  send : chan;
  userID : string;
  channelID : string
}.

(** A [*Client]. *)
Abbreviation ptr := nat.

(** [Hub] manages all active WebSocket clients. *)
Record Hub : Type := mkHub {
  clients : gset ptr;
  broadcast : chan;
  voiceRooms : gmap string (gset ptr)
}.

(** The memory of the process: the clients behind the handles, and the one
    hub they all point to. *)
Record World : Type := mkWorld {
  heap : gmap ptr Client;
  hub : Hub
}.

(** [NewHub] *)
Definition NewHub : Hub := mkHub ∅ (make_chan 256) ∅.

(** The client built by the [WebSocket] handler after the upgrade. *)
Definition new_client (uid : string) : Client := mkClient (make_chan 256) uid "".

(** ** The monad of hub operations *)

(** An operation runs to its end, or panics, or leaves its goroutine
    parked on a channel. *)
Inductive result (A : Type) : Type :=
  | Ok (a : A) (w : World)
  | Panic
  | Blocked.
Arguments Ok {A} a w.
Arguments Panic {A}.
Arguments Blocked {A}.

Definition M (A : Type) : Type := World → result A.

#[global] Instance M_ret : MRet M := λ A a w, Ok a w.
#[global] Instance M_bind : MBind M := λ A B f m w,
  match m w with
  | Ok a w' => f a w'
  | Panic => Panic
  | Blocked => Blocked
  end.

(** An unrecovered panic ends the process; a parked goroutine does not
    come back within the operation. *)
Definition panic {A : Type} : M A := λ _, Panic.
Definition park {A : Type} : M A := λ _, Blocked.

Definition get_hub : M Hub := λ w, Ok (hub w) w.
Definition get_rooms : M (gmap string (gset ptr)) := λ w, Ok (voiceRooms (hub w)) w.

Definition set_clients (s : gset ptr) : M unit := λ w,
  Ok () (mkWorld (heap w) (mkHub s (broadcast (hub w)) (voiceRooms (hub w)))).

Definition set_rooms (r : gmap string (gset ptr)) : M unit := λ w,
  Ok () (mkWorld (heap w) (mkHub (clients (hub w)) (broadcast (hub w)) r)).

Definition set_broadcast (q : chan) : M unit := λ w,
  Ok () (mkWorld (heap w) (mkHub (clients (hub w)) q (voiceRooms (hub w)))).

(** Following a [*Client]. *)
Definition deref (c : ptr) : M Client := λ w,
  match heap w !! c with
  | Some cl => Ok cl w
  | None => Panic
  end.

Definition store (c : ptr) (cl : Client) : M unit := λ w,
  Ok () (mkWorld (<[c := cl]> (heap w)) (hub w)).

Definition with_send (cl : Client) (q : chan) : Client :=
  mkClient q (userID cl) (channelID cl).

Definition push (m : WSEvent) (q : chan) : chan :=
  mkChan (buf q ++ [m])%list (cap q) (closed q).

Definition has_room (q : chan) : bool := (List.length (buf q) <? cap q)%nat.

(** [select { case client.send <- data: default: }]; the result tells
    which branch was taken. *)
Definition select_send (c : ptr) (data : WSEvent) : M bool :=
  cl ← deref c;
  if closed (send cl) then panic
  else if has_room (send cl) then
    store c (with_send cl (push data (send cl)));; mret true
  else mret false.

(** [close(client.send)] *)
Definition close_send (c : ptr) : M unit :=
  cl ← deref c;
  if closed (send cl) then panic
  else store c (with_send cl (mkChan (buf (send cl)) (cap (send cl)) true)).

(** [for _, x := range xs { body }] *)
Fixpoint for_each {A : Type} (xs : list A) (body : A → M unit) : M unit :=
  match xs with
  | [] => mret ()
  | x :: rest => body x;; for_each rest body
  end.

(** A loop that threads an accumulator (a slice being appended to). *)
Fixpoint for_acc {A B : Type} (xs : list A) (acc : B) (body : B → A → M B) : M B :=
  match xs with
  | [] => mret acc
  | x :: rest => acc' ← body acc x; for_acc rest acc' body
  end.

(** ** Delivery *)

(** [Broadcast] sends an event to all connected clients: it hands the
    serialised event to [Run] through the hub's [broadcast] channel. *)
Definition Broadcast (event : WSEvent) : M unit :=
  h ← get_hub;
  if closed (broadcast h) then panic
  else if has_room (broadcast h) then set_broadcast (push event (broadcast h))
  else park.

(** [BroadcastToChannel] sends an event only to clients viewing a specific
    channel. *)
Definition BroadcastToChannel (chID : string) (event : WSEvent) : M unit :=
  h ← get_hub;
  for_each (elements (clients h)) (λ client,
    cl ← deref client;
    let inChannel := String.eqb (channelID cl) chID in
    if inChannel then select_send client event;; mret () else mret ()).

(** [SendToUser] sends an event to a specific user by userID. *)
Definition SendToUser (targetUserID : string) (event : WSEvent) : M unit :=
  h ← get_hub;
  for_each (elements (clients h)) (λ client,
    cl ← deref client;
    if String.eqb (userID cl) targetUserID then select_send client event;; mret ()
    else mret ()).

(** [BroadcastToVoiceRoom] sends an event to all clients in a voice room,
    optionally excluding one ([None] is the nil pointer). *)
Definition BroadcastToVoiceRoom (chID : string) (event : WSEvent)
    (exclude : option ptr) : M unit :=
  rooms ← get_rooms;
  match rooms !! chID with
  | None => mret ()
  | Some room =>
      for_each (elements room) (λ client,
        if decide (Some client = exclude) then mret ()
        else select_send client event;; mret ())
  end.

(** ** The voice-room registry *)

(** [joinVoiceRoom] adds a client to a voice room and returns existing
    participant user IDs. *)
Definition joinVoiceRoom (chID : string) (client : ptr) : M (list string) :=
  rooms ← get_rooms;
  (match rooms !! chID with
   | None => set_rooms (<[chID := ∅]> rooms)
   | Some _ => mret ()
   end);;
  rooms ← get_rooms;
  let room := default ∅ (rooms !! chID) in
  existing ← for_acc (elements room) [] (λ existing c,
                cl ← deref c; mret (existing ++ [userID cl])%list);
  set_rooms (<[chID := {[client]} ∪ room]> rooms);;
  mret existing.

(** [leaveVoiceRoom] removes a client from a specific voice room.  The
    inner map is shared with the registry, so the removal is visible there
    before the emptiness test. *)
Definition leaveVoiceRoom (chID : string) (client : ptr) : M bool :=
  rooms ← get_rooms;
  match rooms !! chID with
  | None => mret false
  | Some room =>
      if decide (client ∈ room) then
        let room' := room ∖ {[client]} in
        set_rooms (<[chID := room']> rooms);;
        (if (size room' =? 0)%nat then
           rooms ← get_rooms; set_rooms (delete chID rooms)
         else mret ());;
        mret true
      else mret false
  end.

(** The first loop of [leaveAllVoiceRooms], run under the registry lock. *)
Definition leaveAll_scan (client : ptr) : M (list string) :=
  rooms ← get_rooms;
  for_acc (map_to_list rooms) [] (λ affected entry,
    let '(chID, room) := entry in
    if decide (client ∈ room) then
      let room' := room ∖ {[client]} in
      rooms ← get_rooms;
      set_rooms (<[chID := room']> rooms);;
      (if (size room' =? 0)%nat then
         rooms ← get_rooms; set_rooms (delete chID rooms)
       else mret ());;
      mret (affected ++ [chID])%list
    else mret affected).

(** The second loop of [leaveAllVoiceRooms], run after the lock has been
    released: one [voice.left] per affected room, to the room and to
    everybody. *)
Definition leaveAll_announce (client : ptr) (affected : list string) : M unit :=
  for_each affected (λ chID,
    cl ← deref client;
    let evt := evVoiceLeft chID (userID cl) in
    BroadcastToVoiceRoom chID evt None;;
    Broadcast evt).

(** [leaveAllVoiceRooms] removes a client from every voice room (used on
    disconnect). *)
Definition leaveAllVoiceRooms (client : ptr) : M unit :=
  affected ← leaveAll_scan client;
  leaveAll_announce client affected.

(** [AreInSameVoiceRoom] returns true if both userIDs have active clients
    in the room of [chID]. *)
Definition AreInSameVoiceRoom (chID userA userB : string) : M bool :=
  rooms ← get_rooms;
  match rooms !! chID with
  | None => mret false
  | Some room =>
      found ← for_acc (elements room) (false, false) (λ found c,
                 cl ← deref c;
                 mret (if String.eqb (userID cl) userA then true else found.1,
                       if String.eqb (userID cl) userB then true else found.2));
      mret (found.1 && found.2)
  end.

(** [GetVoiceRoomSnapshot] returns a map of channelID → []userID for all
    active rooms. *)
Definition GetVoiceRoomSnapshot : M (gmap string (list string)) :=
  rooms ← get_rooms;
  for_acc (map_to_list rooms) ∅ (λ out entry,
    let '(chID, room) := entry in
    uids ← for_acc (elements room) [] (λ uids c,
              cl ← deref c; mret (uids ++ [userID cl])%list);
    mret (<[chID := uids]> out)).

(** ** The hub's loop: one function per case of the [select] in [Run] *)

(** [case client := <-h.register] *)
Definition Run_register (client : ptr) : M unit :=
  h ← get_hub;
  set_clients ({[client]} ∪ clients h).

(** [case client := <-h.unregister] *)
Definition Run_unregister (client : ptr) : M unit :=
  h ← get_hub;
  (if decide (client ∈ clients h) then
     set_clients (clients h ∖ {[client]});;
     close_send client
   else mret ());;
  leaveAllVoiceRooms client.

(** Receiving from the hub's [broadcast] channel; the case is not enabled
    while the buffer is empty (the channel is never closed). *)
Definition recv_broadcast : M WSEvent :=
  h ← get_hub;
  match buf (broadcast h) with
  | [] => park
  | message :: rest =>
      set_broadcast (mkChan rest (cap (broadcast h)) (closed (broadcast h)));;
      mret message
  end.

(** The first pass of the broadcast case: one non-blocking send per
    client, collecting the clients that could not take the message. *)
Definition broadcast_pass (message : WSEvent) : M (list ptr) :=
  h ← get_hub;
  for_acc (elements (clients h)) [] (λ dead client,
    sent ← select_send client message;
    mret (if sent : bool then dead else (dead ++ [client])%list)).

(** The second pass: eviction of the collected clients. *)
Definition evict (dead : list ptr) : M unit :=
  if (0 <? List.length dead)%nat then
    for_each dead (λ client,
      h ← get_hub;
      if decide (client ∈ clients h) then
        close_send client;;
        h ← get_hub;
        set_clients (clients h ∖ {[client]})
      else mret ())
  else mret ().

(** [case message := <-h.broadcast], given the message received. *)
Definition Run_deliver (message : WSEvent) : M unit :=
  dead ← broadcast_pass message;
  evict dead.

Definition Run_broadcast : M unit :=
  message ← recv_broadcast;
  Run_deliver message.

(** ** The connection's read side *)

Definition SetChannel (c : ptr) (chID : string) : M unit :=
  cl ← deref c;
  store c (mkClient (send cl) (userID cl) chID).

Definition sendEvent (c : ptr) (event : WSEvent) : M unit :=
  select_send c event;; mret ().

Definition is_signal_type (ty : string) : bool :=
  String.eqb ty "voice.offer" || String.eqb ty "voice.answer" || String.eqb ty "voice.ice".

Definition handleMessage (c : ptr) (evt : rawClientMessage) : M unit :=
  if String.eqb (rawType evt) "subscribe" then
    match unmarshal_channel (rawData evt) with
    | Some chID => SetChannel c chID
    | None => mret ()
    end
  else if String.eqb (rawType evt) "typing" then
    match unmarshal_channel (rawData evt) with
    | Some chID =>
        cl ← deref c;
        BroadcastToChannel chID (evTyping chID (userID cl))
    | None => mret ()
    end
  else if String.eqb (rawType evt) "voice.join" then
    match unmarshal_channel (rawData evt) with
    | None => mret ()
    | Some chID =>
        if String.eqb chID "" then mret ()
        else
          existing ← joinVoiceRoom chID c;
          sendEvent c (evRoomState chID existing);;
          cl ← deref c;
          BroadcastToVoiceRoom chID (evVoiceJoined chID (userID cl)) (Some c);;
          Broadcast (evVoiceJoined chID (userID cl))
    end
  else if String.eqb (rawType evt) "voice.leave" then
    match unmarshal_channel (rawData evt) with
    | None => mret ()
    | Some chID =>
        if String.eqb chID "" then mret ()
        else
          was ← leaveVoiceRoom chID c;
          if was : bool then
            cl ← deref c;
            let evt := evVoiceLeft chID (userID cl) in
            BroadcastToVoiceRoom chID evt None;;
            Broadcast evt
          else mret ()
    end
  else if is_signal_type (rawType evt) then
    match unmarshal_signal (rawData evt) with
    | None => mret ()
    | Some d =>
        if String.eqb (sigTargetUserID d) "" then mret ()
        else
          cl ← deref c;
          same ← AreInSameVoiceRoom (sigChannelID d) (userID cl) (sigTargetUserID d);
          if negb same then mret ()
          else
            SendToUser (sigTargetUserID d)
              (evSignal (rawType evt) (sigChannelID d) (userID cl) (sigPayload d))
    end
  else if String.eqb (rawType evt) "voice.media_state" then
    match unmarshal_mediaState (rawData evt) with
    | None => mret ()
    | Some d =>
        if String.eqb (msChannelID d) "" then mret ()
        else
          cl ← deref c;
          BroadcastToVoiceRoom (msChannelID d)
            (evMediaState (msChannelID d) (userID cl) (msCamEnabled d) (msScreenSharing d))
            (Some c)
    end
  else mret ().

(** [c.conn.SetReadLimit(64 * 1024)] *)
Definition readLimit : N := 64 * 1024.

(** The loop of [readPump] over the frames that arrive until the
    transport fails.  [ReadMessage] fails on a frame that is larger than
    the read limit, which ends the loop like any other read error; the
    frames after it are never read. *)
Fixpoint readLoop (c : ptr) (frames : list frame) : M unit :=
  match frames with
  | [] => mret ()
  | f :: rest =>
      if (readLimit <? frameSize f)%N then mret ()
      else
        match unmarshal_rawClientMessage (frameBody f) with
        | None => readLoop c rest
        | Some evt => handleMessage c evt;; readLoop c rest
        end
  end.

(** [readPump]: when the loop has ended, the deferred function hands the
    client to [Run] over the unbuffered [unregister] channel and closes
    the connection.  The handover itself changes nothing in the hub: the
    removal from the connection set, the close of the queue and
    [leaveAllVoiceRooms] are the unregister case of [Run]
    ([Run_unregister]), which runs after [readPump] has returned.  The
    result is the client handed over. *)
Definition readPump (c : ptr) (frames : list frame) : M ptr :=
  readLoop c frames;;
  mret c.

(** One turn of the loop of [writePump]: the next message of the queue.
    The loop ends ([None]) once the queue is closed and drained; it parks
    while the queue is empty and open. *)
Definition writePump_next (c : ptr) : M (option WSEvent) :=
  cl ← deref c;
  match buf (send cl) with
  | m :: rest =>
      store c (with_send cl (mkChan rest (cap (send cl)) (closed (send cl))));;
      mret (Some m)
  | [] => if closed (send cl) then mret None else park
  end.

(** The [WebSocket] handler once the upgrade has succeeded: a new client,
    here at the handle [c], is handed to [Run] through [register]. *)
Definition WebSocket (c : ptr) (uid : string) : M unit :=
  store c (new_client uid);;
  Run_register c.

(** * Definitions used by the statements *)

(** What a non-blocking send does to the receiving client. *)
Definition try_push (m : WSEvent) (cl : Client) : Client :=
  if has_room (send cl) then with_send cl (push m (send cl)) else cl.

(** The heap after one non-blocking send to each of [targets] in turn. *)
Definition sends (m : WSEvent) (targets : list ptr) (hp : gmap ptr Client) :
    gmap ptr Client :=
  foldl (λ hp c, alter (try_push m) c hp) hp targets.

Definition open_at (hp : gmap ptr Client) (c : ptr) : Prop :=
  ∃ cl, hp !! c = Some cl ∧ closed (send cl) = false.

Definition viewing (hp : gmap ptr Client) (chID : string) (c : ptr) : bool :=
  match hp !! c with
  | Some cl => String.eqb (channelID cl) chID
  | None => false
  end.

Definition owned_by (hp : gmap ptr Client) (uid : string) (c : ptr) : bool :=
  match hp !! c with
  | Some cl => String.eqb (userID cl) uid
  | None => false
  end.

(** Every registered client is allocated and its queue is open. *)
Definition registered_ok (w : World) : Prop :=
  ∀ c, c ∈ clients (hub w) → open_at (heap w) c.

Definition not_excluded (exclude : option ptr) (c : ptr) : bool :=
  bool_decide (Some c ≠ exclude).

(** The user ids of the clients behind a list of handles; [None] when one
    of them dangles. *)
Definition uids_of (hp : gmap ptr Client) (l : list ptr) : option (list string) :=
  mapM (λ c, userID <$> hp !! c) l.

Definition has_user (uid : string) (us : list string) : bool :=
  existsb (λ u, String.eqb u uid) us.

Definition with_rooms (w : World) (rooms : gmap string (gset ptr)) : World :=
  mkWorld (heap w) (mkHub (clients (hub w)) (broadcast (hub w)) rooms).

(** A room after one of its clients has gone: the entry is dropped when
    nobody is left. *)
Definition without (client : ptr) (chID : string) (room : gset ptr)
    (rooms : gmap string (gset ptr)) : gmap string (gset ptr) :=
  if (size (room ∖ {[client]}) =? 0)%nat then delete chID rooms
  else <[chID := room ∖ {[client]}]> rooms.

(** One turn of the loop of [leaveAll_scan]. *)
Definition scan_step (client : ptr) (st : list string * gmap string (gset ptr))
    (entry : string * gset ptr) : list string * gmap string (gset ptr) :=
  if decide (client ∈ entry.2)
  then ((st.1 ++ [entry.1])%list, without client entry.1 entry.2 st.2)
  else st.

Definition same_registry (w w' : World) : Prop :=
  clients (hub w') = clients (hub w) ∧ voiceRooms (hub w') = voiceRooms (hub w).

(** An operation respects a relation between worlds when every completed
    run of it relates the world before to the world after. *)
Definition respects (R : World → World → Prop) {A : Type} (m : M A) : Prop :=
  ∀ w a w', m w = Ok a w' → R w w'.

Definition no_empty_room (rooms : gmap string (gset ptr)) : Prop :=
  ∀ chID room, rooms !! chID = Some room → room ≠ ∅.

(** The connection set is the same and open queues are still open. *)
Definition calm (w w' : World) : Prop :=
  clients (hub w') = clients (hub w) ∧
  ∀ c, open_at (heap w) c → open_at (heap w') c.

(** A property of worlds that holds after when it held before. *)
Definition keeping (P : World → Prop) (w w' : World) : Prop := P w → P w'.

(** No empty room comes up. *)
Definition tidy : World → World → Prop :=
  keeping (λ w, no_empty_room (voiceRooms (hub w))).

(** What the hub maintains: registered clients are live and no room is
    empty. *)
Definition hub_inv (w : World) : Prop :=
  registered_ok w ∧ no_empty_room (voiceRooms (hub w)).

(** The moves of the system: a connection is accepted, a connection
    handles a frame or writes one out, [Run] serves one of its cases, a
    REST handler broadcasts. *)
Inductive hub_step (w w' : World) : Prop :=
  | step_connect c uid :
      heap w !! c = None → WebSocket c uid w = Ok () w' → hub_step w w'
  | step_message c evt :
      handleMessage c evt w = Ok () w' → hub_step w w'
  | step_write c m :
      writePump_next c w = Ok m w' → hub_step w w'
  | step_unregister c :
      Run_unregister c w = Ok () w' → hub_step w w'
  | step_broadcast :
      Run_broadcast w = Ok () w' → hub_step w w'
  | step_Broadcast event :
      Broadcast event w = Ok () w' → hub_step w w'
  | step_BroadcastToChannel chID event :
      BroadcastToChannel chID event w = Ok () w' → hub_step w w'.

(** The client behind a handle is as it was. *)
Definition untouched (c : ptr) (w w' : World) : Prop := heap w' !! c = heap w !! c.

(** What the [voice.join] case does after the reply to the joiner: the
    announcement to the room and to everybody. *)
Definition announce_join (chID : string) (c : ptr) : M unit :=
  cl ← deref c;
  BroadcastToVoiceRoom chID (evVoiceJoined chID (userID cl)) (Some c);;
  Broadcast (evVoiceJoined chID (userID cl)).

(** The hub at start-up. *)
Definition w_start : World := mkWorld ∅ NewHub.

Definition in_no_room (client : ptr) (rooms : gmap string (gset ptr)) : Prop :=
  ∀ chID room, rooms !! chID = Some room → client ∉ room.

(** Every member of every room is allocated. *)
Definition members_alloc (w : World) : Prop :=
  ∀ chID room c, voiceRooms (hub w) !! chID = Some room → c ∈ room →
    is_Some (heap w !! c).

(** The three mutators of the registry. *)
Inductive registry_op : Type :=
  | Join (chID : string) (client : ptr)
  | Leave (chID : string) (client : ptr)
  | LeaveAll (client : ptr).

Definition run_op (op : registry_op) : M unit :=
  match op with
  | Join chID client => joinVoiceRoom chID client;; mret ()
  | Leave chID client => leaveVoiceRoom chID client;; mret ()
  | LeaveAll client => leaveAllVoiceRooms client
  end.

(** A client whose queue cannot take one more message. *)
Definition stalled (hp : gmap ptr Client) (c : ptr) : bool :=
  match hp !! c with
  | Some cl => negb (has_room (send cl))
  | None => false
  end.

(** The client after [close(client.send)]. *)
Definition shut (cl : Client) : Client :=
  with_send cl (mkChan (buf (send cl)) (cap (send cl)) true).

(** The hub's own [broadcast] channel can take one more message. *)
Definition broadcast_ready (w : World) : Prop :=
  closed (broadcast (hub w)) = false ∧ has_room (broadcast (hub w)) = true.

(** The world after a [voice.join] of [client] for [chID] has run to its
    end, [existing] being the list it got back from [joinVoiceRoom]. *)
Definition after_join (chID : string) (client : ptr) (existing : list string)
    (uid : string) (w : World) : World :=
  let room := {[client]} ∪ default ∅ (voiceRooms (hub w) !! chID) in
  mkWorld
    (sends (evVoiceJoined chID uid)
       (filter (λ c, not_excluded (Some client) c = true) (elements room))
       (alter (try_push (evRoomState chID existing)) client (heap w)))
    (mkHub (clients (hub w))
       (push (evVoiceJoined chID uid) (broadcast (hub w)))
       (<[chID := room]> (voiceRooms (hub w)))).

Definition frame_join (chID : string) : rawClientMessage :=
  mkRaw "voice.join" (Some (JObj [("channel_id", JStr chID)])).

(** The type tags [handleMessage] has a case for. *)
Definition known_type (ty : string) : bool :=
  String.eqb ty "subscribe" || String.eqb ty "typing" ||
  String.eqb ty "voice.join" || String.eqb ty "voice.leave" ||
  is_signal_type ty || String.eqb ty "voice.media_state".

(** The messages [handleMessage] returns on before touching anything: an
    unknown tag, data that does not decode, an empty [channel_id] in
    [voice.join], [voice.leave] and [voice.media_state], an empty
    [target_user_id] in a signaling message. *)
Definition rejected (evt : rawClientMessage) : bool :=
  let ty := rawType evt in
  if String.eqb ty "subscribe" || String.eqb ty "typing" then
    match unmarshal_channel (rawData evt) with
    | None => true
    | Some _ => false
    end
  else if String.eqb ty "voice.join" || String.eqb ty "voice.leave" then
    match unmarshal_channel (rawData evt) with
    | None => true
    | Some chID => String.eqb chID ""
    end
  else if is_signal_type ty then
    match unmarshal_signal (rawData evt) with
    | None => true
    | Some d => String.eqb (sigTargetUserID d) ""
    end
  else if String.eqb ty "voice.media_state" then
    match unmarshal_mediaState (rawData evt) with
    | None => true
    | Some d => String.eqb (msChannelID d) ""
    end
  else true.

(** The frames the read loop drops: bytes that are not a JSON envelope,
    and rejected messages. *)
Definition discarded (msg : inbound) : bool :=
  match unmarshal_rawClientMessage msg with
  | None => true
  | Some evt => rejected evt
  end.






(** ** Worlds and frames for the examples *)

Definition heap3 : gmap ptr Client :=
  <[1 := new_client "U1"]> (<[2 := new_client "U2"]> (<[3 := new_client "U3"]> ∅)).

(** Three registered connections, nobody in a room. *)
Definition w_idle : World := mkWorld heap3 (mkHub {[1; 2; 3]} (make_chan 256) ∅).

(** Connection 1 is alone in the room. *)
Definition w_alone : World :=
  mkWorld heap3 (mkHub {[1; 2; 3]} (make_chan 256) {["general-voice" := {[1]}]}).

(** Connections 1 and 2 are in the room, connection 3 is not. *)
Definition w_call : World :=
  mkWorld heap3 (mkHub {[1; 2; 3]} (make_chan 256) {["general-voice" := {[1; 2]}]}).

Definition sdp : json := JObj [("sdp", JStr "v=0")].

Definition offer_members (target : string) : list (string * json) :=
  [("channel_id", JStr "general-voice"); ("target_user_id", JStr target);
   ("payload", sdp)].

Definition some_event : WSEvent := mkEvent "message.activity" JNull.

(** Connection 3 has stopped draining its queue. *)
Definition heap_stalled : gmap ptr Client :=
  <[3 := mkClient (mkChan (replicate 256 some_event) 256 false) "U3" ""]> heap3.

Definition w_stalled : World :=
  mkWorld heap_stalled
    (mkHub {[1; 2; 3]} (mkChan [some_event] 256 false) {["general-voice" := {[1; 2]}]}).

(** Connection 1 views channel [A], connection 2 views channel [B]. *)
Definition heap_viewing : gmap ptr Client :=
  <[1 := mkClient (make_chan 256) "U1" "A"]>
    (<[2 := mkClient (make_chan 256) "U2" "B"]> ∅).

Definition w_viewing : World := mkWorld heap_viewing (mkHub {[1; 2]} (make_chan 256) ∅).

Definition media_data : RawMessage :=
  Some (JObj [("channel_id", JStr "general-voice"); ("cam_enabled", JBool true);
              ("screen_sharing", JBool false)]).

Definition world_of (r : result unit) (otherwise : World) : World :=
  match r with
  | Ok _ w => w
  | _ => otherwise
  end.

Definition ops_demo : list registry_op :=
  [Join "general-voice" 1; Join "general-voice" 2; Join "lobby" 1; LeaveAll 1].

Definition w_after_ops : World := world_of (for_each ops_demo run_op w_idle) w_idle.

(** The world after connection 1 of [w_call] has been unregistered. *)
Definition w_unregistered : World := world_of (Run_unregister 1 w_call) w_call.

(** The queue of a client, if it is allocated. *)
Definition queue_of (w : World) (c : ptr) : option (list WSEvent) :=
  (λ cl, buf (send cl)) <$> heap w !! c.


(** ** Definitions for the further properties *)

(** What a send leaves alone in a client: whose it is, what it views,
    whether its queue is closed and how much the queue can hold. *)
Definition ident (cl : Client) : string * string * bool * nat :=
  (userID cl, channelID cl, closed (send cl), cap (send cl)).

Definition same_idents (w w' : World) : Prop :=
  ∀ c, ident <$> heap w' !! c = ident <$> heap w !! c.

(** Only queues have been written to. *)
Definition queues_only (w w' : World) : Prop :=
  hub w' = hub w ∧ same_idents w w'.

(** The heap after [close(client.send)] on each of [targets]. *)
Definition shuts (targets : list ptr) (hp : gmap ptr Client) : gmap ptr Client :=
  foldl (λ hp c, alter shut c hp) hp targets.

(** What the broadcast case of [Run] does to a registered client. *)
Definition delivered (message : WSEvent) (cl : Client) : Client :=
  if has_room (send cl) then with_send cl (push message (send cl)) else shut cl.

(** Every queue, the hub's own included, was made for 256 messages and
    holds no more than that. *)
Definition chan_bounded (q : chan) : Prop :=
  cap q = 256%nat ∧ (List.length (buf q) ≤ 256)%nat.

Definition bounded (w : World) : Prop :=
  (∀ c cl, heap w !! c = Some cl → chan_bounded (send cl)) ∧
  chan_bounded (broadcast (hub w)).

(** A room once [client] has gone from it: no entry when nobody is left. *)
Definition vacated (client : ptr) (room : gset ptr) : option (gset ptr) :=
  if decide (client ∈ room) then
    if decide (room ∖ {[client]} = ∅) then None else Some (room ∖ {[client]})
  else Some room.

(** The user ids of the members of a room, read through the heap. *)
Definition room_uids (w : World) (room : gset ptr) : option (list string) :=
  uids_of (heap w) (elements room).

(** A client after it has subscribed to [chID]. *)
Definition viewing_now (cl : Client) (chID : string) : Client :=
  mkClient (send cl) (userID cl) chID.

(** Two more messages fit into the queue. *)
Definition room_for_two (q : chan) : Prop := (List.length (buf q) + 2 ≤ cap q)%nat.

(** The hub's broadcast channel is open and empty. *)
Definition broadcast_idle (w : World) : Prop :=
  broadcast (hub w) = make_chan 256.

(** An operation that never parks its goroutine and, when it returns,
    has changed nothing but the contents of client queues. *)
Definition harmless (m : M unit) : Prop :=
  ∀ w, m w ≠ Blocked ∧ ∀ w', m w = Ok () w' → queues_only w w'.

(** The loop of [writePump], [for msg := range c.send], with the outcomes
    of [conn.WriteMessage] given turn by turn ([true]: written).  The
    result is the list of messages written, [None] when the outcomes run
    out before the loop has ended. *)
Fixpoint writePump (c : ptr) (writes : list bool) : M (option (list WSEvent)) :=
  match writes with
  | [] => mret None
  | ok :: writes =>
      next ← writePump_next c;
      match next with
      | None => mret (Some [])
      | Some m =>
          if ok : bool then
            rest ← writePump c writes;
            mret (cons m <$> rest)
          else mret (Some [])
      end
  end.

(** The client with its queue emptied. *)
Definition drained (cl : Client) : Client :=
  with_send cl (mkChan [] (cap (send cl)) (closed (send cl))).

(** ** Permissions (package [db])

    Go's [int] is 64 bits wide here; [|] and [&] never leave that range,
    so the bit masks are taken in [Z] with [Z.lor] and [Z.land]. *)

Module db.

Definition PermReadMessages : Z := Z.shiftl 1 0.
Definition PermSendMessages : Z := Z.shiftl 1 1.
Definition PermManageMessages : Z := Z.shiftl 1 2.
Definition PermManageChannels : Z := Z.shiftl 1 3.
Definition PermManageRoles : Z := Z.shiftl 1 4.
Definition PermManageServer : Z := Z.shiftl 1 5.
Definition PermAdministrator : Z := Z.shiftl 1 6.

(** The fields of [Role] and [User] that the permission code reads. *)
Record Role : Type := mkRole {
  roleID : string;
  roleName : string;
  rolePermissions : Z
}.

Record User : Type := mkUser {
  ID : string;
  Username : string;
  IsOwner : bool;
  Roles : list Role;
  Permissions : Z
}.

(** [ComputePermissions]; [everyone] is what [GetEveryoneRole] returned
    ([None]: nil, the query failed or found no such role). *)
Definition ComputePermissions (everyone : option Role) (u : User) : Z :=
  if IsOwner u then
    Z.lor (Z.lor (Z.lor (Z.lor (Z.lor (Z.lor PermAdministrator PermManageServer)
      PermManageRoles) PermManageChannels) PermManageMessages) PermSendMessages)
      PermReadMessages
  else
    let perms := 0%Z in
    let perms := match everyone with
                 | Some r => Z.lor perms (rolePermissions r)
                 | None => perms
                 end in
    foldl (λ perms r, Z.lor perms (rolePermissions r)) perms (Roles u).

Definition HasPermission (u : User) (perm : Z) : bool :=
  let p := Permissions u in
  if negb (Z.land p PermAdministrator =? 0)%Z then true
  else negb (Z.land p perm =? 0)%Z.

(** A user as the [GetUserBy...] functions hand it out:
    [u.Permissions = d.ComputePermissions(u)]. *)
Definition loaded (everyone : option Role) (u : User) : User :=
  mkUser (ID u) (Username u) (IsOwner u) (Roles u) (ComputePermissions everyone u).

(** The roles that count for a user who is not the owner. *)
Definition granted (everyone : option Role) (u : User) : list Role :=
  (option_list everyone ++ Roles u)%list.

(** The role sets bit [k] of the mask. *)
Definition grants (k : Z) (r : Role) : Prop := Z.testbit (rolePermissions r) k = true.

End db.

(** ** Runs of the system *)

(** The moves of [hub_step], as data. *)
Inductive move : Type :=
  | Connect (c : ptr) (uid : string)
  | Frame (c : ptr) (evt : rawClientMessage)
  | WriteOut (c : ptr)
  | Unregister (c : ptr)
  | Deliver
  | Announce (event : WSEvent)
  | AnnounceIn (chID : string) (event : WSEvent).

Definition landed {A : Type} (r : result A) : option World :=
  match r with
  | Ok _ w => Some w
  | _ => None
  end.

Definition run_move (mv : move) (w : World) : option World :=
  match mv with
  | Connect c uid =>
      match heap w !! c with
      | None => landed (WebSocket c uid w)
      | Some _ => None
      end
  | Frame c evt => landed (handleMessage c evt w)
  | WriteOut c => landed (writePump_next c w)
  | Unregister c => landed (Run_unregister c w)
  | Deliver => landed (Run_broadcast w)
  | Announce event => landed (Broadcast event w)
  | AnnounceIn chID event => landed (BroadcastToChannel chID event w)
  end.

Fixpoint play (mvs : list move) (w : World) : option World :=
  match mvs with
  | [] => Some w
  | mv :: rest =>
      match run_move mv w with
      | Some w1 => play rest w1
      | None => None
      end
  end.

(** Two connections are accepted and join the same room, the hub loop
    delivering the announcements. *)
Definition moves_two : list move :=
  [Connect 1 "U1"; Connect 2 "U2"; Frame 1 (frame_join "general-voice"); Deliver;
   Frame 2 (frame_join "general-voice"); Deliver].

Definition w_two : World := default w_start (play moves_two w_start).

(** Connection 1 joins a room and then stops draining its queue: the
    hub loop fills the queue and evicts the connection, after which
    connection 2 is accepted. *)
Definition moves_flood : list move :=
  (Connect 1 "U1" :: Frame 1 (frame_join "general-voice") :: Deliver ::
   List.concat (replicate 255 [Announce some_event; Deliver]) ++ [Connect 2 "U2"])%list.

Definition w_flooded : World := default w_start (play moves_flood w_start).

(** ** More worlds for the examples *)

(** Connection 1 was evicted by a broadcast and is still in the room. *)
Definition w_evicted : World :=
  mkWorld (<[1 := shut (new_client "U1")]> heap3)
    (mkHub {[2; 3]} (make_chan 256) {["general-voice" := {[1; 2]}]}).

(** The world after connection 1 of [w_call] has left all its rooms. *)
Definition w_left : World := world_of (leaveAllVoiceRooms 1 w_call) w_call.

Definition inbound_join_lobby : inbound :=
  Text (JObj [("type", JStr "voice.join"); ("data", JObj [("channel_id", JStr "lobby")])]).

(** A closed queue with a backlog of two messages. *)
Definition closing_client : Client :=
  mkClient (mkChan [some_event; evVoiceLeft "general-voice" "U2"] 256 true) "U1" "".

Definition w_closing : World :=
  mkWorld (<[1 := closing_client]> heap3) (mkHub {[2; 3]} (make_chan 256) ∅).

Definition channel_data (chID : string) : RawMessage :=
  Some (JObj [("channel_id", JStr chID)]).

Definition role_everyone : db.Role := db.mkRole "r0" "@everyone" 3.
Definition role_moderator : db.Role := db.mkRole "r1" "moderator" 4.
Definition user_moderator : db.User := db.mkUser "u1" "mod" false [role_moderator] 0.

(** ** Worlds and frames for the corrected claims *)

(** Both connections are in the room.  Connection 1 has written out what
    it was sent; connection 2 has stopped draining, and the broadcasts
    since have filled its queue. *)
Definition moves_crowded : list move :=
  ([Connect 1 "U1"; Connect 2 "U2"; Frame 1 (frame_join "general-voice"); Deliver;
    Frame 2 (frame_join "general-voice"); Deliver;
    WriteOut 1; WriteOut 1; WriteOut 1; WriteOut 1]
   ++ List.concat (replicate 253 [Announce some_event; Deliver]))%list.

Definition w_crowded : World := default w_start (play moves_crowded w_start).

(** Connection 1 is in the room.  Connection 2 is in no room yet, and
    its queue is full. *)
Definition moves_waiting : list move :=
  ([Connect 1 "U1"; Connect 2 "U2"; Frame 1 (frame_join "general-voice"); Deliver;
    WriteOut 1; WriteOut 1]
   ++ List.concat (replicate 255 [Announce some_event; Deliver]))%list.

Definition w_waiting : World := default w_start (play moves_waiting w_start).





(** ** The life of a connection *)

Definition closedness (cl : Client) : bool := closed (send cl).

(** The connection set and the closed flags are as they were. *)
Definition same_life (w w' : World) : Prop :=
  clients (hub w') = clients (hub w) ∧
  ∀ c, closedness <$> heap w' !! c = closedness <$> heap w !! c.

(** No client is forgotten. *)
Definition grown (w w' : World) : Prop :=
  ∀ c, is_Some (heap w !! c) → is_Some (heap w' !! c).

(** A client that is not registered has its queue closed. *)
Definition settled (w : World) : Prop :=
  ∀ c cl, heap w !! c = Some cl → c ∉ clients (hub w) → closed (send cl) = true.

Definition steady (w : World) : Prop := registered_ok w ∧ settled w.

(** Connection 1 of [w_two] reads a join for another room and a frame
    that is not JSON, and then its transport fails. *)
Definition frames_last : list frame := [mkFrame 60 inbound_join_lobby; mkFrame 7 NotJSON].

Definition w_read : World := world_of (readLoop 1 frames_last w_two) w_two.

(** Connection 2 speaks in between. *)
Definition w_read_on : World :=
  world_of (handleMessage 2 (mkRaw "typing" (channel_data "")) w_read) w_read.

(** [Run] has served the unregistration of connection 1. *)
Definition w_gone : World := world_of (Run_unregister 1 w_read_on) w_read_on.

(** * Reasoning about the embedding *)

(** ** Unfolding the monad *)

Lemma bind_unfold {A B : Type} (m : M A) (f : A → M B) (w : World) :
  (m ≫= f) w =
  match m w with
  | Ok a w' => f a w'
  | Panic => Panic
  | Blocked => Blocked
  end.
Proof. reflexivity. Qed.

Lemma ret_unfold {A : Type} (a : A) (w : World) : mret (M := M) a w = Ok a w.
Proof. reflexivity. Qed.

Lemma bind_Ok {A B : Type} (m : M A) (f : A → M B) (w w1 : World) (a : A) :
  m w = Ok a w1 → (m ≫= f) w = f a w1.
Proof. intros H. rewrite bind_unfold, H. reflexivity. Qed.

Lemma bind_inv {A B : Type} (m : M A) (f : A → M B) (w w2 : World) (b : B) :
  (m ≫= f) w = Ok b w2 → ∃ a w1, m w = Ok a w1 ∧ f a w1 = Ok b w2.
Proof.
  rewrite bind_unfold. destruct (m w) as [a w1| |]; [eauto | discriminate..].
Qed.

Lemma world_eta (w : World) : mkWorld (heap w) (hub w) = w.
Proof. by destruct w. Qed.

Lemma hub_eta (h : Hub) : mkHub (clients h) (broadcast h) (voiceRooms h) = h.
Proof. by destruct h. Qed.

Lemma for_each_app {A : Type} (xs ys : list A) (body : A → M unit) (w : World) :
  for_each (xs ++ ys) body w = (for_each xs body;; for_each ys body) w.
Proof.
  revert w. induction xs as [|x xs IH]; intros w; simpl.
  - reflexivity.
  - rewrite !bind_unfold. destruct (body x w); [|done..]. apply IH.
Qed.

(** ** Non-blocking sends *)

Lemma try_push_userID m cl : userID (try_push m cl) = userID cl.
Proof. unfold try_push. by destruct (has_room _). Qed.

Lemma try_push_channelID m cl : channelID (try_push m cl) = channelID cl.
Proof. unfold try_push. by destruct (has_room _). Qed.

Lemma try_push_closed m cl : closed (send (try_push m cl)) = closed (send cl).
Proof. unfold try_push. by destruct (has_room _). Qed.

Lemma select_send_open (c : ptr) (m : WSEvent) (w : World) (cl : Client) :
  heap w !! c = Some cl → closed (send cl) = false →
  select_send c m w =
    Ok (has_room (send cl)) (mkWorld (alter (try_push m) c (heap w)) (hub w)).
Proof.
  intros Hc Hopen. unfold select_send, deref. rewrite bind_unfold, Hc, Hopen.
  assert (alter (try_push m) c (heap w) = <[c := try_push m cl]> (heap w)) as ->.
  { apply map_eq. intros i. rewrite lookup_alter, lookup_insert.
    destruct (decide (c = i)) as [->|]; [by rewrite Hc | done]. }
  unfold try_push. destruct (has_room (send cl)).
  - reflexivity.
  - rewrite insert_id by done. by rewrite world_eta.
Qed.

Lemma select_send_closed (c : ptr) (m : WSEvent) (w : World) (cl : Client) :
  heap w !! c = Some cl → closed (send cl) = true → select_send c m w = Panic.
Proof.
  intros Hc Hcl. unfold select_send, deref. by rewrite bind_unfold, Hc, Hcl.
Qed.

Lemma sends_cons m c l hp : sends m (c :: l) hp = sends m l (alter (try_push m) c hp).
Proof. reflexivity. Qed.

Lemma sends_snoc m c l hp : sends m (l ++ [c]) hp = alter (try_push m) c (sends m l hp).
Proof. unfold sends. by rewrite foldl_app. Qed.

Lemma sends_lookup_notin m l hp c : c ∉ l → sends m l hp !! c = hp !! c.
Proof.
  revert hp. induction l as [|x l IH]; intros hp Hc; [done|].
  apply not_elem_of_cons in Hc as [Hne Hc].
  rewrite sends_cons, IH by done. by rewrite lookup_alter_ne.
Qed.

Lemma sends_lookup_in m l hp c :
  NoDup l → c ∈ l → sends m l hp !! c = try_push m <$> hp !! c.
Proof.
  revert hp. induction l as [|x l IH]; intros hp Hnd Hc; [by apply elem_of_nil in Hc|].
  apply NoDup_cons in Hnd as [Hx Hnd]. rewrite sends_cons.
  destruct (decide (c = x)) as [->|Hne].
  - rewrite sends_lookup_notin by done. by rewrite lookup_alter_eq.
  - apply elem_of_cons in Hc as [?|Hc]; [done|].
    rewrite IH by done. by rewrite lookup_alter_ne.
Qed.

Lemma sends_lookup m l hp c :
  NoDup l →
  sends m l hp !! c = if decide (c ∈ l) then try_push m <$> hp !! c else hp !! c.
Proof.
  intros Hnd. case_decide; [by apply sends_lookup_in | by apply sends_lookup_notin].
Qed.

(** Whatever the targets, the sends leave identities, viewed channels and
    closed flags alone. *)
Lemma sends_stable m l hp c :
  (userID <$> sends m l hp !! c) = (userID <$> hp !! c) ∧
  (channelID <$> sends m l hp !! c) = (channelID <$> hp !! c) ∧
  ((λ cl, closed (send cl)) <$> sends m l hp !! c) = ((λ cl, closed (send cl)) <$> hp !! c).
Proof.
  revert hp. induction l as [|x l IH]; intros hp; [by unfold sends|].
  rewrite sends_cons. destruct (IH (alter (try_push m) x hp)) as (-> & -> & ->).
  rewrite lookup_alter. case_decide; [subst|done].
  destruct (hp !! c) as [cl|]; simpl; [|done].
  by rewrite try_push_userID, try_push_channelID, try_push_closed.
Qed.

Lemma sends_open m l hp c : open_at hp c → open_at (sends m l hp) c.
Proof.
  intros (cl & Hc & Hopen). destruct (sends_stable m l hp c) as (_ & _ & H).
  rewrite Hc in H.
  destruct (sends m l hp !! c) as [cl'|] eqn:E; simpl in H; [|discriminate].
  exists cl'. split; [done|]. congruence.
Qed.

(** A loop whose body is a guarded non-blocking send of [m]. *)
Lemma for_each_deliver_from (body : ptr → M unit) (P : ptr → bool) (m : WSEvent)
    (hp : gmap ptr Client) (h : Hub) (l l0 : list ptr) :
  (∀ c l', c ∈ l →
     body c (mkWorld (sends m l' hp) h) =
     if P c then (select_send c m;; mret ()) (mkWorld (sends m l' hp) h)
     else Ok () (mkWorld (sends m l' hp) h)) →
  (∀ c, c ∈ l → P c = true → open_at hp c) →
  for_each l body (mkWorld (sends m l0 hp) h) =
    Ok () (mkWorld (sends m (l0 ++ filter (λ c, P c = true) l) hp) h).
Proof.
  revert l0. induction l as [|x l IH]; intros l0 Hbody Hopen.
  - simpl. by rewrite app_nil_r.
  - simpl. rewrite bind_unfold, Hbody by left.
    assert (for_each l body (mkWorld (sends m (l0 ++ filter (λ c, P c = true) [x]) hp) h)
            = Ok () (mkWorld (sends m (l0 ++ filter (λ c, P c = true) (x :: l)) hp) h)) as Hrest.
    { rewrite IH.
      - by rewrite <- app_assoc, <- filter_app.
      - intros c l' Hc. apply Hbody. by right.
      - intros c Hc. apply Hopen. by right. }
    destruct (P x) eqn:HP.
    + destruct (sends_open m l0 hp x (Hopen x ltac:(left) HP)) as (cl & Hcl & Hop).
      rewrite bind_unfold, (select_send_open x m _ cl) by done. simpl.
      rewrite <- sends_snoc. rewrite <- Hrest.
      rewrite filter_cons_True, filter_nil by done. reflexivity.
    + rewrite <- Hrest. rewrite filter_cons_False by congruence.
      rewrite filter_nil. by rewrite app_nil_r.
Qed.

Lemma for_each_deliver (body : ptr → M unit) (P : ptr → bool) (m : WSEvent)
    (l : list ptr) (w : World) :
  (∀ c l', c ∈ l →
     body c (mkWorld (sends m l' (heap w)) (hub w)) =
     if P c then (select_send c m;; mret ()) (mkWorld (sends m l' (heap w)) (hub w))
     else Ok () (mkWorld (sends m l' (heap w)) (hub w))) →
  (∀ c, c ∈ l → P c = true → open_at (heap w) c) →
  for_each l body w =
    Ok () (mkWorld (sends m (filter (λ c, P c = true) l) (heap w)) (hub w)).
Proof.
  intros Hbody Hopen.
  pose proof (for_each_deliver_from body P m (heap w) (hub w) l [] Hbody Hopen) as H.
  simpl in H. unfold sends at 1 in H. simpl in H. by rewrite world_eta in H.
Qed.

(** ** The three delivery loops *)

Lemma BroadcastToChannel_spec (chID : string) (event : WSEvent) (w : World) :
  registered_ok w →
  BroadcastToChannel chID event w =
    Ok () (mkWorld (sends event (filter (λ c, viewing (heap w) chID c = true)
                                   (elements (clients (hub w)))) (heap w)) (hub w)).
Proof.
  intros Hreg. unfold BroadcastToChannel, get_hub. rewrite bind_unfold.
  apply for_each_deliver.
  - intros c l' Hc. apply elem_of_elements, Hreg in Hc as (cl & Hcl & _).
    destruct (sends_stable event l' (heap w) c) as (_ & Hch & _).
    unfold viewing. rewrite Hcl in *. unfold deref. rewrite bind_unfold. simpl.
    destruct (sends event l' (heap w) !! c) as [cl'|]; simpl in Hch; [|discriminate].
    injection Hch as ->. by destruct (String.eqb _ _).
  - intros c Hc _. by apply Hreg, elem_of_elements.
Qed.

Lemma SendToUser_spec (targetUserID : string) (event : WSEvent) (w : World) :
  registered_ok w →
  SendToUser targetUserID event w =
    Ok () (mkWorld (sends event (filter (λ c, owned_by (heap w) targetUserID c = true)
                                   (elements (clients (hub w)))) (heap w)) (hub w)).
Proof.
  intros Hreg. unfold SendToUser, get_hub. rewrite bind_unfold.
  apply for_each_deliver.
  - intros c l' Hc. apply elem_of_elements, Hreg in Hc as (cl & Hcl & _).
    destruct (sends_stable event l' (heap w) c) as (Hu & _ & _).
    unfold owned_by. rewrite Hcl in *. unfold deref. rewrite bind_unfold. simpl.
    destruct (sends event l' (heap w) !! c) as [cl'|]; simpl in Hu; [|discriminate].
    injection Hu as ->. by destruct (String.eqb _ _).
  - intros c Hc _. by apply Hreg, elem_of_elements.
Qed.

Lemma BroadcastToVoiceRoom_spec (chID : string) (event : WSEvent)
    (exclude : option ptr) (w : World) :
  let room := default ∅ (voiceRooms (hub w) !! chID) in
  (∀ c, c ∈ room → Some c ≠ exclude → open_at (heap w) c) →
  BroadcastToVoiceRoom chID event exclude w =
    Ok () (mkWorld (sends event (filter (λ c, not_excluded exclude c = true)
                                   (elements room)) (heap w)) (hub w)).
Proof.
  intros room Hopen. unfold BroadcastToVoiceRoom, get_rooms. rewrite bind_unfold.
  subst room. destruct (voiceRooms (hub w) !! chID) as [room|]; simpl in *.
  - apply for_each_deliver.
    + intros c l' _. unfold not_excluded.
      destruct (decide (Some c = exclude)) as [He|He].
      * by rewrite bool_decide_eq_false_2 by (by intros ?).
      * by rewrite bool_decide_eq_true_2.
    + intros c Hc HP. apply Hopen; [by apply elem_of_elements|].
      by apply bool_decide_eq_true in HP.
  - rewrite elements_empty, filter_nil. unfold sends. simpl. by rewrite world_eta.
Qed.

(** ** Reading user ids through the heap *)

Lemma uids_of_nil hp : uids_of hp [] = Some [].
Proof. reflexivity. Qed.

Lemma uids_of_cons hp c l :
  uids_of hp (c :: l) =
  match hp !! c with
  | Some cl => match uids_of hp l with Some us => Some (userID cl :: us) | None => None end
  | None => None
  end.
Proof.
  unfold uids_of. simpl. destruct (hp !! c); simpl; [|done].
  by destruct (mapM _ l).
Qed.

Lemma uids_of_length hp l us : uids_of hp l = Some us → List.length us = List.length l.
Proof. intros H. symmetry. by apply length_mapM in H. Qed.

Lemma uids_of_total hp l :
  (∀ c, c ∈ l → is_Some (hp !! c)) → is_Some (uids_of hp l).
Proof.
  induction l as [|c l IH]; intros H; [by eexists|].
  rewrite uids_of_cons. destruct (H c ltac:(left)) as [cl ->].
  destruct IH as [us ->]; [|by eexists]. intros c' Hc'. apply H. by right.
Qed.

Lemma uids_of_elem hp l us u :
  uids_of hp l = Some us →
  u ∈ us ↔ ∃ c cl, c ∈ l ∧ hp !! c = Some cl ∧ userID cl = u.
Proof.
  revert us. induction l as [|c l IH]; intros us H.
  - injection H as <-. split; [by intros ?%elem_of_nil|].
    by intros (? & ? & ?%elem_of_nil & _).
  - rewrite uids_of_cons in H. destruct (hp !! c) as [cl|] eqn:Hc; [|done].
    destruct (uids_of hp l) as [us'|]; [|done]. injection H as <-.
    rewrite elem_of_cons, (IH us' eq_refl). split.
    + intros [->|(c' & cl' & ? & ? & ?)].
      * exists c, cl. split; [left|]; done.
      * exists c', cl'. split; [by right|done].
    + intros (c' & cl' & [->|?]%elem_of_cons & Hc' & Hu).
      * left. congruence.
      * right. eauto.
Qed.

Lemma collect_uids (l : list ptr) (acc : list string) (w : World) :
  for_acc l acc (λ uids c, cl ← deref c; mret (uids ++ [userID cl])%list) w =
  match uids_of (heap w) l with
  | Some us => Ok (acc ++ us)%list w
  | None => Panic
  end.
Proof.
  revert acc. induction l as [|c l IH]; intros acc.
  - simpl. by rewrite app_nil_r.
  - rewrite uids_of_cons. simpl. rewrite bind_unfold. unfold deref at 1.
    rewrite bind_unfold. destruct (heap w !! c) as [cl|]; [|done]. simpl.
    rewrite IH. destruct (uids_of (heap w) l); [|done].
    by rewrite <- app_assoc.
Qed.

Lemma has_user_elem uid us : has_user uid us = true ↔ uid ∈ us.
Proof.
  unfold has_user. rewrite existsb_exists. split.
  - intros (u & Hin & ->%String.eqb_eq). by apply list_elem_of_In.
  - intros H. exists uid. split; [by apply list_elem_of_In | apply String.eqb_refl].
Qed.

Lemma find_users (userA userB : string) (l : list ptr) (found : bool * bool) (w : World) :
  for_acc l found (λ found c,
      cl ← deref c;
      mret (if String.eqb (userID cl) userA then true else found.1,
            if String.eqb (userID cl) userB then true else found.2)) w =
  match uids_of (heap w) l with
  | Some us => Ok (found.1 || has_user userA us, found.2 || has_user userB us) w
  | None => Panic
  end.
Proof.
  revert found. induction l as [|c l IH]; intros [a b].
  - simpl. by rewrite !orb_false_r.
  - rewrite uids_of_cons. simpl. rewrite bind_unfold. unfold deref at 1.
    rewrite bind_unfold. destruct (heap w !! c) as [cl|]; [|done]. simpl.
    rewrite IH. destruct (uids_of (heap w) l); [|done]. simpl.
    by destruct (String.eqb (userID cl) userA), (String.eqb (userID cl) userB), a, b.
Qed.

(** ** The registry operations as functions of the registry *)

Lemma with_rooms_id w : with_rooms w (voiceRooms (hub w)) = w.
Proof. unfold with_rooms. by rewrite hub_eta, world_eta. Qed.

Lemma joinVoiceRoom_spec (chID : string) (client : ptr) (w : World) :
  let rooms := voiceRooms (hub w) in
  let room := default ∅ (rooms !! chID) in
  joinVoiceRoom chID client w =
  match uids_of (heap w) (elements room) with
  | Some existing => Ok existing (with_rooms w (<[chID := {[client]} ∪ room]> rooms))
  | None => Panic
  end.
Proof.
  intros rooms room. unfold joinVoiceRoom, get_rooms. rewrite bind_unfold.
  subst room rooms. destruct (voiceRooms (hub w) !! chID) as [room|] eqn:Hroom.
  - rewrite bind_unfold, ret_unfold, bind_unfold, Hroom. simpl.
    rewrite bind_unfold, collect_uids. by destruct (uids_of _ _).
  - rewrite bind_unfold. simpl. rewrite bind_unfold. simpl.
    rewrite lookup_insert_eq. simpl.
    rewrite bind_unfold, collect_uids. simpl.
    rewrite elements_empty, uids_of_nil. simpl.
    unfold with_rooms. simpl. by rewrite insert_insert_eq.
Qed.

Lemma leaveVoiceRoom_spec (chID : string) (client : ptr) (w : World) :
  leaveVoiceRoom chID client w =
  match voiceRooms (hub w) !! chID with
  | None => Ok false w
  | Some room =>
      if decide (client ∈ room)
      then Ok true (with_rooms w (without client chID room (voiceRooms (hub w))))
      else Ok false w
  end.
Proof.
  unfold leaveVoiceRoom, get_rooms. rewrite bind_unfold.
  destruct (voiceRooms (hub w) !! chID) as [room|]; [|done].
  destruct (decide (client ∈ room)); [|done].
  unfold without, with_rooms. rewrite bind_unfold. simpl.
  destruct (size (room ∖ {[client]}) =? 0)%nat; simpl; [|done].
  rewrite !bind_unfold. simpl. by rewrite delete_insert_eq.
Qed.

Lemma scan_step_in client affected rooms chID room :
  client ∈ room →
  scan_step client (affected, rooms) (chID, room) =
    ((affected ++ [chID])%list, without client chID room rooms).
Proof. intros H. unfold scan_step. simpl. by rewrite decide_True. Qed.

Lemma scan_step_out client st chID room :
  client ∉ room → scan_step client st (chID, room) = st.
Proof. intros H. unfold scan_step. simpl. by rewrite decide_False. Qed.

Lemma leaveAll_loop (client : ptr) (l : list (string * gset ptr))
    (affected : list string) (w : World) :
  for_acc l affected (λ affected entry,
    let '(chID, room) := entry in
    if decide (client ∈ room) then
      let room' := room ∖ {[client]} in
      rooms ← get_rooms;
      set_rooms (<[chID := room']> rooms);;
      (if (size room' =? 0)%nat then
         rooms ← get_rooms; set_rooms (delete chID rooms)
       else mret ());;
      mret (affected ++ [chID])%list
    else mret affected) w =
  let st := foldl (scan_step client) (affected, voiceRooms (hub w)) l in
  Ok st.1 (with_rooms w st.2).
Proof.
  revert affected w. induction l as [|[chID room] l IH]; intros affected w.
  - simpl. by rewrite with_rooms_id.
  - simpl. rewrite bind_unfold.
    destruct (decide (client ∈ room)) as [Hin|Hout].
    + rewrite scan_step_in by done.
      unfold get_rooms at 1. rewrite !bind_unfold. simpl.
      unfold without.
      destruct (size (room ∖ {[client]}) =? 0)%nat; simpl;
        rewrite ?bind_unfold; simpl; rewrite IH; simpl;
        by rewrite ?delete_insert_eq.
    + rewrite scan_step_out by done. rewrite ret_unfold, IH. done.
Qed.

Lemma leaveAll_scan_spec (client : ptr) (w : World) :
  leaveAll_scan client w =
  let st := foldl (scan_step client) ([], voiceRooms (hub w))
              (map_to_list (voiceRooms (hub w))) in
  Ok st.1 (with_rooms w st.2).
Proof. unfold leaveAll_scan, get_rooms. rewrite bind_unfold. apply leaveAll_loop. Qed.

Lemma AreInSameVoiceRoom_spec (chID userA userB : string) (w : World) :
  AreInSameVoiceRoom chID userA userB w =
  match voiceRooms (hub w) !! chID with
  | None => Ok false w
  | Some room =>
      match uids_of (heap w) (elements room) with
      | Some us => Ok (has_user userA us && has_user userB us) w
      | None => Panic
      end
  end.
Proof.
  unfold AreInSameVoiceRoom, get_rooms. rewrite bind_unfold.
  destruct (voiceRooms (hub w) !! chID) as [room|]; [|done].
  rewrite bind_unfold, find_users. by destruct (uids_of _ _).
Qed.

(** ** What an operation leaves alone *)

Section Respects.
Context (R : World → World → Prop) `{!PreOrder R}.

Lemma respects_ret {A : Type} (a : A) : respects R (mret a).
Proof. intros w a' w' [= _ <-]. reflexivity. Qed.

Lemma respects_bind {A B : Type} (m : M A) (f : A → M B) :
  respects R m → (∀ a, respects R (f a)) → respects R (m ≫= f).
Proof.
  intros Hm Hf w b w' (a & w1 & H1 & H2)%bind_inv.
  transitivity w1; [by eapply Hm | by eapply Hf].
Qed.

Lemma respects_panic {A : Type} : respects R (@panic A).
Proof. intros w a w' [=]. Qed.

Lemma respects_park {A : Type} : respects R (@park A).
Proof. intros w a w' [=]. Qed.

Lemma respects_get_hub : respects R get_hub.
Proof. intros w a w' [= _ <-]. reflexivity. Qed.

Lemma respects_get_rooms : respects R get_rooms.
Proof. intros w a w' [= _ <-]. reflexivity. Qed.

Lemma respects_deref c : respects R (deref c).
Proof.
  intros w a w'. unfold deref. destruct (heap w !! c); [|done].
  intros [= _ <-]. reflexivity.
Qed.

Lemma respects_for_each {A : Type} (xs : list A) (body : A → M unit) :
  (∀ x, respects R (body x)) → respects R (for_each xs body).
Proof.
  intros Hbody. induction xs as [|x xs IH]; simpl.
  - apply respects_ret.
  - apply respects_bind; [apply Hbody | intros _; apply IH].
Qed.

Lemma respects_for_acc {A B : Type} (xs : list A) (acc : B) (body : B → A → M B) :
  (∀ acc x, respects R (body acc x)) → respects R (for_acc xs acc body).
Proof.
  intros Hbody. revert acc. induction xs as [|x xs IH]; intros acc; simpl.
  - apply respects_ret.
  - apply respects_bind; [apply Hbody | intros acc'; apply IH].
Qed.
End Respects.

Lemma respects_weaken {A : Type} (R R' : World → World → Prop) (m : M A) :
  (∀ w w', R w w' → R' w w') → respects R m → respects R' m.
Proof. intros HR Hm w a w' H. by eapply HR, Hm. Qed.

#[local] Instance same_registry_preorder : PreOrder same_registry.
Proof.
  split.
  - intros w. by split.
  - intros w1 w2 w3 [? ?] [? ?]. split; congruence.
Qed.

#[local] Instance calm_preorder : PreOrder calm.
Proof.
  split.
  - intros w. split; [done|auto].
  - intros w1 w2 w3 [? H12] [? H23]. split; [congruence|]. auto.
Qed.

#[local] Instance keeping_preorder (P : World → Prop) : PreOrder (keeping P).
Proof.
  split.
  - intros w H. exact H.
  - intros w1 w2 w3 H12 H23 H. auto.
Qed.

#[local] Instance tidy_preorder : PreOrder tidy.
Proof. apply keeping_preorder. Qed.

Create HintDb respects.
#[local] Hint Resolve respects_ret respects_panic respects_park respects_get_hub
  respects_get_rooms respects_deref same_registry_preorder calm_preorder
  keeping_preorder tidy_preorder : respects.

Ltac head_of t :=
  match t with
  | ?f _ => head_of f
  | _ => t
  end.

(** Walks through an operation down to the primitives, using what is known
    about them for the relation at hand. *)
Ltac respects_step :=
  first
    [ solve [auto with respects]
    | match goal with
      | |- respects _ (_ ≫= _) => apply respects_bind; [apply _| |intros ?]
      | |- respects _ (for_each _ _) => apply respects_for_each; [apply _|intros ?]
      | |- respects _ (for_acc _ _ _) => apply respects_for_acc; [apply _|intros ? ?]
      | |- respects _ (if ?b then _ else _) => destruct b
      | |- respects _ (match ?o with _ => _ end) => destruct o
      | |- respects _ ?m => let h := head_of m in unfold h
      end ].

(** *** The connection set and the registry *)

Lemma keeps_store c cl : respects same_registry (store c cl).
Proof. intros w a w' H. unfold store in H. simplify_eq. by split. Qed.

Lemma keeps_set_broadcast q : respects same_registry (set_broadcast q).
Proof. intros w a w' H. unfold set_broadcast in H. simplify_eq. by split. Qed.

#[local] Hint Resolve keeps_store keeps_set_broadcast : respects.

Lemma keeps_close_send c w a w' : close_send c w = Ok a w' → same_registry w w'.
Proof. revert w a w'. change (respects same_registry (close_send c)). repeat respects_step. Qed.

Lemma keeps_leaveAll_announce client affected w a w' :
  leaveAll_announce client affected w = Ok a w' → same_registry w w'.
Proof.
  revert w a w'. change (respects same_registry (leaveAll_announce client affected)).
  repeat respects_step.
Qed.

(** *** Open queues *)

Lemma calm_set_rooms r : respects calm (set_rooms r).
Proof. intros w a w' H. unfold set_rooms in H. simplify_eq. by split. Qed.

Lemma calm_set_broadcast q : respects calm (set_broadcast q).
Proof. intros w a w' H. unfold set_broadcast in H. simplify_eq. by split. Qed.

Lemma calm_select_send c data : respects calm (select_send c data).
Proof.
  intros w a w' H. unfold select_send, deref in H. rewrite bind_unfold in H.
  destruct (heap w !! c) as [cl|] eqn:Hcl; [|done].
  destruct (closed (send cl)) eqn:Hop; [done|].
  destruct (has_room (send cl)).
  2: { rewrite ret_unfold in H. simplify_eq. reflexivity. }
  rewrite bind_unfold in H. simpl in H. rewrite ret_unfold in H. simplify_eq.
  split; [done|]. simpl.
  intros c' (cl' & Hcl' & Hop'). destruct (decide (c' = c)) as [->|Hne].
  - eexists. rewrite lookup_insert_eq. split; [done|]. by simplify_eq.
  - exists cl'. by rewrite lookup_insert_ne.
Qed.

Lemma calm_SetChannel c chID : respects calm (SetChannel c chID).
Proof.
  intros w a w' H. unfold SetChannel, deref in H. rewrite bind_unfold in H.
  destruct (heap w !! c) as [cl|] eqn:Hcl; [|done].
  unfold store in H. simplify_eq. split; [done|]. simpl.
  intros c' (cl' & Hcl' & Hop'). destruct (decide (c' = c)) as [->|Hne].
  - eexists. rewrite lookup_insert_eq. split; [done|]. by simplify_eq.
  - exists cl'. by rewrite lookup_insert_ne.
Qed.

#[local] Hint Resolve calm_set_rooms calm_set_broadcast calm_select_send
  calm_SetChannel : respects.

Lemma calm_handleMessage c evt : respects calm (handleMessage c evt).
Proof. unfold handleMessage. repeat respects_step. Qed.

Lemma registered_ok_calm (w w' : World) :
  calm w w' → registered_ok w → registered_ok w'.
Proof. intros [Hc Hopen] Hreg c Hin. apply Hopen, Hreg. by rewrite <- Hc. Qed.

Lemma leaveAllVoiceRooms_unfold client w :
  leaveAllVoiceRooms client w =
  let st := foldl (scan_step client) ([], voiceRooms (hub w))
              (map_to_list (voiceRooms (hub w))) in
  leaveAll_announce client st.1 (with_rooms w st.2).
Proof.
  unfold leaveAllVoiceRooms. rewrite bind_unfold, leaveAll_scan_spec. reflexivity.
Qed.

(** ** The registry invariant *)

Lemma no_empty_room_empty : no_empty_room ∅.
Proof. intros chID room. by rewrite lookup_empty. Qed.

Lemma union_joiner_nonempty (client : ptr) (room : gset ptr) : {[client]} ∪ room ≠ ∅.
Proof.
  intros He. apply (not_elem_of_empty (C := gset ptr) client).
  rewrite <- He. apply elem_of_union. left. by apply elem_of_singleton.
Qed.

Lemma union_joiner_absent (client : ptr) (room : gset ptr) :
  client ∉ room → room = ({[client]} ∪ room) ∖ {[client]}.
Proof.
  intros Hout. apply set_eq. intros x.
  rewrite elem_of_difference, elem_of_union, elem_of_singleton. split.
  - intros Hx. split; [by right|]. by intros ->.
  - by intros [[->|?] ?].
Qed.

Lemma union_joiner_present (client : ptr) (room : gset ptr) :
  client ∈ room → {[client]} ∪ room = room.
Proof.
  intros Hin. apply set_eq. intros x.
  rewrite elem_of_union, elem_of_singleton. split.
  - by intros [->|?].
  - by right.
Qed.

Lemma no_empty_room_join rooms chID client room :
  no_empty_room rooms → no_empty_room (<[chID := {[client]} ∪ room]> rooms).
Proof.
  intros H ch r. rewrite lookup_insert. case_decide.
  - intros [= <-]. apply union_joiner_nonempty.
  - apply H.
Qed.

Lemma no_empty_room_without rooms client chID room :
  no_empty_room rooms → no_empty_room (without client chID room rooms).
Proof.
  intros H ch r. unfold without.
  destruct (Nat.eqb_spec (size (room ∖ {[client]})) 0) as [Hz|Hnz].
  - rewrite lookup_delete. case_decide; [done | apply H].
  - rewrite lookup_insert. case_decide; [|apply H].
    intros [= <-] He. apply Hnz. rewrite He. apply size_empty.
Qed.

Lemma no_empty_room_scan client l st :
  no_empty_room st.2 → no_empty_room (foldl (scan_step client) st l).2.
Proof.
  revert st. induction l as [|[chID room] l IH]; intros st H; [done|].
  simpl. apply IH. unfold scan_step. simpl.
  destruct (decide (client ∈ room)); [|done]. simpl.
  by apply no_empty_room_without.
Qed.

(** After the scan the client is in no room. *)
Lemma scan_clears client l st :
  (∀ chID room, st.2 !! chID = Some room → client ∈ room → (chID, room) ∈ l) →
  ∀ chID room, (foldl (scan_step client) st l).2 !! chID = Some room → client ∉ room.
Proof.
  revert st. induction l as [|[ch0 room0] l IH]; intros st H chID room.
  - simpl. intros Hl Hin. by apply (H chID room Hl), elem_of_nil in Hin.
  - simpl. apply IH. clear chID room. intros chID room Hl Hin.
    unfold scan_step in Hl. simpl in Hl.
    destruct (decide (client ∈ room0)) as [Hin0|Hout0]; simpl in Hl.
    + assert (chID ≠ ch0) as Hne.
      { intros ->. unfold without in Hl.
        destruct (size (room0 ∖ {[client]}) =? 0)%nat.
        - by rewrite lookup_delete_eq in Hl.
        - rewrite lookup_insert_eq in Hl. injection Hl as <-.
          apply elem_of_difference in Hin as [_ Hn]. apply Hn.
          by apply elem_of_singleton. }
      assert (st.2 !! chID = Some room) as Hst.
      { unfold without in Hl. destruct (size (room0 ∖ {[client]}) =? 0)%nat.
        - by rewrite lookup_delete_ne in Hl.
        - by rewrite lookup_insert_ne in Hl. }
      apply H in Hst; [|done]. apply elem_of_cons in Hst as [[= ? ?]|?]; done.
    + apply H in Hl; [|done]. apply elem_of_cons in Hl as [[= ? ?]|?]; [|done].
      by subst.
Qed.

(** A scan for a client that is in no room changes nothing. *)
Lemma scan_noop client l st :
  (∀ chID room, (chID, room) ∈ l → client ∉ room) →
  foldl (scan_step client) st l = st.
Proof.
  revert st. induction l as [|[ch0 room0] l IH]; intros st H; [done|].
  simpl. rewrite scan_step_out by (apply (H ch0); left).
  apply IH. intros chID room Hin. apply (H chID). by right.
Qed.

Lemma scan_rooms_clear client rooms :
  in_no_room client (foldl (scan_step client) ([], rooms) (map_to_list rooms)).2.
Proof.
  unfold in_no_room. apply scan_clears. simpl.
  intros chID room H _. by apply elem_of_map_to_list.
Qed.

Lemma scan_rooms_noop client rooms :
  in_no_room client rooms →
  foldl (scan_step client) ([], rooms) (map_to_list rooms) = ([], rooms).
Proof.
  intros H. apply scan_noop. intros chID room Hin%elem_of_map_to_list. by eapply H.
Qed.

(** ** Snapshots *)

Lemma snapshot_loop (l : list (string * gset ptr)) (out : gmap string (list string))
    (w : World) :
  (∀ snap w',
     for_acc l out (λ out entry,
       let '(chID, room) := entry in
       uids ← for_acc (elements room) [] (λ uids c,
                 cl ← deref c; mret (uids ++ [userID cl])%list);
       mret (<[chID := uids]> out)) w = Ok snap w' →
     w' = w ∧
     ∀ chID us, snap !! chID = Some us →
       out !! chID = Some us ∨
       ∃ room, (chID, room) ∈ l ∧ uids_of (heap w) (elements room) = Some us) ∧
  ((∀ chID room c, (chID, room) ∈ l → c ∈ room → is_Some (heap w !! c)) →
   ∃ snap,
     for_acc l out (λ out entry,
       let '(chID, room) := entry in
       uids ← for_acc (elements room) [] (λ uids c,
                 cl ← deref c; mret (uids ++ [userID cl])%list);
       mret (<[chID := uids]> out)) w = Ok snap w).
Proof.
  revert out. induction l as [|[ch0 room0] l IH]; intros out.
  - split.
    + intros snap w' [= <- <-]. split; [done|]. eauto.
    + intros _. by exists out.
  - simpl. rewrite bind_unfold, bind_unfold, collect_uids. split.
    + intros snap w'.
      destruct (uids_of (heap w) (elements room0)) as [us0|] eqn:Hus; [|done].
      simpl. intros H. apply IH in H as [-> H]. split; [done|].
      intros chID us Hl. apply H in Hl as [Hl|(room & Hin & Hr)].
      * rewrite lookup_insert in Hl. case_decide; [|by left].
        subst. injection Hl as <-. right. exists room0. split; [left|]; done.
      * right. exists room. split; [by right|done].
    + intros Halloc.
      destruct (uids_of_total (heap w) (elements room0)) as [us0 ->].
      { intros c Hc%elem_of_elements. apply (Halloc ch0 room0); [left|done]. }
      simpl. apply IH. intros chID room c Hin. apply (Halloc chID). by right.
Qed.

Lemma GetVoiceRoomSnapshot_sound (w w' : World) (snap : gmap string (list string)) :
  GetVoiceRoomSnapshot w = Ok snap w' →
  w' = w ∧
  ∀ chID us, snap !! chID = Some us →
    ∃ room, voiceRooms (hub w) !! chID = Some room ∧
            uids_of (heap w) (elements room) = Some us.
Proof.
  unfold GetVoiceRoomSnapshot, get_rooms. rewrite bind_unfold.
  intros H. apply (proj1 (snapshot_loop _ _ _)) in H as [-> H]. split; [done|].
  intros chID us Hl. apply H in Hl as [Hl|(room & Hin & Hr)].
  - by rewrite lookup_empty in Hl.
  - exists room. split; [by apply elem_of_map_to_list | done].
Qed.

Lemma GetVoiceRoomSnapshot_total (w : World) :
  members_alloc w → ∃ snap, GetVoiceRoomSnapshot w = Ok snap w.
Proof.
  intros Halloc. unfold GetVoiceRoomSnapshot, get_rooms. rewrite bind_unfold.
  apply (proj2 (snapshot_loop _ _ _)). intros chID room c Hin%elem_of_map_to_list.
  exact (Halloc chID room c Hin).
Qed.

(** ** C2: no room stays empty *)

Lemma run_op_invariant (op : registry_op) (w w' : World) :
  no_empty_room (voiceRooms (hub w)) → run_op op w = Ok () w' →
  no_empty_room (voiceRooms (hub w')).
Proof.
  intros Hinv. destruct op as [chID client|chID client|client]; simpl.
  - rewrite bind_unfold, joinVoiceRoom_spec.
    destruct (uids_of _ _); [|done]. intros [= <-]. simpl.
    by apply no_empty_room_join.
  - rewrite bind_unfold, leaveVoiceRoom_spec.
    destruct (voiceRooms (hub w) !! chID) as [room|]; [|by intros [= <-]].
    destruct (decide (client ∈ room)); intros [= <-]; [|done]. simpl.
    by apply no_empty_room_without.
  - rewrite leaveAllVoiceRooms_unfold. simpl.
    intros [_ Hr]%keeps_leaveAll_announce. simpl in Hr. rewrite Hr.
    by apply (no_empty_room_scan client _ ([], voiceRooms (hub w))).
Qed.

(** C2.  From a registry without empty rooms (the empty registry in
    particular), any sequence of [Join], [Leave] and [LeaveAll] that
    completes leaves a registry without empty rooms, and a snapshot taken
    then has no empty list of user ids. *)
Theorem room_emptiness_invariant (ops : list registry_op) (w w' : World) :
  no_empty_room (voiceRooms (hub w)) →
  for_each ops run_op w = Ok () w' →
  no_empty_room (voiceRooms (hub w')) ∧
  (∀ snap w'', GetVoiceRoomSnapshot w' = Ok snap w'' →
     ∀ chID uids, snap !! chID = Some uids → uids ≠ []) ∧
  (members_alloc w' → ∃ snap, GetVoiceRoomSnapshot w' = Ok snap w').
Proof.
  intros Hinv Hrun.
  assert (no_empty_room (voiceRooms (hub w'))) as Hinv'.
  { revert w Hinv Hrun. induction ops as [|op ops IH]; intros w Hinv.
    - by intros [= <-].
    - simpl. intros (u & w1 & H1 & H2)%bind_inv. destruct u.
      eapply IH; [|done]. by eapply run_op_invariant. }
  split; [done|]. split; [|apply GetVoiceRoomSnapshot_total].
  intros snap w'' [-> Hsnap]%GetVoiceRoomSnapshot_sound chID uids Hl ->.
  apply Hsnap in Hl as (room & Hroom & Hus).
  apply uids_of_length in Hus. simpl in Hus.
  apply (Hinv' chID room Hroom). apply leibniz_equiv, elements_empty_inv.
  symmetry in Hus. by apply nil_length_inv in Hus as ->.
Qed.

(** ** C3: cleaning up twice *)

Lemma leaveAllVoiceRooms_clears (client : ptr) (w w1 : World) :
  leaveAllVoiceRooms client w = Ok () w1 →
  clients (hub w1) = clients (hub w) ∧ in_no_room client (voiceRooms (hub w1)).
Proof.
  rewrite leaveAllVoiceRooms_unfold. simpl.
  intros [Hc Hr]%keeps_leaveAll_announce. simpl in *. split; [done|].
  rewrite Hr. apply scan_rooms_clear.
Qed.

Lemma leaveAllVoiceRooms_noop (client : ptr) (w : World) :
  in_no_room client (voiceRooms (hub w)) → leaveAllVoiceRooms client w = Ok () w.
Proof.
  intros H. rewrite leaveAllVoiceRooms_unfold, scan_rooms_noop by done.
  simpl. by rewrite with_rooms_id.
Qed.

Lemma Run_unregister_clears (client : ptr) (w w1 : World) :
  Run_unregister client w = Ok () w1 →
  (client ∉ clients (hub w1)) ∧ in_no_room client (voiceRooms (hub w1)).
Proof.
  unfold Run_unregister, get_hub. rewrite bind_unfold.
  intros (u & wa & Ha & Hl)%bind_inv.
  apply leaveAllVoiceRooms_clears in Hl as [Hc Hr]. split; [|done].
  rewrite Hc. clear Hc Hr.
  destruct (decide (client ∈ clients (hub w))) as [Hin|Hout].
  - apply bind_inv in Ha as (u' & wb & Hb & Hcl).
    apply keeps_close_send in Hcl as [-> _].
    unfold set_clients in Hb. inversion Hb; subst; simpl.
    rewrite elem_of_difference, elem_of_singleton. by intros [_ []].
  - by inversion Ha; subst.
Qed.

Lemma Run_unregister_noop (client : ptr) (w : World) :
  client ∉ clients (hub w) → in_no_room client (voiceRooms (hub w)) →
  Run_unregister client w = Ok () w.
Proof.
  intros Hc Hr. unfold Run_unregister, get_hub. rewrite bind_unfold.
  rewrite decide_False by done. rewrite bind_unfold, ret_unfold.
  by apply leaveAllVoiceRooms_noop.
Qed.

(** C3.  Unregistering a connection twice, or running the leave-all
    cleanup twice, ends like doing it once; when the first run completes
    in a state [w1], the second run returns that very state: nothing is
    closed, removed or sent. *)
Theorem cleanup_idempotent (client : ptr) (w : World) :
  (Run_unregister client;; Run_unregister client) w = Run_unregister client w ∧
  (leaveAllVoiceRooms client;; leaveAllVoiceRooms client) w
    = leaveAllVoiceRooms client w ∧
  (∀ w1, Run_unregister client w = Ok () w1 → Run_unregister client w1 = Ok () w1) ∧
  (∀ w1, leaveAllVoiceRooms client w = Ok () w1 →
         leaveAllVoiceRooms client w1 = Ok () w1).
Proof.
  assert (∀ w1, Run_unregister client w = Ok () w1 →
                Run_unregister client w1 = Ok () w1) as Hu.
  { intros w1 [? ?]%Run_unregister_clears. by apply Run_unregister_noop. }
  assert (∀ w1, leaveAllVoiceRooms client w = Ok () w1 →
                leaveAllVoiceRooms client w1 = Ok () w1) as Hl.
  { intros w1 [_ ?]%leaveAllVoiceRooms_clears. by apply leaveAllVoiceRooms_noop. }
  repeat split; [| |done..].
  - rewrite bind_unfold. destruct (Run_unregister client w) as [[] w1| |] eqn:E; auto.
  - rewrite bind_unfold. destruct (leaveAllVoiceRooms client w) as [[] w1| |] eqn:E; auto.
Qed.

(** ** C7: channel-scoped broadcast *)

(** C7.  [BroadcastToChannel B] on a hub whose registered clients are
    live completes; it leaves alone every registered client whose viewed
    channel differs from [B], every client it touches is registered and
    views [B], and each of those gets one non-blocking send. *)
Theorem channel_isolation (B : string) (event : WSEvent) (w : World) :
  registered_ok w →
  ∃ w', BroadcastToChannel B event w = Ok () w' ∧ hub w' = hub w ∧
    (∀ c cl, c ∈ clients (hub w) → heap w !! c = Some cl → channelID cl ≠ B →
       heap w' !! c = Some cl) ∧
    (∀ c, heap w' !! c ≠ heap w !! c →
       ∃ cl, c ∈ clients (hub w) ∧ heap w !! c = Some cl ∧ channelID cl = B) ∧
    (∀ c cl, c ∈ clients (hub w) → heap w !! c = Some cl → channelID cl = B →
       heap w' !! c = Some (try_push event cl)).
Proof.
  intros Hreg. eexists. split; [by apply BroadcastToChannel_spec|].
  split; [done|]. simpl.
  assert (NoDup (filter (λ c, viewing (heap w) B c = true)
                   (elements (clients (hub w))))) as Hnd.
  { apply NoDup_filter, NoDup_elements. }
  repeat split.
  - intros c cl Hc Hcl Hne. rewrite sends_lookup_notin; [done|].
    intros [Hv _]%list_elem_of_filter. unfold viewing in Hv. rewrite Hcl in Hv.
    by apply String.eqb_eq in Hv.
  - intros c Hch. rewrite sends_lookup in Hch by done.
    case_decide as Hin; [|done].
    apply list_elem_of_filter in Hin as [Hv Hin%elem_of_elements].
    unfold viewing in Hv. destruct (heap w !! c) as [cl|] eqn:Hcl; [|done].
    exists cl. by apply String.eqb_eq in Hv.
  - intros c cl Hc Hcl HB. rewrite sends_lookup_in, Hcl; [done..|].
    apply list_elem_of_filter. split; [|by apply elem_of_elements].
    unfold viewing. rewrite Hcl. by apply String.eqb_eq.
Qed.

(** ** C4: the broadcast case of [Run] *)

Lemma filter_none {A : Type} (P : A → Prop) `{∀ x, Decision (P x)} (l : list A) :
  (∀ x, x ∈ l → ¬ P x) → filter P l = [].
Proof.
  induction l as [|x l IH]; intros Hn; [done|].
  rewrite filter_cons_False by (apply Hn; left).
  apply IH. intros y Hy. apply Hn. by right.
Qed.

Lemma filter_unique {A : Type} (P : A → Prop) `{∀ x, Decision (P x)}
    (l : list A) (x0 : A) :
  NoDup l → x0 ∈ l → P x0 → (∀ x, x ∈ l → P x → x = x0) → filter P l = [x0].
Proof.
  induction l as [|x l IH]; intros Hnd Hin HP Huniq.
  - by apply elem_of_nil in Hin.
  - apply NoDup_cons in Hnd as [Hx Hnd].
    destruct (decide (P x)) as [HPx|HnPx].
    + assert (x = x0) as -> by (apply Huniq; [left|done]).
      rewrite filter_cons_True by done. f_equal. apply filter_none.
      intros y Hy HPy. assert (y = x0) as -> by (apply Huniq; [by right|done]).
      done.
    + rewrite filter_cons_False by done.
      apply IH; [done| |done|].
      * apply elem_of_cons in Hin as [->|?]; done.
      * intros y Hy. apply Huniq. by right.
Qed.

Lemma broadcast_pass_from (message : WSEvent) (hp : gmap ptr Client) (h : Hub)
    (l l0 dead : list ptr) :
  NoDup (l0 ++ l) → (∀ c, c ∈ l → open_at hp c) →
  for_acc l dead (λ dead client,
      sent ← select_send client message;
      mret (if sent : bool then dead else (dead ++ [client])%list))
    (mkWorld (sends message l0 hp) h) =
  Ok (dead ++ filter (λ c, stalled hp c = true) l)%list
     (mkWorld (sends message (l0 ++ l) hp) h).
Proof.
  revert l0 dead. induction l as [|x l IH]; intros l0 dead Hnd Hopen.
  - simpl. by rewrite !app_nil_r.
  - destruct (Hopen x ltac:(left)) as (cl & Hcl & Hop).
    assert (x ∉ l0) as Hx.
    { apply NoDup_app in Hnd as (_ & Hd & _). intros Hin. apply (Hd x Hin). left. }
    simpl. rewrite bind_unfold, bind_unfold.
    rewrite (select_send_open x message _ cl);
      [|by simpl; rewrite sends_lookup_notin|done].
    simpl. rewrite <- sends_snoc. rewrite IH.
    + rewrite <- app_assoc. simpl. f_equal.
      destruct (has_room (send cl)) eqn:Hroom.
      * rewrite filter_cons_False; [done|].
        unfold stalled. rewrite Hcl, Hroom. simpl. congruence.
      * rewrite filter_cons_True; [by rewrite <- app_assoc|].
        unfold stalled. by rewrite Hcl, Hroom.
    + by rewrite <- app_assoc.
    + intros c Hc. apply Hopen. by right.
Qed.

Lemma broadcast_pass_spec (message : WSEvent) (w : World) :
  registered_ok w →
  broadcast_pass message w =
  Ok (filter (λ c, stalled (heap w) c = true) (elements (clients (hub w))))
     (mkWorld (sends message (elements (clients (hub w))) (heap w)) (hub w)).
Proof.
  intros Hreg. unfold broadcast_pass, get_hub. rewrite bind_unfold.
  pose proof (broadcast_pass_from message (heap w) (hub w)
                (elements (clients (hub w))) [] []) as H.
  simpl in H. unfold sends at 1 in H. simpl in H. rewrite world_eta in H.
  apply H; [apply NoDup_elements|].
  intros c Hc%elem_of_elements. by apply Hreg.
Qed.

Lemma close_send_open (c : ptr) (w : World) (cl : Client) :
  heap w !! c = Some cl → closed (send cl) = false →
  close_send c w = Ok () (mkWorld (<[c := shut cl]> (heap w)) (hub w)).
Proof.
  intros Hc Hop. unfold close_send, deref. by rewrite bind_unfold, Hc, Hop.
Qed.

Lemma Run_deliver_one_stalled (message : WSEvent) (c0 : ptr) (cl0 : Client) (w : World) :
  registered_ok w →
  c0 ∈ clients (hub w) → heap w !! c0 = Some cl0 →
  has_room (send cl0) = false →
  (∀ c cl, c ∈ clients (hub w) → heap w !! c = Some cl →
     has_room (send cl) = false → c = c0) →
  Run_deliver message w =
    Ok () (mkWorld
             (<[c0 := shut cl0]> (sends message (elements (clients (hub w))) (heap w)))
             (mkHub (clients (hub w) ∖ {[c0]}) (broadcast (hub w)) (voiceRooms (hub w)))).
Proof.
  intros Hreg Hin Hcl0 Hfull Huniq.
  unfold Run_deliver. rewrite bind_unfold, broadcast_pass_spec by done.
  rewrite (filter_unique _ _ c0).
  - unfold evict. simpl. unfold get_hub at 1. rewrite !bind_unfold. simpl.
    rewrite decide_True by done.
    destruct (Hreg c0 Hin) as (cl & Hcl & Hop). simplify_eq.
    rewrite bind_unfold.
    rewrite (close_send_open c0 _ cl0); [done| |done]. simpl.
    rewrite sends_lookup_in, Hcl0; [|apply NoDup_elements|by apply elem_of_elements].
    simpl. unfold try_push. by rewrite Hfull.
  - apply NoDup_elements.
  - by apply elem_of_elements.
  - unfold stalled. by rewrite Hcl0, Hfull.
  - intros c Hc%elem_of_elements Hst. unfold stalled in Hst.
    destruct (heap w !! c) as [cl|] eqn:Hcl; [|done].
    apply (Huniq c cl); [done..|]. by destruct (has_room (send cl)).
Qed.

(** C4.  The broadcast case of [Run] on a hub whose registered clients are
    live and of which exactly one, [c0], has a full queue: the message is
    appended once to the queue of every other registered client, [c0] is
    removed from the connection set and its queue is closed. *)
Theorem broadcast_evicts_stalled (message : WSEvent) (rest : list WSEvent)
    (c0 : ptr) (cl0 : Client) (w : World) :
  registered_ok w →
  buf (broadcast (hub w)) = message :: rest →
  c0 ∈ clients (hub w) → heap w !! c0 = Some cl0 →
  has_room (send cl0) = false →
  (∀ c cl, c ∈ clients (hub w) → c ≠ c0 → heap w !! c = Some cl →
     has_room (send cl) = true) →
  ∃ w', Run_broadcast w = Ok () w' ∧
    clients (hub w') = clients (hub w) ∖ {[c0]} ∧
    voiceRooms (hub w') = voiceRooms (hub w) ∧
    buf (broadcast (hub w')) = rest ∧
    (∀ c cl, c ∈ clients (hub w) → c ≠ c0 → heap w !! c = Some cl →
       heap w' !! c = Some (with_send cl (push message (send cl)))) ∧
    heap w' !! c0 = Some (shut cl0) ∧
    (∀ c, c ∉ clients (hub w) → heap w' !! c = heap w !! c).
Proof.
  intros Hreg Hbuf Hin Hcl0 Hfull Hroom.
  unfold Run_broadcast, recv_broadcast, get_hub. rewrite !bind_unfold. simpl.
  rewrite Hbuf. rewrite bind_unfold. simpl.
  erewrite (Run_deliver_one_stalled message c0 cl0); simpl; try done.
  - eexists. split; [done|]. simpl. repeat split.
    + intros c cl Hc Hne Hcl. rewrite lookup_insert_ne by done.
      rewrite sends_lookup_in, Hcl;
        [|apply NoDup_elements|by apply elem_of_elements].
      simpl. unfold try_push. by rewrite (Hroom c cl).
    + by rewrite lookup_insert_eq.
    + intros c Hc. rewrite lookup_insert_ne by (by intros <-).
      apply sends_lookup_notin. by rewrite elem_of_elements.
  - intros c cl Hc Hcl Hf. destruct (decide (c = c0)) as [|Hne]; [done|].
    rewrite (Hroom c cl) in Hf; done.
Qed.

(** ** C5 and C10: joining a room *)

Lemma Broadcast_ready (event : WSEvent) (w : World) :
  broadcast_ready w →
  Broadcast event w =
    Ok () (mkWorld (heap w)
             (mkHub (clients (hub w)) (push event (broadcast (hub w)))
                (voiceRooms (hub w)))).
Proof.
  intros [Hop Hroom]. unfold Broadcast, get_hub. rewrite bind_unfold.
  by rewrite Hop, Hroom.
Qed.

Lemma deref_Some (c : ptr) (w : World) (cl : Client) :
  heap w !! c = Some cl → deref c w = Ok cl w.
Proof. intros H. unfold deref. by rewrite H. Qed.

Lemma alter_as_sends m c hp : alter (try_push m) c hp = sends m [c] hp.
Proof. reflexivity. Qed.

Lemma open_at_alter m c hp c' :
  open_at hp c' → open_at (alter (try_push m) c hp) c'.
Proof. rewrite alter_as_sends. apply sends_open. Qed.

Lemma unmarshal_channel_frame (chID : string) :
  unmarshal_channel (Some (JObj [("channel_id", JStr chID)])) = Some chID.
Proof. reflexivity. Qed.

Lemma handle_join (data : RawMessage) (chID : string) (client : ptr) (cl : Client)
    (existing : list string) (w : World) :
  let room := default ∅ (voiceRooms (hub w) !! chID) in
  unmarshal_channel data = Some chID → chID ≠ "" →
  heap w !! client = Some cl → closed (send cl) = false →
  (∀ c, c ∈ room → c ≠ client → open_at (heap w) c) →
  broadcast_ready w →
  uids_of (heap w) (elements room) = Some existing →
  handleMessage client (mkRaw "voice.join" data) w =
    Ok () (after_join chID client existing (userID cl) w).
Proof.
  intros room Hdata Hne Hcl Hop Hmembers Hready Hex.
  unfold handleMessage. simpl. rewrite Hdata.
  apply String.eqb_neq in Hne. rewrite Hne.
  rewrite bind_unfold, joinVoiceRoom_spec. fold room. rewrite Hex.
  unfold sendEvent. rewrite !bind_unfold.
  rewrite (select_send_open client _ _ cl) by done. simpl.
  rewrite bind_unfold.
  rewrite (deref_Some client _ (try_push (evRoomState chID existing) cl))
    by (by simpl; rewrite lookup_alter_eq, Hcl).
  rewrite try_push_userID.
  rewrite bind_unfold, BroadcastToVoiceRoom_spec; simpl.
  - rewrite lookup_insert_eq. simpl.
    rewrite Broadcast_ready; [done|]. exact Hready.
  - rewrite lookup_insert_eq. simpl. intros c Hc Hex'.
    apply open_at_alter, Hmembers.
    + apply elem_of_union in Hc as [->%elem_of_singleton|?]; done.
    + by intros ->.
Qed.

Lemma after_join_joiner chID client existing uid w cl :
  heap w !! client = Some cl →
  heap (after_join chID client existing uid w) !! client
    = Some (try_push (evRoomState chID existing) cl).
Proof.
  intros Hcl. unfold after_join. simpl. rewrite sends_lookup_notin.
  - by rewrite lookup_alter_eq, Hcl.
  - intros [Hx _]%list_elem_of_filter. unfold not_excluded in Hx.
    by apply bool_decide_eq_true in Hx.
Qed.

#[local] Instance untouched_preorder (c : ptr) : PreOrder (untouched c).
Proof.
  split.
  - by intros w.
  - intros w1 w2 w3 H12 H23. unfold untouched in *. congruence.
Qed.

#[local] Hint Resolve untouched_preorder : respects.

Lemma untouched_select_send (c t : ptr) (data : WSEvent) :
  t ≠ c → respects (untouched c) (select_send t data).
Proof.
  intros Hne w a w' H. unfold select_send, deref in H. rewrite bind_unfold in H.
  destruct (heap w !! t) as [cl|] eqn:Hcl; [|done].
  destruct (closed (send cl)); [done|].
  destruct (has_room (send cl)).
  2: { rewrite ret_unfold in H. simplify_eq. reflexivity. }
  rewrite bind_unfold in H. simpl in H. rewrite ret_unfold in H. simplify_eq.
  unfold untouched. simpl. by rewrite lookup_insert_ne.
Qed.

Lemma untouched_set_broadcast (c : ptr) (q : chan) :
  respects (untouched c) (set_broadcast q).
Proof. intros w a w' H. unfold set_broadcast in H. by simplify_eq. Qed.

#[local] Hint Resolve untouched_set_broadcast : respects.

Lemma untouched_room_send (c : ptr) (chID : string) (event : WSEvent) :
  respects (untouched c) (BroadcastToVoiceRoom chID event (Some c)).
Proof.
  unfold BroadcastToVoiceRoom. apply respects_bind; [apply _|auto with respects|].
  intros rooms. destruct (rooms !! chID) as [room|]; [|auto with respects].
  apply respects_for_each; [apply _|]. intros t.
  case_decide as Ht; [auto with respects|].
  apply respects_bind; [apply _| |auto with respects].
  apply untouched_select_send. by intros ->.
Qed.

Lemma untouched_announce_join (chID : string) (c : ptr) :
  respects (untouched c) (announce_join chID c).
Proof.
  unfold announce_join. apply respects_bind; [apply _|auto with respects|].
  intros cl. apply respects_bind; [apply _|apply untouched_room_send|].
  intros _. unfold Broadcast. repeat respects_step.
Qed.

Lemma keeps_announce_join (chID : string) (c : ptr) :
  respects same_registry (announce_join chID c).
Proof. unfold announce_join. repeat respects_step. Qed.

(** The join handler up to the reply, and what is left to do. *)
Lemma handle_join_reply (data : RawMessage) (chID : string) (client : ptr)
    (cl : Client) (existing : list string) (w : World) :
  let rooms := voiceRooms (hub w) in
  let room := default ∅ (rooms !! chID) in
  unmarshal_channel data = Some chID → chID ≠ "" →
  heap w !! client = Some cl →
  uids_of (heap w) (elements room) = Some existing →
  handleMessage client (mkRaw "voice.join" data) w =
    if closed (send cl) then Panic
    else announce_join chID client
           (mkWorld (alter (try_push (evRoomState chID existing)) client (heap w))
              (hub (with_rooms w (<[chID := {[client]} ∪ room]> rooms)))).
Proof.
  intros rooms room Hdata Hne%String.eqb_neq Hcl Hex.
  unfold handleMessage. simpl. rewrite Hdata, Hne.
  rewrite bind_unfold, joinVoiceRoom_spec. fold rooms room. rewrite Hex.
  unfold sendEvent. rewrite !bind_unfold.
  destruct (closed (send cl)) eqn:Hop.
  - by rewrite (select_send_closed client _ _ cl).
  - by rewrite (select_send_open client _ _ cl).
Qed.

Lemma handle_join_outcome (data : RawMessage) (chID : string) (client : ptr)
    (cl : Client) (existing : list string) (w w' : World) :
  let rooms := voiceRooms (hub w) in
  let room := default ∅ (rooms !! chID) in
  unmarshal_channel data = Some chID → chID ≠ "" →
  heap w !! client = Some cl →
  uids_of (heap w) (elements room) = Some existing →
  handleMessage client (mkRaw "voice.join" data) w = Ok () w' →
  heap w' !! client = Some (try_push (evRoomState chID existing) cl) ∧
  voiceRooms (hub w') = <[chID := {[client]} ∪ room]> rooms.
Proof.
  intros rooms room Hdata Hne Hcl Hex Hrun.
  rewrite (handle_join_reply data chID client cl existing) in Hrun by done.
  destruct (closed (send cl)); [done|]. split.
  - apply untouched_announce_join in Hrun. rewrite Hrun. simpl.
    by rewrite lookup_alter_eq, Hcl.
  - apply keeps_announce_join in Hrun as [_ Hrooms]. by rewrite Hrooms.
Qed.

(** C5, as amended.  [joinVoiceRoom] returns exactly the user ids of the
    connections that were in the room just before the call; when the
    joiner was not one of them, these are the members of the room other
    than the joiner.  Whenever the join handler completes, the joiner's
    queue has got one non-blocking send of a [voice.room_state] whose
    [participants] is that list: the empty array for the first joiner,
    the id of the first joiner for the second.  The handler completes
    when the joiner's queue is open, the queues of the other members are
    open and the broadcast channel can take a message. *)
Theorem join_returns_prior_members (data : RawMessage) (chID : string)
    (client : ptr) (cl : Client) (w : World) :
  let rooms := voiceRooms (hub w) in
  let room := default ∅ (rooms !! chID) in
  unmarshal_channel data = Some chID → chID ≠ "" →
  heap w !! client = Some cl →
  (∀ c, c ∈ room → is_Some (heap w !! c)) →
  ∃ existing,
    let reply :=
      mkEvent "voice.room_state"
        (JObj [("channel_id", JStr chID);
               ("participants", JArr (JStr <$> existing))]) in
    joinVoiceRoom chID client w
      = Ok existing (with_rooms w (<[chID := {[client]} ∪ room]> rooms)) ∧
    uids_of (heap w) (elements room) = Some existing ∧
    (∀ u, u ∈ existing ↔ ∃ c cl', c ∈ room ∧ heap w !! c = Some cl' ∧ userID cl' = u) ∧
    List.length existing = size room ∧
    (client ∉ room →
       ∀ u, u ∈ existing ↔
            ∃ c cl', c ∈ {[client]} ∪ room ∧ c ≠ client ∧
                     heap w !! c = Some cl' ∧ userID cl' = u) ∧
    (rooms !! chID = None → existing = []) ∧
    (∀ c1 cl1, rooms !! chID = Some {[c1]} → heap w !! c1 = Some cl1 →
       existing = [userID cl1]) ∧
    (∀ w', handleMessage client (mkRaw "voice.join" data) w = Ok () w' →
       heap w' !! client = Some (try_push reply cl) ∧
       (has_room (send cl) = true →
          (λ cl', buf (send cl')) <$> heap w' !! client
            = Some (buf (send cl) ++ [reply])%list) ∧
       voiceRooms (hub w') = <[chID := {[client]} ∪ room]> rooms) ∧
    (closed (send cl) = false →
     (∀ c, c ∈ room → c ≠ client → open_at (heap w) c) → broadcast_ready w →
     ∃ w', handleMessage client (mkRaw "voice.join" data) w = Ok () w').
Proof.
  intros rooms room Hdata Hne Hcl Halloc.
  destruct (uids_of_total (heap w) (elements room)) as [existing Hex].
  { intros c Hc%elem_of_elements. by apply Halloc. }
  assert (∀ u, u ∈ existing ↔
               ∃ c cl', c ∈ room ∧ heap w !! c = Some cl' ∧ userID cl' = u) as Hmem.
  { intros u. rewrite (uids_of_elem _ _ _ u Hex). split.
    - intros (c & cl' & Hc%elem_of_elements & ?). eauto.
    - intros (c & cl' & Hc%elem_of_elements & ?). eauto. }
  exists existing. simpl.
  split.
  { rewrite joinVoiceRoom_spec. fold rooms room. by rewrite Hex. }
  split; [done|]. split; [done|].
  split; [by rewrite (uids_of_length _ _ _ Hex)|].
  split.
  { intros Hout u. rewrite Hmem. split.
    - intros (c & cl' & Hc & ? & ?). exists c, cl'.
      split; [apply elem_of_union; by right|]. split; [by intros ->|done].
    - intros (c & cl' & [Hc%elem_of_singleton|Hc]%elem_of_union & Hn & ? & ?);
        [done|]. by exists c, cl'. }
  split.
  { intros Hnone. subst room. rewrite Hnone in Hex. simpl in Hex.
    rewrite elements_empty in Hex. by injection Hex as <-. }
  split.
  { intros c1 cl1 Hone Hcl1. subst room. rewrite Hone in Hex. simpl in Hex.
    rewrite elements_singleton, uids_of_cons, Hcl1 in Hex. simpl in Hex.
    by injection Hex as <-. }
  split.
  { intros w' Hrun.
    destruct (handle_join_outcome data chID client cl existing w w')
      as [Hq Hrooms]; try done.
    split; [exact Hq|]. split; [|exact Hrooms].
    intros Hroom. rewrite Hq. simpl. unfold try_push, evRoomState.
    by rewrite Hroom. }
  intros Hop Hmembers Hready. eexists.
  by apply (handle_join data chID client cl existing w).
Qed.

(** C10, as amended.  A [voice.join] from a connection that is in the
    room already leaves the registry exactly as it was, and the list
    returned contains the joiner's own user id.  Whenever the handler
    completes, the joiner's queue has got one non-blocking send of a
    [voice.room_state] whose [participants] is that list, and the rooms
    are still as they were. *)
Theorem rejoin_lists_self (data : RawMessage) (chID : string) (client : ptr)
    (cl : Client) (room : gset ptr) (w : World) :
  unmarshal_channel data = Some chID → chID ≠ "" →
  voiceRooms (hub w) !! chID = Some room → client ∈ room →
  heap w !! client = Some cl →
  (∀ c, c ∈ room → is_Some (heap w !! c)) →
  ∃ existing,
    let reply :=
      mkEvent "voice.room_state"
        (JObj [("channel_id", JStr chID);
               ("participants", JArr (JStr <$> existing))]) in
    joinVoiceRoom chID client w = Ok existing w ∧
    uids_of (heap w) (elements room) = Some existing ∧
    userID cl ∈ existing ∧
    (∀ w', handleMessage client (mkRaw "voice.join" data) w = Ok () w' →
       voiceRooms (hub w') = voiceRooms (hub w) ∧
       heap w' !! client = Some (try_push reply cl) ∧
       (has_room (send cl) = true →
          (λ cl', buf (send cl')) <$> heap w' !! client
            = Some (buf (send cl) ++ [reply])%list)) ∧
    (closed (send cl) = false →
     (∀ c, c ∈ room → c ≠ client → open_at (heap w) c) → broadcast_ready w →
     ∃ w', handleMessage client (mkRaw "voice.join" data) w = Ok () w').
Proof.
  intros Hdata Hne Hr Hin Hcl Halloc.
  assert (default ∅ (voiceRooms (hub w) !! chID) = room) as Hdef by (by rewrite Hr).
  assert (<[chID := {[client]} ∪ room]> (voiceRooms (hub w)) = voiceRooms (hub w))
    as Hsame.
  { apply insert_id. rewrite Hr. f_equal. symmetry. by apply union_joiner_present. }
  destruct (uids_of_total (heap w) (elements room)) as [existing Hex].
  { intros c Hc%elem_of_elements. by apply Halloc. }
  exists existing. simpl.
  split.
  { rewrite joinVoiceRoom_spec, Hdef, Hex, Hsame. by rewrite with_rooms_id. }
  split; [done|].
  split.
  { apply (uids_of_elem _ _ _ _ Hex). exists client, cl.
    split; [by apply elem_of_elements|done]. }
  split.
  { intros w' Hrun.
    destruct (handle_join_outcome data chID client cl existing w w')
      as [Hq Hrooms]; rewrite ?Hdef; try done.
    rewrite Hdef, Hsame in Hrooms.
    split; [exact Hrooms|]. split; [exact Hq|].
    intros Hroom. rewrite Hq. simpl. unfold try_push, evRoomState.
    by rewrite Hroom. }
  intros Hop Hmembers Hready. eexists.
  apply (handle_join data chID client cl existing w); rewrite ?Hdef; done.
Qed.

(** ** C1 and C6: the signaling relay *)

Lemma is_signal_type_cases ty :
  is_signal_type ty = true → ty = "voice.offer" ∨ ty = "voice.answer" ∨ ty = "voice.ice".
Proof.
  unfold is_signal_type. rewrite !orb_true_iff, !String.eqb_eq. tauto.
Qed.

Lemma handle_signal (ty : string) (data : RawMessage) (d : signal) (c : ptr)
    (cl : Client) (same : bool) (w : World) :
  is_signal_type ty = true →
  unmarshal_signal data = Some d → sigTargetUserID d ≠ "" →
  heap w !! c = Some cl →
  AreInSameVoiceRoom (sigChannelID d) (userID cl) (sigTargetUserID d) w = Ok same w →
  handleMessage c (mkRaw ty data) w =
    if same
    then SendToUser (sigTargetUserID d)
           (evSignal ty (sigChannelID d) (userID cl) (sigPayload d)) w
    else Ok () w.
Proof.
  intros Hty Hdata Hne%String.eqb_neq Hcl Hsame.
  assert (handleMessage c (mkRaw ty data) =
          (cl ← deref c;
           same ← AreInSameVoiceRoom (sigChannelID d) (userID cl) (sigTargetUserID d);
           if negb same then mret ()
           else SendToUser (sigTargetUserID d)
                  (evSignal ty (sigChannelID d) (userID cl) (sigPayload d)))) as ->.
  { apply is_signal_type_cases in Hty as [->| [->| ->]];
      unfold handleMessage; simpl; by rewrite Hdata, Hne. }
  rewrite bind_unfold, (deref_Some c w cl), bind_unfold, Hsame by done.
  by destruct same.
Qed.

(** C1, as amended.  A signaling message that reaches the co-membership
    check is handed on exactly when the check succeeds.  When it fails the
    handler returns the world as it was, so nothing is sent to anybody,
    the sender included.  When it succeeds, every registered connection
    of the target gets one non-blocking send of the event (appended where
    the queue has room, dropped where it is full) and no other client
    changes.  Whenever some queue changes, the check had succeeded and
    the queue is that of a registered connection of the target. *)
Theorem relay_gated (ty : string) (data : RawMessage) (d : signal) (c : ptr)
    (cl : Client) (same : bool) (w : World) :
  let event :=
    mkEvent ty
      (JObj [("channel_id", JStr (sigChannelID d));
             ("from_user_id", JStr (userID cl));
             ("payload", match sigPayload d with Some v => v | None => JNull end)]) in
  let target t :=
    t ∈ clients (hub w) ∧ owned_by (heap w) (sigTargetUserID d) t = true in
  is_signal_type ty = true →
  unmarshal_signal data = Some d → sigTargetUserID d ≠ "" →
  heap w !! c = Some cl →
  registered_ok w →
  AreInSameVoiceRoom (sigChannelID d) (userID cl) (sigTargetUserID d) w = Ok same w →
  ∃ w', handleMessage c (mkRaw ty data) w = Ok () w' ∧ hub w' = hub w ∧
    (same = false → w' = w) ∧
    (same = true →
       ∀ t, heap w' !! t =
            if decide (target t) then try_push event <$> heap w !! t
            else heap w !! t) ∧
    (∀ t, heap w' !! t ≠ heap w !! t → same = true ∧ target t).
Proof.
  intros event target Hty Hdata Hne Hcl Hreg Hsame.
  rewrite (handle_signal ty data d c cl same) by done.
  destruct same.
  - rewrite SendToUser_spec by done. eexists. split; [done|].
    split; [done|]. split; [done|]. simpl.
    assert (∀ t, t ∈ filter (λ c0, owned_by (heap w) (sigTargetUserID d) c0 = true)
                       (elements (clients (hub w))) ↔ target t) as Hfilter.
    { intros t. rewrite list_elem_of_filter, elem_of_elements. unfold target. tauto. }
    split.
    + intros _ t. rewrite sends_lookup by apply NoDup_filter, NoDup_elements.
      destruct (decide (target t)) as [Ht|Ht].
      * rewrite decide_True by (by apply Hfilter). done.
      * rewrite decide_False by (by rewrite Hfilter). done.
    + intros t Ht. rewrite sends_lookup in Ht by apply NoDup_filter, NoDup_elements.
      case_decide as Hin; [|done]. split; [done|]. by apply Hfilter.
  - exists w. split; [done|]. split; [done|]. split; [done|]. split; [done|].
    intros t Ht. done.
Qed.


(** ** C9: media state *)

(** C9, as amended.  In a room whose other members have open queues, a
    [voice.media_state] with a non-empty [channel_id] gives one
    non-blocking send, with the sender's user id as [from_user_id], to
    every member of that room other than the sending connection
    (appended where the queue has room, dropped where it is full), and
    touches nobody else.  Nothing is asked of the sender: it need not be
    a member of the room. *)
Theorem media_state_fanout (data : RawMessage) (d : mediaState) (c : ptr)
    (cl : Client) (w : World) :
  let room := default ∅ (voiceRooms (hub w) !! msChannelID d) in
  let event :=
    mkEvent "voice.media_state"
      (JObj [("cam_enabled", JBool (msCamEnabled d));
             ("channel_id", JStr (msChannelID d));
             ("from_user_id", JStr (userID cl));
             ("screen_sharing", JBool (msScreenSharing d))]) in
  unmarshal_mediaState data = Some d → msChannelID d ≠ "" →
  heap w !! c = Some cl →
  (∀ t, t ∈ room → t ≠ c → open_at (heap w) t) →
  ∃ w', handleMessage c (mkRaw "voice.media_state" data) w = Ok () w' ∧
    hub w' = hub w ∧
    (∀ t tcl, t ∈ room → t ≠ c → heap w !! t = Some tcl →
       heap w' !! t = Some (try_push event tcl) ∧
       (has_room (send tcl) = true →
          buf (send (try_push event tcl)) = (buf (send tcl) ++ [event])%list) ∧
       (has_room (send tcl) = false → try_push event tcl = tcl)) ∧
    (∀ t, ¬ (t ∈ room ∧ t ≠ c) → heap w' !! t = heap w !! t).
Proof.
  intros room event Hdata Hne%String.eqb_neq Hcl Hopen.
  unfold handleMessage. simpl. rewrite Hdata, Hne.
  rewrite bind_unfold, (deref_Some c w cl) by done.
  rewrite BroadcastToVoiceRoom_spec.
  - eexists. split; [done|]. split; [done|]. simpl. fold room.
    assert (∀ t, t ∈ filter (λ c0, not_excluded (Some c) c0 = true) (elements room)
                 ↔ t ∈ room ∧ t ≠ c) as Hfilter.
    { intros t. rewrite list_elem_of_filter, elem_of_elements.
      unfold not_excluded. rewrite bool_decide_eq_true. split.
      - intros [Hx ?]. split; [done|]. by intros ->.
      - intros [? Hx]. split; [|done]. by intros [= ->]. }
    split.
    + intros t tcl Ht Htc Htcl. split; [|split].
      * rewrite sends_lookup_in, Htcl; [done|apply NoDup_filter, NoDup_elements|].
        by apply Hfilter.
      * intros Hroom. unfold try_push. by rewrite Hroom.
      * intros Hroom. unfold try_push. by rewrite Hroom.
    + intros t Ht. apply sends_lookup_notin. by rewrite Hfilter.
  - intros t Ht Hx. apply Hopen; [done|]. by intros ->.
Qed.

(** ** C8: frames that are dropped *)


Lemma unknown_type_rejected (evt : rawClientMessage) :
  known_type (rawType evt) = false → rejected evt = true.
Proof.
  unfold known_type, rejected. rewrite !orb_false_iff.
  intros [[[[[-> ->] ->] ->] ->] ->]. done.
Qed.

Lemma not_json_discarded : discarded NotJSON = true.
Proof. reflexivity. Qed.

Lemma unknown_type_discarded (msg : inbound) (evt : rawClientMessage) :
  unmarshal_rawClientMessage msg = Some evt → known_type (rawType evt) = false →
  discarded msg = true.
Proof. intros H Hty. unfold discarded. rewrite H. by apply unknown_type_rejected. Qed.


(** ** What the hub maintains *)

Lemma respects_elim {A : Type} (R : World → World → Prop) (m : M A) w a w' :
  respects R m → m w = Ok a w' → R w w'.
Proof. intros Hm H. by eapply Hm. Qed.

Lemma tidy_same_rooms (w w' : World) :
  voiceRooms (hub w') = voiceRooms (hub w) → tidy w w'.
Proof. intros Heq Hinv. by rewrite Heq. Qed.

Lemma tidy_store c cl : respects tidy (store c cl).
Proof. intros w a w' H. unfold store in H. simplify_eq. by apply tidy_same_rooms. Qed.

Lemma tidy_set_clients s : respects tidy (set_clients s).
Proof.
  intros w a w' H. unfold set_clients in H. simplify_eq. by apply tidy_same_rooms.
Qed.

Lemma tidy_set_broadcast q : respects tidy (set_broadcast q).
Proof.
  intros w a w' H. unfold set_broadcast in H. simplify_eq. by apply tidy_same_rooms.
Qed.

Lemma tidy_joinVoiceRoom chID client : respects tidy (joinVoiceRoom chID client).
Proof.
  intros w a w'. rewrite joinVoiceRoom_spec. destruct (uids_of _ _); [|done].
  intros [= _ <-] Hinv. simpl. by apply no_empty_room_join.
Qed.

Lemma tidy_leaveVoiceRoom chID client : respects tidy (leaveVoiceRoom chID client).
Proof.
  intros w a w'. rewrite leaveVoiceRoom_spec.
  destruct (voiceRooms (hub w) !! chID) as [room|]; [|by intros [= _ <-]].
  destruct (decide (client ∈ room)); intros [= _ <-] Hinv; [|done]. simpl.
  by apply no_empty_room_without.
Qed.

Lemma tidy_leaveAll_scan client : respects tidy (leaveAll_scan client).
Proof.
  intros w a w'. rewrite leaveAll_scan_spec. simpl. intros [= _ <-] Hinv. simpl.
  by apply (no_empty_room_scan client _ ([], voiceRooms (hub w))).
Qed.

#[local] Hint Resolve tidy_store tidy_set_clients tidy_set_broadcast
  tidy_joinVoiceRoom tidy_leaveVoiceRoom tidy_leaveAll_scan : respects.

Lemma tidy_hub_step (w w' : World) : hub_step w w' → tidy w w'.
Proof.
  intros [c uid _ H|c evt H|c m H|c H|H|event H|chID event H];
    (eapply respects_elim; [|exact H]); repeat respects_step.
Qed.

Lemma calm_live {A : Type} (m : M A) :
  respects calm m → respects (keeping registered_ok) m.
Proof. apply respects_weaken. intros w w' H Hreg. by eapply registered_ok_calm. Qed.

Lemma calm_writePump_next c : respects calm (writePump_next c).
Proof.
  intros w a w' H. unfold writePump_next, deref in H. rewrite bind_unfold in H.
  destruct (heap w !! c) as [cl|] eqn:Hcl; [|done].
  destruct (buf (send cl)) as [|m rest].
  { destruct (closed (send cl)); [|done]. rewrite ret_unfold in H.
    simplify_eq. reflexivity. }
  rewrite bind_unfold in H. simpl in H. rewrite ret_unfold in H. simplify_eq.
  split; [done|]. simpl.
  intros c' (cl' & Hcl' & Hop'). destruct (decide (c' = c)) as [->|Hne].
  - eexists. rewrite lookup_insert_eq. split; [done|]. by simplify_eq.
  - exists cl'. by rewrite lookup_insert_ne.
Qed.

Lemma calm_leaveAllVoiceRooms c : respects calm (leaveAllVoiceRooms c).
Proof. repeat respects_step. Qed.

Lemma calm_recv_broadcast : respects calm recv_broadcast.
Proof. repeat respects_step. Qed.

Lemma calm_broadcast_pass message : respects calm (broadcast_pass message).
Proof. repeat respects_step. Qed.

Lemma calm_Broadcast event : respects calm (Broadcast event).
Proof. repeat respects_step. Qed.

Lemma calm_BroadcastToChannel chID event : respects calm (BroadcastToChannel chID event).
Proof. repeat respects_step. Qed.

(** Closing the queue of a client and dropping it from the connection
    set, in either order, keeps the others live. *)
Lemma live_without (c : ptr) (cl : Client) (w : World) :
  registered_ok w →
  registered_ok
    (mkWorld (<[c := cl]> (heap w))
       (mkHub (clients (hub w) ∖ {[c]}) (broadcast (hub w)) (voiceRooms (hub w)))).
Proof.
  intros Hreg c'. simpl. rewrite elem_of_difference, elem_of_singleton.
  intros [Hin Hne]. destruct (Hreg c' Hin) as (cl' & Hcl' & Hop).
  exists cl'. by rewrite lookup_insert_ne.
Qed.

Lemma live_evict dead : respects (keeping registered_ok) (evict dead).
Proof.
  unfold evict. destruct (0 <? List.length dead)%nat; [|by repeat respects_step].
  apply respects_for_each; [apply _|]. intros c w a w' H Hreg.
  unfold get_hub in H. rewrite bind_unfold in H.
  destruct (decide (c ∈ clients (hub w))) as [Hin|Hout].
  - destruct (Hreg c Hin) as (cl & Hcl & Hop).
    rewrite bind_unfold, (close_send_open c w cl) in H by done.
    rewrite bind_unfold in H. simpl in H. unfold set_clients in H. simpl in H.
    simplify_eq. by apply live_without.
  - rewrite ret_unfold in H. by simplify_eq.
Qed.

Lemma live_Run_unregister c : respects (keeping registered_ok) (Run_unregister c).
Proof.
  intros w a w' H Hreg. unfold Run_unregister, get_hub in H.
  rewrite bind_unfold in H. apply bind_inv in H as (u & w1 & H1 & H2).
  assert (registered_ok w1) as Hreg1.
  { destruct (decide (c ∈ clients (hub w))) as [Hin|Hout].
    - destruct (Hreg c Hin) as (cl & Hcl & Hop).
      rewrite bind_unfold in H1. simpl in H1.
      rewrite (close_send_open c _ cl) in H1 by done. simpl in H1.
      simplify_eq. by apply live_without.
    - rewrite ret_unfold in H1. by simplify_eq. }
  by apply (respects_elim _ _ _ _ _ (calm_live _ (calm_leaveAllVoiceRooms c)) H2).
Qed.

Lemma live_Run_broadcast : respects (keeping registered_ok) Run_broadcast.
Proof.
  unfold Run_broadcast, Run_deliver.
  apply respects_bind; [apply _|apply calm_live, calm_recv_broadcast|intros message].
  apply respects_bind; [apply _|apply calm_live, calm_broadcast_pass|intros dead].
  apply live_evict.
Qed.

Lemma live_WebSocket (c : ptr) (uid : string) (w w' : World) :
  heap w !! c = None → WebSocket c uid w = Ok () w' →
  registered_ok w → registered_ok w'.
Proof.
  intros Hfresh H Hreg. unfold WebSocket, Run_register, store, get_hub, set_clients in H.
  rewrite !bind_unfold in H. simpl in H. simplify_eq.
  intros c'. simpl. rewrite elem_of_union, elem_of_singleton. intros [->|Hin].
  - eexists. rewrite lookup_insert_eq. by split.
  - destruct (Hreg c' Hin) as (cl' & Hcl' & Hop). exists cl'.
    rewrite lookup_insert_ne; [done|]. intros ->. congruence.
Qed.

Lemma live_hub_step (w w' : World) :
  hub_step w w' → registered_ok w → registered_ok w'.
Proof.
  intros [c uid Hfresh H|c evt H|c m H|c H|H|event H|chID event H].
  - by apply (live_WebSocket c uid).
  - by apply (respects_elim _ _ _ _ _ (calm_live _ (calm_handleMessage c evt)) H).
  - by apply (respects_elim _ _ _ _ _ (calm_live _ (calm_writePump_next c)) H).
  - by apply (respects_elim _ _ _ _ _ (live_Run_unregister c) H).
  - by apply (respects_elim _ _ _ _ _ live_Run_broadcast H).
  - by apply (respects_elim _ _ _ _ _ (calm_live _ (calm_Broadcast event)) H).
  - by apply (respects_elim _ _ _ _ _ (calm_live _ (calm_BroadcastToChannel chID event)) H).
Qed.

(** Whatever the system does from start-up on, every registered client is
    allocated with an open queue and no room of the registry is empty. *)
Lemma hub_inv_start : hub_inv w_start.
Proof.
  split.
  - intros c Hc. by apply not_elem_of_empty in Hc.
  - apply no_empty_room_empty.
Qed.

Lemma hub_inv_step (w w' : World) : hub_step w w' → hub_inv w → hub_inv w'.
Proof.
  intros Hstep [Hreg Hrooms]. split.
  - by eapply live_hub_step.
  - by eapply tidy_hub_step.
Qed.

Lemma hub_inv_always (w : World) : rtc hub_step w_start w → hub_inv w.
Proof.
  revert w. apply rtc_ind_r.
  - apply hub_inv_start.
  - intros w1 w2 _ Hstep IH. by eapply hub_inv_step.
Qed.

(** ** Runs from start-up *)

Lemma landed_Ok {A : Type} (r : result A) (w' : World) :
  landed r = Some w' → ∃ a, r = Ok a w'.
Proof. destruct r as [a w1| |]; [|done..]. intros [= ->]. by exists a. Qed.

Lemma landed_unit (r : result unit) (w' : World) : landed r = Some w' → r = Ok () w'.
Proof. intros [[] ->]%landed_Ok. done. Qed.

Lemma run_move_step (mv : move) (w w' : World) : run_move mv w = Some w' → hub_step w w'.
Proof.
  destruct mv as [c uid|c evt|c|c| |event|chID event]; unfold run_move.
  - destruct (heap w !! c) eqn:Hc; [done|]. intros H%landed_unit.
    by eapply step_connect.
  - intros H%landed_unit. by eapply step_message.
  - intros [m H]%landed_Ok. by eapply step_write.
  - intros H%landed_unit. by eapply step_unregister.
  - intros H%landed_unit. by eapply step_broadcast.
  - intros H%landed_unit. by eapply step_Broadcast.
  - intros H%landed_unit. by eapply step_BroadcastToChannel.
Qed.

Lemma play_reaches (mvs : list move) (w w' : World) :
  play mvs w = Some w' → rtc hub_step w w'.
Proof.
  revert w. induction mvs as [|mv mvs IH]; intros w; cbn [play].
  - intros [= ->]. reflexivity.
  - destruct (run_move mv w) as [w1|] eqn:Hmv; [|done]. intros Hrest.
    eapply rtc_l; [by eapply run_move_step|by apply IH].
Qed.

(** ** The theorems at work on small hubs *)

Lemma heap3_open (c : ptr) : c ∈ ({[1; 2; 3]} : gset ptr) → open_at heap3 c.
Proof.
  rewrite !elem_of_union, !elem_of_singleton.
  intros [[->| ->]| ->]; eexists; split; reflexivity.
Qed.

Lemma w_call_registered : registered_ok w_call.
Proof. intros c Hc. by apply heap3_open. Qed.

Lemma w_call_alloc : members_alloc w_call.
Proof.
  intros chID room c Hroom. simpl in Hroom.
  apply lookup_singleton_Some in Hroom as [_ <-].
  rewrite elem_of_union, !elem_of_singleton. intros [->| ->]; eexists; reflexivity.
Qed.

Lemma w_two_reachable : rtc hub_step w_start w_two.
Proof. apply (play_reaches moves_two). vm_compute. reflexivity. Qed.

Lemma w_crowded_reachable : rtc hub_step w_start w_crowded.
Proof. apply (play_reaches moves_crowded). vm_compute. reflexivity. Qed.

Lemma w_waiting_reachable : rtc hub_step w_start w_waiting.
Proof. apply (play_reaches moves_waiting). vm_compute. reflexivity. Qed.

Lemma w_flooded_reachable : rtc hub_step w_start w_flooded.
Proof. apply (play_reaches moves_flood). vm_compute. reflexivity. Qed.

Lemma relay_gated_witness :
  (∃ w', handleMessage 1 (mkRaw "voice.offer" (Some (JObj (offer_members "U2")))) w_call
           = Ok () w' ∧
     queue_of w' 2 =
       Some [mkEvent "voice.offer"
               (JObj [("channel_id", JStr "general-voice");
                      ("from_user_id", JStr "U1"); ("payload", sdp)])] ∧
     queue_of w' 1 = Some [] ∧ queue_of w' 3 = Some []) ∧
  handleMessage 3 (mkRaw "voice.offer" (Some (JObj (offer_members "U1")))) w_call
    = Ok () w_call.
Proof.
  split.
  - destruct (relay_gated "voice.offer" (Some (JObj (offer_members "U2")))
                (mkSignal "general-voice" "U2" (Some sdp)) 1 (new_client "U1")
                true w_call) as (w' & H & _ & _ & Hsent & _).
    + reflexivity.
    + reflexivity.
    + discriminate.
    + reflexivity.
    + apply w_call_registered.
    + vm_compute. reflexivity.
    + exists w'. split; [exact H|]. unfold queue_of.
      rewrite !Hsent by done. split; [|split].
      * rewrite decide_True; [reflexivity|]. split; [compute_done|reflexivity].
      * rewrite decide_False; [reflexivity|]. by intros [_ ?].
      * rewrite decide_False; [reflexivity|]. by intros [_ ?].
  - destruct (relay_gated "voice.offer" (Some (JObj (offer_members "U1")))
                (mkSignal "general-voice" "U1" (Some sdp)) 3 (new_client "U3")
                false w_call) as (w' & H & _ & Hdrop & _).
    + reflexivity.
    + reflexivity.
    + discriminate.
    + reflexivity.
    + apply w_call_registered.
    + vm_compute. reflexivity.
    + rewrite H. f_equal. by apply Hdrop.
Defined.

Lemma room_emptiness_invariant_witness :
  no_empty_room (voiceRooms (hub w_after_ops)) ∧
  (∀ snap w'', GetVoiceRoomSnapshot w_after_ops = Ok snap w'' →
     ∀ chID uids, snap !! chID = Some uids → uids ≠ []) ∧
  (members_alloc w_after_ops →
     ∃ snap, GetVoiceRoomSnapshot w_after_ops = Ok snap w_after_ops).
Proof.
  apply (room_emptiness_invariant ops_demo w_idle w_after_ops).
  - apply no_empty_room_empty.
  - vm_compute. reflexivity.
Defined.

Lemma cleanup_idempotent_witness :
  Run_unregister 1 w_call = Ok () w_unregistered ∧
  Run_unregister 1 w_unregistered = Ok () w_unregistered ∧
  queue_of w_unregistered 2 = Some [evVoiceLeft "general-voice" "U1"].
Proof.
  assert (Run_unregister 1 w_call = Ok () w_unregistered) as H
    by (vm_compute; reflexivity).
  split; [exact H|]. split.
  - exact (proj1 (proj2 (proj2 (cleanup_idempotent 1 w_call))) w_unregistered H).
  - vm_compute. reflexivity.
Defined.

Lemma w_stalled_registered : registered_ok w_stalled.
Proof.
  intros c. simpl. rewrite !elem_of_union, !elem_of_singleton.
  intros [[->| ->]| ->]; eexists; split; reflexivity.
Qed.

Lemma broadcast_evicts_stalled_witness :
  ∃ w', Run_broadcast w_stalled = Ok () w' ∧
    clients (hub w') = {[1; 2; 3]} ∖ {[3]} ∧
    queue_of w' 1 = Some [some_event] ∧
    queue_of w' 2 = Some [some_event] ∧
    (λ cl, closed (send cl)) <$> heap w' !! 3 = Some true.
Proof.
  destruct (broadcast_evicts_stalled some_event [] 3
              (mkClient (mkChan (replicate 256 some_event) 256 false) "U3" "")
              w_stalled) as (w' & H & Hc & _ & _ & Hothers & H3 & _).
  - apply w_stalled_registered.
  - reflexivity.
  - simpl. rewrite !elem_of_union, !elem_of_singleton. by right.
  - reflexivity.
  - reflexivity.
  - intros c cl. simpl. rewrite !elem_of_union, !elem_of_singleton.
    intros [[->| ->]| ->] Hne; [| |done]; intros [= <-]; reflexivity.
  - exists w'. split; [exact H|]. split; [exact Hc|]. unfold queue_of.
    rewrite (Hothers 1 (new_client "U1")), (Hothers 2 (new_client "U2")), H3;
      try done; simpl; rewrite !elem_of_union, !elem_of_singleton; auto.
Defined.

Lemma join_returns_prior_members_witness :
  (∃ w', handleMessage 1 (frame_join "general-voice") w_idle = Ok () w' ∧
     queue_of w' 1 =
       Some [mkEvent "voice.room_state"
               (JObj [("channel_id", JStr "general-voice");
                      ("participants", JArr [])])]) ∧
  joinVoiceRoom "general-voice" 2 w_alone = Ok ["U1"] w_call ∧
  ∃ w', handleMessage 2 (frame_join "general-voice") w_alone = Ok () w' ∧
    queue_of w' 2 =
      Some [mkEvent "voice.room_state"
              (JObj [("channel_id", JStr "general-voice");
                     ("participants", JArr [JStr "U1"])])].
Proof.
  split.
  - destruct (join_returns_prior_members (channel_data "general-voice")
                "general-voice" 1 (new_client "U1") w_idle)
      as (existing & _ & _ & _ & _ & _ & Hfirst & _ & Hreply & Hruns).
    + reflexivity.
    + discriminate.
    + reflexivity.
    + simpl. rewrite lookup_empty. simpl. by intros c ?%elem_of_empty.
    + assert (existing = []) as -> by (by apply Hfirst).
      destruct Hruns as [w' Hrun].
      * reflexivity.
      * simpl. rewrite lookup_empty. simpl. by intros c ?%elem_of_empty.
      * split; reflexivity.
      * exists w'. split; [exact Hrun|].
        destruct (Hreply w' Hrun) as (_ & Hq & _). unfold queue_of.
        rewrite Hq; reflexivity.
  - destruct (join_returns_prior_members (channel_data "general-voice")
                "general-voice" 2 (new_client "U2") w_alone)
      as (existing & Hjoin & _ & _ & _ & _ & _ & Hsecond & Hreply & Hruns).
    + reflexivity.
    + discriminate.
    + reflexivity.
    + simpl. rewrite lookup_singleton_eq. simpl. intros c ->%elem_of_singleton.
      by eexists.
    + assert (existing = ["U1"]) as -> by (by apply (Hsecond 1 (new_client "U1"))).
      split; [rewrite Hjoin; vm_compute; reflexivity|].
      destruct Hruns as [w' Hrun].
      * reflexivity.
      * simpl. rewrite lookup_singleton_eq. simpl.
        intros c ->%elem_of_singleton _. eexists. split; reflexivity.
      * split; reflexivity.
      * exists w'. split; [exact Hrun|].
        destruct (Hreply w' Hrun) as (_ & Hq & _). unfold queue_of.
        rewrite Hq; reflexivity.
Defined.


Lemma w_viewing_registered : registered_ok w_viewing.
Proof.
  intros c. simpl. rewrite !elem_of_union, !elem_of_singleton.
  intros [->| ->]; eexists; split; reflexivity.
Qed.

Lemma channel_isolation_witness :
  ∃ w', BroadcastToChannel "B" some_event w_viewing = Ok () w' ∧
    queue_of w' 1 = Some [] ∧ queue_of w' 2 = Some [some_event].
Proof.
  destruct (channel_isolation "B" some_event w_viewing w_viewing_registered)
    as (w' & H & _ & Hother & _ & Hsame).
  exists w'. split; [exact H|]. unfold queue_of.
  rewrite (Hother 1 (mkClient (make_chan 256) "U1" "A")),
          (Hsame 2 (mkClient (make_chan 256) "U2" "B")); try done;
    simpl; rewrite !elem_of_union, !elem_of_singleton; auto.
Defined.


Lemma media_state_fanout_witness :
  (3 ∉ ({[1; 2]} : gset ptr)) ∧
  ∃ w', handleMessage 3 (mkRaw "voice.media_state" media_data) w_call = Ok () w' ∧
    queue_of w' 1 =
      Some [mkEvent "voice.media_state"
              (JObj [("cam_enabled", JBool true); ("channel_id", JStr "general-voice");
                     ("from_user_id", JStr "U3"); ("screen_sharing", JBool false)])] ∧
    queue_of w' 2 = queue_of w' 1 ∧
    queue_of w' 3 = Some [].
Proof.
  split.
  { rewrite elem_of_union, !elem_of_singleton. by intros [|]. }
  destruct (media_state_fanout media_data (mkMediaState "general-voice" true false)
              3 (new_client "U3") w_call) as (w' & H & _ & Hin & Hout).
  - reflexivity.
  - discriminate.
  - reflexivity.
  - simpl. rewrite lookup_singleton_eq. simpl. intros t Ht _.
    apply heap3_open. apply elem_of_union. by left.
  - simpl in Hin, Hout. rewrite lookup_singleton_eq in Hin, Hout. simpl in Hin, Hout.
    exists w'. split; [exact H|]. unfold queue_of.
    destruct (Hin 1 (new_client "U1")) as [-> _]; [compute_done|done|reflexivity|].
    destruct (Hin 2 (new_client "U2")) as [-> _]; [compute_done|done|reflexivity|].
    rewrite (Hout 3); [done|]. intros [Hin3 _]. revert Hin3. compute_done.
Defined.

Lemma rejoin_lists_self_witness :
  joinVoiceRoom "general-voice" 1 w_alone = Ok ["U1"] w_alone ∧
  ∃ w', handleMessage 1 (frame_join "general-voice") w_alone = Ok () w' ∧
    voiceRooms (hub w') = voiceRooms (hub w_alone) ∧
    queue_of w' 1 =
      Some [mkEvent "voice.room_state"
              (JObj [("channel_id", JStr "general-voice");
                     ("participants", JArr [JStr "U1"])])].
Proof.
  destruct (rejoin_lists_self (channel_data "general-voice") "general-voice" 1
              (new_client "U1") {[1]} w_alone)
    as (existing & Hjoin & Hex & _ & Hreply & Hruns).
  - reflexivity.
  - discriminate.
  - reflexivity.
  - by apply elem_of_singleton.
  - reflexivity.
  - intros c ->%elem_of_singleton. by eexists.
  - assert (existing = ["U1"]) as ->.
    { rewrite elements_singleton in Hex. vm_compute in Hex. by injection Hex. }
    split; [exact Hjoin|].
    destruct Hruns as [w' Hrun].
    + reflexivity.
    + intros c ->%elem_of_singleton Hne. done.
    + split; reflexivity.
    + exists w'. split; [exact Hrun|].
      destruct (Hreply w' Hrun) as (Hrooms & _ & Hq).
      split; [exact Hrooms|]. unfold queue_of. rewrite Hq; reflexivity.
Defined.

(** A key written with the long s is matched with its tag, as
    [encoding/json] does. *)
Lemma long_s_key_decodes :
  unmarshal_signal
    (Some (JObj [("channel_id", JStr "general-voice"); ("target_uſer_id", JStr "U2")]))
  = Some (mkSignal "general-voice" "U2" None).
Proof. vm_compute. reflexivity. Qed.

(** ** Where the claims, as they are stated, fail *)

(** C1, as stated, fails: the check succeeds and yet nothing is forwarded.
    In a state the hub can reach, users U1 and U2 are in the same room,
    the one connection of U2 is registered and its queue is full; an offer
    from U1 to U2 passes the check and leaves the world as it was. *)
Lemma authorized_relay_not_forwarded :
  rtc hub_step w_start w_crowded ∧
  (2 ∈ clients (hub w_crowded)) ∧
  userID <$> heap w_crowded !! 2 = Some "U2" ∧
  AreInSameVoiceRoom "general-voice" "U1" "U2" w_crowded = Ok true w_crowded ∧
  handleMessage 1 (mkRaw "voice.offer" (Some (JObj (offer_members "U2")))) w_crowded
    = Ok () w_crowded.
Proof.
  split; [apply w_crowded_reachable|]. split; [compute_done|].
  repeat split; vm_compute; reflexivity.
Qed.

(** C5, as stated, fails twice.  The joiner is not always left out of the
    list: connection 1 of user U1, in the room already, joins again and
    the list returned holds U1.  And the second joiner does not always
    receive the first joiner's id: connection 2, whose queue is full,
    joins the room of connection 1; the handler completes and the queue
    of connection 2 is as it was, without a [voice.room_state]. *)
Lemma join_list_or_reply_fails :
  rtc hub_step w_start w_two ∧
  userID <$> heap w_two !! 1 = Some "U1" ∧
  joinVoiceRoom "general-voice" 1 w_two = Ok ["U2"; "U1"] w_two ∧
  rtc hub_step w_start w_waiting ∧
  voiceRooms (hub w_waiting) !! "general-voice" = Some {[1]} ∧
  (2 ∈ clients (hub w_waiting)) ∧
  ∃ w', handleMessage 2 (frame_join "general-voice") w_waiting = Ok () w' ∧
    queue_of w' 2 = queue_of w_waiting 2.
Proof.
  split; [apply w_two_reachable|]. split; [reflexivity|].
  split; [vm_compute; reflexivity|].
  split; [apply w_waiting_reachable|]. split; [vm_compute; reflexivity|].
  split; [compute_done|].
  exists (world_of (handleMessage 2 (frame_join "general-voice") w_waiting) w_waiting).
  split; vm_compute; reflexivity.
Qed.



(** C9, as stated, fails.  In a state the hub can reach, connection 2 is
    in the room and its queue is full: a media state from connection 1
    leaves the world as it was, so this member of the room gets nothing.
    In another such state the only member of the room is a connection
    that was evicted, its queue closed: a media state from connection 2
    crashes on the send to it. *)
Lemma media_state_not_fanned_out :
  rtc hub_step w_start w_crowded ∧
  voiceRooms (hub w_crowded) !! "general-voice" = Some {[1; 2]} ∧
  handleMessage 1 (mkRaw "voice.media_state" media_data) w_crowded = Ok () w_crowded ∧
  rtc hub_step w_start w_flooded ∧
  voiceRooms (hub w_flooded) !! "general-voice" = Some {[1]} ∧
  handleMessage 2 (mkRaw "voice.media_state" media_data) w_flooded = Panic.
Proof.
  split; [apply w_crowded_reachable|].
  do 2 (split; [vm_compute; reflexivity|]).
  split; [apply w_flooded_reachable|].
  split; vm_compute; reflexivity.
Qed.

(** C10, as stated, fails: the list is not always sent back.  In a state
    the hub can reach, connection 2 is in the room and its queue is full;
    it joins again, the handler completes, and its queue is as it was. *)
Lemma rejoin_reply_dropped :
  rtc hub_step w_start w_crowded ∧
  voiceRooms (hub w_crowded) !! "general-voice" = Some {[1; 2]} ∧
  (∃ existing, joinVoiceRoom "general-voice" 2 w_crowded = Ok existing w_crowded ∧
     "U2" ∈ existing) ∧
  ∃ w', handleMessage 2 (frame_join "general-voice") w_crowded = Ok () w' ∧
    queue_of w' 2 = queue_of w_crowded 2.
Proof.
  split; [apply w_crowded_reachable|]. split; [vm_compute; reflexivity|]. split.
  - exists ["U2"; "U1"]. split; [vm_compute; reflexivity|]. apply elem_of_cons. by left.
  - exists (world_of (handleMessage 2 (frame_join "general-voice") w_crowded) w_crowded).
    split; vm_compute; reflexivity.
Qed.

(** * Further properties of the hub *)

(** ** Sends write to queues only *)

#[local] Instance same_idents_preorder : PreOrder same_idents.
Proof.
  split.
  - by intros w c.
  - intros w1 w2 w3 H12 H23 c. by rewrite H23, H12.
Qed.

#[local] Instance queues_only_preorder : PreOrder queues_only.
Proof.
  split.
  - intros w. split; [done|reflexivity].
  - intros w1 w2 w3 [? H12] [? H23]. split; [congruence|by transitivity w2].
Qed.

#[local] Hint Resolve same_idents_preorder queues_only_preorder : respects.

Lemma queues_only_select_send c data : respects queues_only (select_send c data).
Proof.
  intros w a w' H. unfold select_send, deref in H. rewrite bind_unfold in H.
  destruct (heap w !! c) as [cl|] eqn:Hcl; [|done].
  destruct (closed (send cl)) eqn:Hop; [done|].
  destruct (has_room (send cl)).
  2: { rewrite ret_unfold in H. simplify_eq. reflexivity. }
  rewrite bind_unfold in H. simpl in H. rewrite ret_unfold in H. simplify_eq.
  split; [done|]. intros c'. simpl. rewrite lookup_insert. case_decide; [|done].
  subst. by rewrite Hcl.
Qed.

#[local] Hint Resolve queues_only_select_send : respects.

Lemma queues_only_BroadcastToVoiceRoom chID event exclude :
  respects queues_only (BroadcastToVoiceRoom chID event exclude).
Proof. repeat respects_step. Qed.

Lemma queues_only_BroadcastToChannel chID event :
  respects queues_only (BroadcastToChannel chID event).
Proof. repeat respects_step. Qed.

Lemma queues_only_SendToUser uid event : respects queues_only (SendToUser uid event).
Proof. repeat respects_step. Qed.

Lemma same_idents_lookup (w w' : World) (c : ptr) (cl : Client) :
  same_idents w w' → heap w !! c = Some cl →
  ∃ cl', heap w' !! c = Some cl' ∧ ident cl' = ident cl.
Proof.
  intros H Hcl. specialize (H c). rewrite Hcl in H.
  destruct (heap w' !! c) as [cl'|]; simpl in H; [|discriminate].
  exists cl'. split; [done|]. congruence.
Qed.

Lemma select_send_not_blocked c data w : select_send c data w ≠ Blocked.
Proof.
  unfold select_send, deref. rewrite bind_unfold.
  destruct (heap w !! c) as [cl|]; [|done].
  destruct (closed (send cl)); [done|]. by destruct (has_room (send cl)).
Qed.

(** ** The broadcast case of [Run], whatever the number of stalled clients *)

Lemma shuts_cons c l hp : shuts (c :: l) hp = shuts l (alter shut c hp).
Proof. reflexivity. Qed.

Lemma shuts_lookup_notin l hp c : c ∉ l → shuts l hp !! c = hp !! c.
Proof.
  revert hp. induction l as [|x l IH]; intros hp Hc; [done|].
  apply not_elem_of_cons in Hc as [Hne Hc].
  rewrite shuts_cons, IH by done. by rewrite lookup_alter_ne.
Qed.

Lemma shuts_lookup_in l hp c : NoDup l → c ∈ l → shuts l hp !! c = shut <$> hp !! c.
Proof.
  revert hp. induction l as [|x l IH]; intros hp Hnd Hc; [by apply elem_of_nil in Hc|].
  apply NoDup_cons in Hnd as [Hx Hnd]. rewrite shuts_cons.
  destruct (decide (c = x)) as [->|Hne].
  - rewrite shuts_lookup_notin by done. by rewrite lookup_alter_eq.
  - apply elem_of_cons in Hc as [?|Hc]; [done|].
    rewrite IH by done. by rewrite lookup_alter_ne.
Qed.

Lemma close_send_alter (c : ptr) (w : World) :
  open_at (heap w) c →
  close_send c w = Ok () (mkWorld (alter shut c (heap w)) (hub w)).
Proof.
  intros (cl & Hcl & Hop). rewrite (close_send_open c w cl) by done.
  do 2 f_equal. apply map_eq. intros i. rewrite lookup_alter, lookup_insert.
  case_decide; [subst; by rewrite Hcl | done].
Qed.

Lemma evict_loop (dead : list ptr) (w : World) :
  NoDup dead →
  (∀ c, c ∈ dead → c ∈ clients (hub w) ∧ open_at (heap w) c) →
  for_each dead (λ client,
      h ← get_hub;
      if decide (client ∈ clients h) then
        close_send client;;
        h ← get_hub;
        set_clients (clients h ∖ {[client]})
      else mret ()) w =
  Ok () (mkWorld (shuts dead (heap w))
           (mkHub (clients (hub w) ∖ list_to_set dead) (broadcast (hub w))
              (voiceRooms (hub w)))).
Proof.
  revert w. induction dead as [|x dead IH]; intros w Hnd Hdead.
  - simpl. rewrite difference_empty_L. unfold shuts. simpl.
    by rewrite hub_eta, world_eta.
  - apply NoDup_cons in Hnd as [Hx Hnd].
    destruct (Hdead x ltac:(left)) as [Hin Hopen].
    rewrite shuts_cons.
    simpl. rewrite bind_unfold. unfold get_hub at 1. rewrite bind_unfold.
    simpl. rewrite decide_True by done.
    rewrite bind_unfold, close_send_alter by done.
    rewrite bind_unfold. simpl. rewrite IH.
    + simpl. do 3 f_equal. apply set_eq. intros c.
      rewrite !elem_of_difference, elem_of_union, elem_of_singleton. tauto.
    + done.
    + simpl. intros c Hc. destruct (Hdead c ltac:(by right)) as [Hcin (cl & Hcl & Hop)].
      assert (c ≠ x) as Hne by (by intros ->). split.
      * rewrite elem_of_difference, elem_of_singleton. done.
      * exists cl. by rewrite lookup_alter_ne.
Qed.

Lemma evict_spec (dead : list ptr) (w : World) :
  NoDup dead →
  (∀ c, c ∈ dead → c ∈ clients (hub w) ∧ open_at (heap w) c) →
  evict dead w =
  Ok () (mkWorld (shuts dead (heap w))
           (mkHub (clients (hub w) ∖ list_to_set dead) (broadcast (hub w))
              (voiceRooms (hub w)))).
Proof.
  intros Hnd Hdead. unfold evict. destruct dead as [|x dead].
  - simpl. rewrite difference_empty_L. unfold shuts. simpl.
    by rewrite hub_eta, world_eta.
  - change (0 <? List.length (x :: dead))%nat with true. cbv iota.
    by apply evict_loop.
Qed.

Lemma Run_deliver_spec (message : WSEvent) (w : World) :
  registered_ok w →
  let dead := filter (λ c, stalled (heap w) c = true) (elements (clients (hub w))) in
  Run_deliver message w =
  Ok () (mkWorld
           (shuts dead (sends message (elements (clients (hub w))) (heap w)))
           (mkHub (clients (hub w) ∖ list_to_set dead) (broadcast (hub w))
              (voiceRooms (hub w)))).
Proof.
  intros Hreg dead. unfold Run_deliver.
  rewrite bind_unfold, broadcast_pass_spec by done. fold dead.
  rewrite evict_spec; [done|apply NoDup_filter, NoDup_elements|].
  simpl. intros c [_ Hc%elem_of_elements]%list_elem_of_filter.
  split; [done|]. by apply sends_open, Hreg.
Qed.

Lemma Run_broadcast_outcome (message : WSEvent) (rest : list WSEvent)
    (w : World) :
  registered_ok w →
  buf (broadcast (hub w)) = message :: rest →
  ∃ w', Run_broadcast w = Ok () w' ∧
    (∀ c, c ∈ clients (hub w') ↔ c ∈ clients (hub w) ∧ stalled (heap w) c = false) ∧
    (∀ c cl, c ∈ clients (hub w) → heap w !! c = Some cl →
       heap w' !! c = Some (delivered message cl)) ∧
    (∀ c, c ∉ clients (hub w) → heap w' !! c = heap w !! c) ∧
    voiceRooms (hub w') = voiceRooms (hub w) ∧
    buf (broadcast (hub w')) = rest.
Proof.
  intros Hreg Hbuf.
  unfold Run_broadcast, recv_broadcast, get_hub. rewrite !bind_unfold. simpl.
  rewrite Hbuf. rewrite bind_unfold. simpl.
  rewrite Run_deliver_spec by done. simpl.
  eexists. split; [done|]. simpl.
  assert (∀ c, c ∈ filter (λ c, stalled (heap w) c = true) (elements (clients (hub w)))
               ↔ stalled (heap w) c = true ∧ c ∈ clients (hub w)) as Hdead.
  { intros c. by rewrite list_elem_of_filter, elem_of_elements. }
  split; [|split; [|split; [|done]]].
  - intros c. rewrite elem_of_difference, elem_of_list_to_set, Hdead.
    destruct (stalled (heap w) c); split; intros [? ?]; split; try done.
    + tauto.
    + by intros [? _].
  - intros c cl Hc Hcl. unfold delivered.
    destruct (has_room (send cl)) eqn:Hroom.
    + rewrite shuts_lookup_notin.
      * rewrite sends_lookup_in, Hcl;
          [|apply NoDup_elements|by apply elem_of_elements].
        simpl. unfold try_push. by rewrite Hroom.
      * intros [Hs _]%Hdead. unfold stalled in Hs. rewrite Hcl, Hroom in Hs. done.
    + rewrite shuts_lookup_in.
      * rewrite sends_lookup_in, Hcl;
          [|apply NoDup_elements|by apply elem_of_elements].
        simpl. unfold try_push. by rewrite Hroom.
      * apply NoDup_filter, NoDup_elements.
      * apply Hdead. unfold stalled. by rewrite Hcl, Hroom.
  - intros c Hc. rewrite shuts_lookup_notin.
    + apply sends_lookup_notin. by rewrite elem_of_elements.
    + by intros [_ ?]%Hdead.
Qed.

(** X2.  The broadcast case of [Run] on a hub whose registered clients are
    live: every registered client whose queue has room gets the message
    appended once and stays registered, every registered client whose
    queue is full is dropped from the connection set and has its queue
    closed, and nothing else changes. *)
Theorem broadcast_delivers_or_evicts (message : WSEvent) (rest : list WSEvent)
    (w : World) :
  registered_ok w →
  buf (broadcast (hub w)) = message :: rest →
  ∃ w', Run_broadcast w = Ok () w' ∧
    (∀ c, c ∈ clients (hub w') ↔ c ∈ clients (hub w) ∧ stalled (heap w) c = false) ∧
    (∀ c cl, c ∈ clients (hub w) → heap w !! c = Some cl →
       heap w' !! c = Some (delivered message cl)) ∧
    (∀ c, c ∉ clients (hub w) → heap w' !! c = heap w !! c) ∧
    voiceRooms (hub w') = voiceRooms (hub w) ∧
    buf (broadcast (hub w')) = rest.
Proof. apply Run_broadcast_outcome. Qed.

(** ** Queues never outgrow their capacity *)

Lemma bounded_same_queues (w w' : World) :
  heap w' = heap w → broadcast (hub w') = broadcast (hub w) →
  keeping bounded w w'.
Proof. intros Hh Hb [H1 H2]. split; [by rewrite Hh | by rewrite Hb]. Qed.

Lemma bounded_set_clients s : respects (keeping bounded) (set_clients s).
Proof.
  intros w a w' H. unfold set_clients in H. simplify_eq. by apply bounded_same_queues.
Qed.

Lemma bounded_set_rooms r : respects (keeping bounded) (set_rooms r).
Proof.
  intros w a w' H. unfold set_rooms in H. simplify_eq. by apply bounded_same_queues.
Qed.

Lemma bounded_insert (w : World) (c : ptr) (cl : Client) :
  chan_bounded (send cl) → bounded w →
  bounded (mkWorld (<[c := cl]> (heap w)) (hub w)).
Proof.
  intros Hcl [Hq Hb]. split; [|done]. intros c' cl'. simpl.
  rewrite lookup_insert. case_decide; [by intros [= <-] | apply Hq].
Qed.

Lemma push_bounded (m : WSEvent) (q : chan) :
  has_room q = true → chan_bounded q → chan_bounded (push m q).
Proof.
  unfold has_room, chan_bounded. intros Hroom%Nat.ltb_lt [Hcap Hlen]. simpl.
  split; [done|]. rewrite length_app. simpl. lia.
Qed.

Lemma bounded_select_send c data : respects (keeping bounded) (select_send c data).
Proof.
  intros w a w' H Hb. unfold select_send, deref in H. rewrite bind_unfold in H.
  destruct (heap w !! c) as [cl|] eqn:Hcl; [|done].
  destruct (closed (send cl)); [done|].
  destruct (has_room (send cl)) eqn:Hroom.
  2: { rewrite ret_unfold in H. by simplify_eq. }
  rewrite bind_unfold in H. simpl in H. rewrite ret_unfold in H. simplify_eq.
  apply bounded_insert; [|done]. apply push_bounded; [done|]. by apply (proj1 Hb c).
Qed.

Lemma bounded_close_send c : respects (keeping bounded) (close_send c).
Proof.
  intros w a w' H Hb. unfold close_send, deref in H. rewrite bind_unfold in H.
  destruct (heap w !! c) as [cl|] eqn:Hcl; [|done].
  destruct (closed (send cl)); [done|]. unfold store in H. simplify_eq.
  apply bounded_insert; [|done]. exact (proj1 Hb c cl Hcl).
Qed.

Lemma bounded_SetChannel c chID : respects (keeping bounded) (SetChannel c chID).
Proof.
  intros w a w' H Hb. unfold SetChannel, deref in H. rewrite bind_unfold in H.
  destruct (heap w !! c) as [cl|] eqn:Hcl; [|done]. unfold store in H. simplify_eq.
  apply bounded_insert; [|done]. exact (proj1 Hb c cl Hcl).
Qed.

Lemma bounded_writePump_next c : respects (keeping bounded) (writePump_next c).
Proof.
  intros w a w' H Hb. unfold writePump_next, deref in H. rewrite bind_unfold in H.
  destruct (heap w !! c) as [cl|] eqn:Hcl; [|done].
  destruct (buf (send cl)) as [|m rest] eqn:Hbuf.
  { destruct (closed (send cl)); [|done]. rewrite ret_unfold in H. by simplify_eq. }
  rewrite bind_unfold in H. simpl in H. rewrite ret_unfold in H. simplify_eq.
  apply bounded_insert; [|done]. destruct (proj1 Hb c cl Hcl) as [Hcap Hlen].
  split; [done|]. simpl. rewrite Hbuf in Hlen. simpl in Hlen. lia.
Qed.

Lemma bounded_Broadcast event : respects (keeping bounded) (Broadcast event).
Proof.
  intros w a w' H [Hq Hb]. unfold Broadcast, get_hub in H. rewrite bind_unfold in H.
  destruct (closed (broadcast (hub w))); [done|].
  destruct (has_room (broadcast (hub w))) eqn:Hroom; [|done].
  unfold set_broadcast in H. simplify_eq. split; [done|]. simpl.
  by apply push_bounded.
Qed.

Lemma bounded_recv_broadcast : respects (keeping bounded) recv_broadcast.
Proof.
  intros w a w' H [Hq [Hcap Hlen]]. unfold recv_broadcast, get_hub in H.
  rewrite bind_unfold in H.
  destruct (buf (broadcast (hub w))) as [|m rest] eqn:Hbuf; [done|].
  rewrite bind_unfold in H. simpl in H. rewrite ret_unfold in H. simplify_eq.
  split; [done|]. split; [done|]. simpl. simpl in Hlen. lia.
Qed.

Lemma bounded_WebSocket c uid : respects (keeping bounded) (WebSocket c uid).
Proof.
  intros w a w' H Hb. unfold WebSocket, Run_register, store, get_hub, set_clients in H.
  rewrite !bind_unfold in H. simpl in H. simplify_eq.
  apply (bounded_same_queues
           (mkWorld (<[c := new_client uid]> (heap w)) (hub w))); [done..|].
  apply bounded_insert; [|done]. split; [done|]. simpl. lia.
Qed.

#[local] Hint Resolve bounded_set_clients bounded_set_rooms bounded_select_send
  bounded_close_send bounded_SetChannel bounded_writePump_next bounded_Broadcast
  bounded_recv_broadcast bounded_WebSocket : respects.

Lemma bounded_hub_step (w w' : World) : hub_step w w' → bounded w → bounded w'.
Proof.
  intros [c uid _ H|c evt H|c m H|c H|H|event H|chID event H];
    (eapply (respects_elim (keeping bounded)); [|exact H]); repeat respects_step.
Qed.

Lemma bounded_start : bounded w_start.
Proof.
  split.
  - intros c cl. simpl. by rewrite lookup_empty.
  - split; [done|]. simpl. lia.
Qed.

(** X3.  Whatever the system does from start-up on, no outbound queue and
    not the hub's broadcast channel either ever holds more than the 256
    messages it was made for. *)
Theorem queues_stay_bounded (w : World) : rtc hub_step w_start w → bounded w.
Proof.
  revert w. apply rtc_ind_r.
  - apply bounded_start.
  - intros w1 w2 _ Hstep IH. by eapply bounded_hub_step.
Qed.

(** ** Leaving, joining and asking *)

Lemma size_zero_empty (s : gset ptr) : (size s =? 0)%nat = true ↔ s = ∅.
Proof.
  rewrite Nat.eqb_eq. split.
  - intros H. by apply leibniz_equiv, size_empty_inv.
  - by intros ->.
Qed.

Lemma without_lookup client chID room rooms ch :
  client ∈ room → rooms !! chID = Some room →
  without client chID room rooms !! ch
    = if decide (ch = chID) then vacated client room else rooms !! ch.
Proof.
  intros Hin Hroom. unfold without, vacated.
  rewrite (decide_True (P := client ∈ room)) by done.
  destruct (size (room ∖ {[client]}) =? 0)%nat eqn:Hsize.
  - apply size_zero_empty in Hsize.
    rewrite (decide_True (P := room ∖ {[client]} = ∅)) by done.
    destruct (decide (ch = chID)) as [->|Hne].
    + by rewrite lookup_delete_eq.
    + by rewrite lookup_delete_ne.
  - assert (room ∖ {[client]} ≠ ∅) as Hne.
    { intros He%size_zero_empty. congruence. }
    rewrite (decide_False (P := room ∖ {[client]} = ∅)) by done.
    destruct (decide (ch = chID)) as [->|Hne'].
    + by rewrite lookup_insert_eq.
    + by rewrite lookup_insert_ne.
Qed.

(** X4.  [leaveVoiceRoom] always completes.  It answers [true] exactly
    when the client was in the room; then the client is taken out of that
    room, the room's entry goes when nobody is left, and the other rooms
    stay as they are.  When it answers [false] nothing has changed. *)
Theorem leave_reports_membership (chID : string) (client : ptr) (w : World) :
  ∃ was w', leaveVoiceRoom chID client w = Ok was w' ∧
    (was = true ↔ ∃ room, voiceRooms (hub w) !! chID = Some room ∧ client ∈ room) ∧
    (was = false → w' = w) ∧
    heap w' = heap w ∧ clients (hub w') = clients (hub w) ∧
    broadcast (hub w') = broadcast (hub w) ∧
    (∀ ch, ch ≠ chID → voiceRooms (hub w') !! ch = voiceRooms (hub w) !! ch) ∧
    voiceRooms (hub w') !! chID = voiceRooms (hub w) !! chID ≫= vacated client.
Proof.
  rewrite leaveVoiceRoom_spec.
  destruct (voiceRooms (hub w) !! chID) as [room|] eqn:Hroom.
  - destruct (decide (client ∈ room)) as [Hin|Hout].
    + eexists true, _. split; [done|].
      split; [split; [intros _; by exists room | done]|].
      split; [done|]. simpl. split; [done|]. split; [done|]. split; [done|]. split.
      * intros ch Hne. rewrite (without_lookup _ _ _ _ _ Hin Hroom).
        by rewrite decide_False.
      * rewrite (without_lookup _ _ _ _ _ Hin Hroom). by rewrite decide_True.
    + exists false, w. split; [done|]. split.
      { split; [done|]. intros (room' & [= <-] & ?). done. }
      rewrite Hroom. simpl. unfold vacated. by rewrite decide_False.
  - exists false, w. split; [done|]. split.
    { split; [done|]. by intros (room' & [=] & ?). }
    by rewrite Hroom.
Qed.

(** X5.  Joining a room and leaving it again puts the registry back as it
    was, for a client that was not in the room, in a registry that keeps
    no empty room for that channel. *)
Theorem join_then_leave (chID : string) (client : ptr) (existing : list string)
    (w : World) :
  let room := default ∅ (voiceRooms (hub w) !! chID) in
  client ∉ room →
  voiceRooms (hub w) !! chID ≠ Some ∅ →
  room_uids w room = Some existing →
  (joinVoiceRoom chID client ≫= λ _, leaveVoiceRoom chID client) w = Ok true w.
Proof.
  intros room Hout Hne Hex.
  assert (without client chID ({[client]} ∪ room)
            (<[chID := {[client]} ∪ room]> (voiceRooms (hub w)))
          = voiceRooms (hub w)) as Hback.
  { unfold without. rewrite <- (union_joiner_absent client room Hout).
    destruct (size room =? 0)%nat eqn:Hsize.
    - apply size_zero_empty in Hsize. rewrite delete_insert_eq.
      apply delete_id. subst room.
      destruct (voiceRooms (hub w) !! chID) as [r|]; [|done].
      simpl in Hsize. congruence.
    - rewrite insert_insert_eq. apply insert_id. subst room.
      destruct (voiceRooms (hub w) !! chID) as [r|]; [done|].
      simpl in Hsize. try rewrite size_empty in Hsize. done. }
  rewrite bind_unfold, joinVoiceRoom_spec. fold room.
  unfold room_uids in Hex. rewrite Hex. rewrite leaveVoiceRoom_spec. simpl.
  rewrite lookup_insert_eq.
  rewrite decide_True by (apply elem_of_union; left; by apply elem_of_singleton).
  f_equal. unfold with_rooms at 1. simpl. rewrite Hback.
  apply with_rooms_id.
Qed.

(** X6.  On a room whose members are allocated, [AreInSameVoiceRoom]
    completes without changing anything, and answers [true] exactly when
    the room exists and has a connection of the one user and a connection
    of the other.  The answer does not depend on the order of the two
    users. *)
Theorem co_membership_meaning (chID userA userB : string) (w : World) :
  (∀ room c, voiceRooms (hub w) !! chID = Some room → c ∈ room →
     is_Some (heap w !! c)) →
  AreInSameVoiceRoom chID userA userB w = AreInSameVoiceRoom chID userB userA w ∧
  ∃ same, AreInSameVoiceRoom chID userA userB w = Ok same w ∧
    (same = true ↔
       ∃ room ca cla cb clb,
         voiceRooms (hub w) !! chID = Some room ∧
         ca ∈ room ∧ heap w !! ca = Some cla ∧ userID cla = userA ∧
         cb ∈ room ∧ heap w !! cb = Some clb ∧ userID clb = userB).
Proof.
  intros Halloc. rewrite !AreInSameVoiceRoom_spec.
  destruct (voiceRooms (hub w) !! chID) as [room|] eqn:Hroom.
  2: { split; [done|]. exists false. split; [done|]. split; [done|].
       by intros (? & ? & ? & ? & ? & [=] & _). }
  destruct (uids_of_total (heap w) (elements room)) as [us Hus].
  { intros c Hc%elem_of_elements. by apply (Halloc room). }
  rewrite Hus. split; [by rewrite andb_comm|].
  eexists. split; [done|].
  rewrite andb_true_iff, !has_user_elem, !(uids_of_elem _ _ _ _ Hus). split.
  - intros [(ca & cla & Hca%elem_of_elements & ? & ?)
            (cb & clb & Hcb%elem_of_elements & ? & ?)].
    exists room, ca, cla, cb, clb. done.
  - intros (room' & ca & cla & cb & clb & [= <-] & Hca & ? & ? & Hcb & ? & ?).
    split; [exists ca, cla | exists cb, clb]; by rewrite elem_of_elements.
Qed.

(** ** Snapshots are exact *)

Lemma snapshot_loop_keys (l : list (string * gset ptr)) (out snap : gmap string (list string))
    (w w' : World) :
  for_acc l out (λ out entry,
    let '(chID, room) := entry in
    uids ← for_acc (elements room) [] (λ uids c,
              cl ← deref c; mret (uids ++ [userID cl])%list);
    mret (<[chID := uids]> out)) w = Ok snap w' →
  ∀ chID, (is_Some (out !! chID) ∨ chID ∈ l.*1) → is_Some (snap !! chID).
Proof.
  revert out. induction l as [|[ch0 room0] l IH]; intros out H chID.
  - injection H as <- <-. intros [?|[]%elem_of_nil]. done.
  - simpl in H. rewrite bind_unfold, bind_unfold, collect_uids in H.
    destruct (uids_of (heap w) (elements room0)) as [us0|]; [|done].
    simpl in H. intros Hc. apply (IH _ H).
    destruct Hc as [Hc|Hc].
    + left. rewrite lookup_insert. case_decide; [by eexists|done].
    + simpl in Hc. apply elem_of_cons in Hc as [->|Hc]; [|by right].
      left. rewrite lookup_insert_eq. by eexists.
Qed.

(** X7.  With every member allocated, [GetVoiceRoomSnapshot] completes
    without changing anything; its result has one key for each room of the
    registry and no other, and the list under a key is the list of the
    user ids of the members of that room. *)
Theorem snapshot_exact (w : World) :
  members_alloc w →
  ∃ snap, GetVoiceRoomSnapshot w = Ok snap w ∧
    ∀ chID, snap !! chID = voiceRooms (hub w) !! chID ≫= room_uids w.
Proof.
  intros Halloc. destruct (GetVoiceRoomSnapshot_total w Halloc) as [snap Hsnap].
  exists snap. split; [done|]. intros chID.
  destruct (GetVoiceRoomSnapshot_sound _ _ _ Hsnap) as [_ Hsound].
  destruct (voiceRooms (hub w) !! chID) as [room|] eqn:Hroom; simpl.
  - assert (is_Some (snap !! chID)) as [us Hus].
    { unfold GetVoiceRoomSnapshot, get_rooms in Hsnap. rewrite bind_unfold in Hsnap.
      apply (snapshot_loop_keys _ _ _ _ _ Hsnap). right.
      apply list_elem_of_fmap. exists (chID, room). split; [done|].
      by apply elem_of_map_to_list. }
    rewrite Hus. destruct (Hsound _ _ Hus) as (room' & Hroom' & Huids).
    unfold room_uids. congruence.
  - destruct (snap !! chID) as [us|] eqn:Hus; [|done].
    destruct (Hsound _ _ Hus) as (room' & Hroom' & _). congruence.
Qed.

(** ** What a departure does to the registry and what it announces *)

Lemma scan_affected client l st :
  (foldl (scan_step client) st l).1
    = (st.1 ++ (filter (λ e, client ∈ e.2) l).*1)%list.
Proof.
  revert st. induction l as [|[ch0 r0] l IH]; intros [aff rooms].
  - simpl. by rewrite app_nil_r.
  - simpl. destruct (decide (client ∈ r0)) as [Hin|Hout].
    + rewrite scan_step_in by done. rewrite IH. simpl.
      rewrite filter_cons_True by done. simpl. by rewrite <- app_assoc.
    + rewrite scan_step_out by done. rewrite IH. simpl.
      by rewrite filter_cons_False.
Qed.

Lemma scan_step_lookup client st ch0 r0 ch :
  st.2 !! ch0 = Some r0 →
  (scan_step client st (ch0, r0)).2 !! ch
    = if decide (ch = ch0) then vacated client r0 else st.2 !! ch.
Proof.
  intros H0. destruct st as [aff rooms]. simpl in H0.
  destruct (decide (client ∈ r0)) as [Hin|Hout].
  - rewrite scan_step_in by done. simpl. by apply without_lookup.
  - rewrite scan_step_out by done. simpl. unfold vacated.
    rewrite (decide_False (P := client ∈ r0)) by done.
    case_decide; [by subst|done].
Qed.

Lemma scan_lookup client l st ch :
  NoDup l.*1 →
  (∀ ch r, (ch, r) ∈ l → st.2 !! ch = Some r) →
  (foldl (scan_step client) st l).2 !! ch
    = if decide (ch ∈ l.*1) then st.2 !! ch ≫= vacated client else st.2 !! ch.
Proof.
  revert st. induction l as [|[ch0 r0] l IH]; intros st Hnd Hl.
  - case_decide as Hin; [by apply elem_of_nil in Hin|done].
  - simpl in Hnd. apply NoDup_cons in Hnd as [H0 Hnd].
    assert (st.2 !! ch0 = Some r0) as Hst0 by (apply Hl; left).
    simpl. rewrite IH; [|done|].
    2: { intros ch' r' Hin. rewrite scan_step_lookup by done.
         rewrite decide_False; [apply Hl; by right|].
         intros ->. apply H0. apply list_elem_of_fmap. by exists (ch0, r'). }
    rewrite scan_step_lookup by done.
    destruct (decide (ch = ch0)) as [->|Hne].
    + rewrite (decide_False (P := ch0 ∈ l.*1)) by done.
      rewrite decide_True by left. by rewrite Hst0.
    + destruct (decide (ch ∈ l.*1)) as [Hin|Hout].
      * by rewrite decide_True by (by right).
      * rewrite decide_False; [done|]. by intros [?|?]%elem_of_cons.
Qed.

Lemma scan_rooms_lookup client rooms ch :
  (foldl (scan_step client) ([], rooms) (map_to_list rooms)).2 !! ch
    = rooms !! ch ≫= vacated client.
Proof.
  rewrite scan_lookup.
  - simpl. case_decide as Hin; [done|].
    destruct (rooms !! ch) as [r|] eqn:Hr; [|done].
    exfalso. apply Hin. apply list_elem_of_fmap. exists (ch, r).
    split; [done|]. by apply elem_of_map_to_list.
  - apply NoDup_fst_map_to_list.
  - simpl. intros ch' r. apply elem_of_map_to_list.
Qed.

Lemma Broadcast_inv (event : WSEvent) (w w' : World) (a : unit) :
  Broadcast event w = Ok a w' →
  w' = mkWorld (heap w)
         (mkHub (clients (hub w)) (push event (broadcast (hub w)))
            (voiceRooms (hub w))).
Proof.
  unfold Broadcast, get_hub. rewrite bind_unfold.
  destruct (closed (broadcast (hub w))); [done|].
  destruct (has_room (broadcast (hub w))); [|done].
  unfold set_broadcast. by intros [= <-].
Qed.

Lemma announce_broadcast (client : ptr) (affected : list string) (cl : Client)
    (w w' : World) :
  heap w !! client = Some cl →
  leaveAll_announce client affected w = Ok () w' →
  buf (broadcast (hub w'))
    = (buf (broadcast (hub w))
       ++ ((λ chID, evVoiceLeft chID (userID cl)) <$> affected))%list.
Proof.
  revert w cl. induction affected as [|chID rest IH]; intros w cl Hcl H.
  - injection H as <-. simpl. by rewrite app_nil_r.
  - unfold leaveAll_announce in H. simpl in H.
    apply bind_inv in H as ([] & w1 & Hbody & Hrest).
    rewrite bind_unfold, (deref_Some client w cl) in Hbody by done.
    apply bind_inv in Hbody as ([] & wa & Hroom & Hall).
    apply queues_only_BroadcastToVoiceRoom in Hroom as [Hhub Hid].
    destruct (same_idents_lookup _ _ _ _ Hid Hcl) as (cla & Hcla & Hident).
    apply Broadcast_inv in Hall. subst w1.
    eapply IH in Hrest; [|exact Hcla]. rewrite Hrest. simpl. rewrite Hhub.
    assert (userID cla = userID cl) as -> by (by injection Hident).
    by rewrite <- app_assoc.
Qed.

(** X8.  When [leaveAllVoiceRooms] completes, the client has been taken
    out of every room it was in, the rooms it was alone in are gone, every
    other room is as before, and exactly one [voice.left] for each room the
    client was in, with the client's user id, has been handed to the hub's
    broadcast channel. *)
Theorem departure_announced_once (client : ptr) (cl : Client) (w w' : World) :
  heap w !! client = Some cl →
  leaveAllVoiceRooms client w = Ok () w' →
  clients (hub w') = clients (hub w) ∧
  (∀ chID, voiceRooms (hub w') !! chID = voiceRooms (hub w) !! chID ≫= vacated client) ∧
  ∃ affected,
    NoDup affected ∧
    (∀ chID, chID ∈ affected ↔
       ∃ room, voiceRooms (hub w) !! chID = Some room ∧ client ∈ room) ∧
    buf (broadcast (hub w'))
      = (buf (broadcast (hub w))
         ++ ((λ chID,
                mkEvent "voice.left"
                  (JObj [("channel_id", JStr chID); ("user_id", JStr (userID cl))]))
               <$> affected))%list.
Proof.
  intros Hcl H. rewrite leaveAllVoiceRooms_unfold in H. simpl in H.
  pose proof (keeps_leaveAll_announce _ _ _ _ _ H) as [Hc Hr]. simpl in Hc, Hr.
  split; [done|]. split.
  { intros chID. rewrite Hr. apply scan_rooms_lookup. }
  rewrite scan_affected in H. simpl in H.
  exists (filter (λ e : string * gset ptr, client ∈ e.2)
            (map_to_list (voiceRooms (hub w)))).*1.
  split; [|split].
  - eapply sublist_NoDup; [apply (NoDup_fst_map_to_list (voiceRooms (hub w)))|].
    apply fmap_sublist, sublist_filter.
  - intros chID. rewrite list_elem_of_fmap. split.
    + intros ([ch r] & -> & [Hin Hr']%list_elem_of_filter).
      exists r. split; [by apply elem_of_map_to_list|done].
    + intros (r & Hr' & Hin). exists (chID, r). split; [done|].
      apply list_elem_of_filter. split; [done|]. by apply elem_of_map_to_list.
  - eapply (announce_broadcast _ _ cl) in H; [|exact Hcl]. by rewrite H.
Qed.

(** ** The life of a connection *)

#[local] Instance same_life_preorder : PreOrder same_life.
Proof.
  split.
  - intros w. by split.
  - intros w1 w2 w3 [Hc12 H12] [Hc23 H23]. split; [congruence|].
    intros c. by rewrite H23, H12.
Qed.

#[local] Instance grown_preorder : PreOrder grown.
Proof.
  split.
  - by intros w c.
  - intros w1 w2 w3 H12 H23 c Hc. by apply H23, H12.
Qed.

#[local] Hint Resolve same_life_preorder grown_preorder : respects.

Lemma same_life_same_heap (w w' : World) :
  heap w' = heap w → clients (hub w') = clients (hub w) → same_life w w'.
Proof. intros Hh Hc. split; [done|]. intros c. by rewrite Hh. Qed.

Lemma same_life_set_rooms r : respects same_life (set_rooms r).
Proof.
  intros w a w' H. unfold set_rooms in H. simplify_eq. by apply same_life_same_heap.
Qed.

Lemma same_life_set_broadcast q : respects same_life (set_broadcast q).
Proof.
  intros w a w' H. unfold set_broadcast in H. simplify_eq.
  by apply same_life_same_heap.
Qed.

Lemma same_life_insert (c : ptr) (cl cl' : Client) (w : World) :
  heap w !! c = Some cl → closed (send cl') = closed (send cl) →
  same_life w (mkWorld (<[c := cl']> (heap w)) (hub w)).
Proof.
  intros Hcl Hsame. split; [done|]. intros c'. simpl.
  rewrite lookup_insert. case_decide; [subst|done].
  rewrite Hcl. simpl. unfold closedness. by rewrite Hsame.
Qed.

Lemma same_life_select_send c data : respects same_life (select_send c data).
Proof.
  intros w a w' H. unfold select_send, deref in H. rewrite bind_unfold in H.
  destruct (heap w !! c) as [cl|] eqn:Hcl; [|done].
  destruct (closed (send cl)) eqn:Hop; [done|].
  destruct (has_room (send cl)).
  2: { rewrite ret_unfold in H. simplify_eq. reflexivity. }
  rewrite bind_unfold in H. simpl in H. rewrite ret_unfold in H. simplify_eq.
  by apply (same_life_insert c cl).
Qed.

Lemma same_life_SetChannel c chID : respects same_life (SetChannel c chID).
Proof.
  intros w a w' H. unfold SetChannel, deref in H. rewrite bind_unfold in H.
  destruct (heap w !! c) as [cl|] eqn:Hcl; [|done].
  unfold store in H. simplify_eq. by apply (same_life_insert c cl).
Qed.

Lemma same_life_writePump_next c : respects same_life (writePump_next c).
Proof.
  intros w a w' H. unfold writePump_next, deref in H. rewrite bind_unfold in H.
  destruct (heap w !! c) as [cl|] eqn:Hcl; [|done].
  destruct (buf (send cl)) as [|m rest].
  { destruct (closed (send cl)); [|done]. rewrite ret_unfold in H.
    simplify_eq. reflexivity. }
  rewrite bind_unfold in H. simpl in H. rewrite ret_unfold in H. simplify_eq.
  by apply (same_life_insert c cl).
Qed.

#[local] Hint Resolve same_life_set_rooms same_life_set_broadcast
  same_life_select_send same_life_SetChannel : respects.

Lemma same_life_handleMessage c evt : respects same_life (handleMessage c evt).
Proof. unfold handleMessage. repeat respects_step. Qed.

Lemma same_life_leaveAllVoiceRooms c : respects same_life (leaveAllVoiceRooms c).
Proof. repeat respects_step. Qed.

Lemma same_life_recv_broadcast : respects same_life recv_broadcast.
Proof. repeat respects_step. Qed.

Lemma same_life_broadcast_pass message : respects same_life (broadcast_pass message).
Proof. repeat respects_step. Qed.

Lemma same_life_Broadcast event : respects same_life (Broadcast event).
Proof. repeat respects_step. Qed.

Lemma same_life_BroadcastToChannel chID event :
  respects same_life (BroadcastToChannel chID event).
Proof. repeat respects_step. Qed.

Lemma same_life_grown (w w' : World) : same_life w w' → grown w w'.
Proof.
  intros [_ H] c [cl Hcl]. specialize (H c). rewrite Hcl in H.
  destruct (heap w' !! c); [by eexists|discriminate].
Qed.

Lemma same_life_settled (w w' : World) : same_life w w' → settled w → settled w'.
Proof.
  intros [Hc H] Hs c cl' Hcl' Hout. specialize (H c). rewrite Hcl' in H.
  destruct (heap w !! c) as [cl|] eqn:Hcl; [|discriminate].
  injection H as H. unfold closedness in H. rewrite H.
  apply (Hs c cl Hcl). by rewrite <- Hc.
Qed.

Lemma same_life_steady {A : Type} (m : M A) :
  respects calm m → respects same_life m → respects (keeping steady) m.
Proof.
  intros Hcalm Hlife w a w' H [Hreg Hs]. split.
  - eapply registered_ok_calm; [by eapply Hcalm|done].
  - eapply same_life_settled; [by eapply Hlife|done].
Qed.

(** Closing the queue of a registered client and dropping it from the
    connection set. *)
Lemma steady_without (c : ptr) (cl : Client) (w : World) :
  steady w → heap w !! c = Some cl →
  steady
    (mkWorld (<[c := shut cl]> (heap w))
       (mkHub (clients (hub w) ∖ {[c]}) (broadcast (hub w)) (voiceRooms (hub w)))).
Proof.
  intros [Hreg Hs] Hcl. split; [by apply live_without|].
  intros c' cl'. simpl. rewrite lookup_insert. case_decide as Hc.
  - subst. by intros [= <-] _.
  - intros Hcl' Hout. apply (Hs c' cl' Hcl'). intros Hin. apply Hout.
    apply elem_of_difference. split; [done|]. rewrite elem_of_singleton. congruence.
Qed.

Lemma grown_without (c : ptr) (cl : Client) (s : gset ptr) (w : World) :
  grown w (mkWorld (<[c := cl]> (heap w))
             (mkHub s (broadcast (hub w)) (voiceRooms (hub w)))).
Proof.
  intros c' Hc'. simpl. rewrite lookup_insert. by case_decide; [eexists|].
Qed.

Lemma evict_one (c : ptr) (w w' : World) :
  (h ← get_hub;
   if decide (c ∈ clients h) then
     close_send c;; h ← get_hub; set_clients (clients h ∖ {[c]})
   else mret ()) w = Ok () w' →
  registered_ok w →
  w' = w ∨ ∃ cl, heap w !! c = Some cl ∧
    w' = mkWorld (<[c := shut cl]> (heap w))
           (mkHub (clients (hub w) ∖ {[c]}) (broadcast (hub w)) (voiceRooms (hub w))).
Proof.
  intros H Hreg. unfold get_hub in H. rewrite bind_unfold in H.
  destruct (decide (c ∈ clients (hub w))) as [Hin|Hout].
  - destruct (Hreg c Hin) as (cl & Hcl & Hop).
    rewrite bind_unfold, (close_send_open c w cl) in H by done.
    rewrite bind_unfold in H. simpl in H. unfold set_clients in H. simpl in H.
    simplify_eq. right. by exists cl.
  - rewrite ret_unfold in H. simplify_eq. by left.
Qed.

Lemma steady_evict dead : respects (keeping steady) (evict dead).
Proof.
  unfold evict. destruct (0 <? List.length dead)%nat.
  2: { intros w a w' H. rewrite ret_unfold in H. by simplify_eq. }
  apply respects_for_each; [apply _|]. intros c w [] w' H Hst.
  destruct (evict_one c w w' H (proj1 Hst)) as [->|(cl & Hcl & ->)]; [done|].
  by apply steady_without.
Qed.

Lemma grown_evict dead :
  ∀ w w', registered_ok w → evict dead w = Ok () w' → grown w w'.
Proof.
  unfold evict. destruct (0 <? List.length dead)%nat.
  2: { intros w w' _ H. rewrite ret_unfold in H. by simplify_eq. }
  induction dead as [|c dead IH]; intros w w' Hreg H; simpl in H.
  { rewrite ret_unfold in H. by simplify_eq. }
  apply bind_inv in H as ([] & w1 & H1 & H2).
  assert (registered_ok w1 ∧ grown w w1) as [Hreg1 Hg1].
  { destruct (evict_one c w w1 H1 Hreg) as [->|(cl & Hcl & ->)]; [done|].
    split; [by apply live_without|apply grown_without]. }
  transitivity w1; [done|]. by apply IH.
Qed.

Lemma steady_Run_unregister c : respects (keeping steady) (Run_unregister c).
Proof.
  intros w a w' H Hst. unfold Run_unregister, get_hub in H.
  rewrite bind_unfold in H. apply bind_inv in H as (u & w1 & H1 & H2).
  assert (steady w1) as Hst1.
  { destruct (decide (c ∈ clients (hub w))) as [Hin|Hout].
    - destruct (proj1 Hst c Hin) as (cl & Hcl & Hop).
      rewrite bind_unfold in H1. simpl in H1.
      rewrite (close_send_open c _ cl) in H1 by done. simpl in H1.
      simplify_eq. by apply steady_without.
    - rewrite ret_unfold in H1. by simplify_eq. }
  by apply (respects_elim _ _ _ _ _
              (same_life_steady _ (calm_leaveAllVoiceRooms c)
                 (same_life_leaveAllVoiceRooms c)) H2).
Qed.

Lemma steady_Run_broadcast : respects (keeping steady) Run_broadcast.
Proof.
  unfold Run_broadcast, Run_deliver.
  apply respects_bind;
    [apply _|apply same_life_steady;
               [apply calm_recv_broadcast|apply same_life_recv_broadcast]|
     intros message].
  apply respects_bind;
    [apply _|apply same_life_steady;
               [apply calm_broadcast_pass|apply same_life_broadcast_pass]|
     intros dead].
  apply steady_evict.
Qed.

Lemma steady_WebSocket (c : ptr) (uid : string) (w w' : World) :
  heap w !! c = None → WebSocket c uid w = Ok () w' → steady w → steady w'.
Proof.
  intros Hfresh H [Hreg Hs]. split; [by apply (live_WebSocket c uid w)|].
  unfold WebSocket, Run_register, store, get_hub, set_clients in H.
  rewrite !bind_unfold in H. simpl in H. simplify_eq.
  intros c' cl'. simpl. rewrite lookup_insert. case_decide as Hc.
  - subst. intros _ Hout. exfalso. apply Hout.
    apply elem_of_union. left. by apply elem_of_singleton.
  - intros Hcl' Hout. apply (Hs c' cl' Hcl'). intros Hin. apply Hout.
    apply elem_of_union. by right.
Qed.

Lemma steady_hub_step (w w' : World) : hub_step w w' → steady w → steady w'.
Proof.
  intros [c uid Hfresh H|c evt H|c m H|c H|H|event H|chID event H].
  - by apply (steady_WebSocket c uid).
  - by apply (respects_elim _ _ _ _ _
                (same_life_steady _ (calm_handleMessage c evt)
                   (same_life_handleMessage c evt)) H).
  - by apply (respects_elim _ _ _ _ _
                (same_life_steady _ (calm_writePump_next c)
                   (same_life_writePump_next c)) H).
  - by apply (respects_elim _ _ _ _ _ (steady_Run_unregister c) H).
  - by apply (respects_elim _ _ _ _ _ steady_Run_broadcast H).
  - by apply (respects_elim _ _ _ _ _
                (same_life_steady _ (calm_Broadcast event)
                   (same_life_Broadcast event)) H).
  - by apply (respects_elim _ _ _ _ _
                (same_life_steady _ (calm_BroadcastToChannel chID event)
                   (same_life_BroadcastToChannel chID event)) H).
Qed.

Lemma steady_always (w : World) : rtc hub_step w_start w → steady w.
Proof.
  revert w. apply rtc_ind_r.
  - split; [apply hub_inv_start|]. intros c cl Hcl. simpl in Hcl.
    by rewrite lookup_empty in Hcl.
  - intros w1 w2 _ Hstep IH. by eapply steady_hub_step.
Qed.

(** No step of the system forgets a client. *)
Lemma grown_hub_step (w w' : World) : hub_step w w' → registered_ok w → grown w w'.
Proof.
  intros [c uid Hfresh H|c evt H|c m H|c H|H|event H|chID event H] Hreg.
  - unfold WebSocket, Run_register, store, get_hub, set_clients in H.
    rewrite !bind_unfold in H. simpl in H. simplify_eq. apply grown_without.
  - by apply same_life_grown, (same_life_handleMessage c evt w () w').
  - by apply same_life_grown, (same_life_writePump_next c w m w').
  - unfold Run_unregister, get_hub in H.
    rewrite bind_unfold in H. apply bind_inv in H as (u & w1 & H1 & H2).
    transitivity w1.
    + destruct (decide (c ∈ clients (hub w))) as [Hin|Hout].
      * destruct (Hreg c Hin) as (cl & Hcl & Hop).
        rewrite bind_unfold in H1. simpl in H1.
        rewrite (close_send_open c _ cl) in H1 by done. simpl in H1.
        simplify_eq. apply grown_without.
      * rewrite ret_unfold in H1. by simplify_eq.
    + by apply same_life_grown, (same_life_leaveAllVoiceRooms c w1 () w').
  - unfold Run_broadcast, Run_deliver in H.
    apply bind_inv in H as (message & w1 & H1 & H2).
    apply bind_inv in H2 as (dead & w2 & H2 & H3).
    transitivity w1;
      [by apply same_life_grown, (same_life_recv_broadcast w message w1)|].
    transitivity w2;
      [by apply same_life_grown, (same_life_broadcast_pass message w1 dead w2)|].
    apply (grown_evict dead); [|done].
    eapply registered_ok_calm; [by eapply calm_broadcast_pass|].
    eapply registered_ok_calm; [by eapply calm_recv_broadcast|done].
  - by apply same_life_grown, (same_life_Broadcast event w () w').
  - by apply same_life_grown, (same_life_BroadcastToChannel chID event w () w').
Qed.

Lemma grown_reach (w w' : World) :
  rtc hub_step w w' → registered_ok w → registered_ok w' ∧ grown w w'.
Proof.
  induction 1 as [w|w w1 w2 Hstep _ IH]; intros Hreg; [by split|].
  destruct IH as [Hreg2 Hg]; [by eapply live_hub_step|].
  split; [done|]. transitivity w1; [by apply grown_hub_step|done].
Qed.

(** The read loop is a run of message steps. *)
Lemma readLoop_steps (c : ptr) (frames : list frame) (w w' : World) :
  readLoop c frames w = Ok () w' → rtc hub_step w w'.
Proof.
  revert w. induction frames as [|f rest IH]; intros w; cbn [readLoop].
  - rewrite ret_unfold. intros [= ->]. reflexivity.
  - destruct (readLimit <? frameSize f)%N.
    { rewrite ret_unfold. intros [= ->]. reflexivity. }
    destruct (unmarshal_rawClientMessage (frameBody f)) as [evt|]; [|apply IH].
    intros ([] & w1 & H1 & H2)%bind_inv.
    eapply rtc_l; [by eapply step_message|by apply IH].
Qed.

Lemma calm_readLoop c frames : respects calm (readLoop c frames).
Proof.
  induction frames as [|f rest IH]; cbn [readLoop].
  - apply respects_ret. apply _.
  - destruct (readLimit <? frameSize f)%N; [apply respects_ret; apply _|].
    destruct (unmarshal_rawClientMessage (frameBody f)) as [evt|]; [|done].
    apply respects_bind; [apply _|apply calm_handleMessage|]. by intros _.
Qed.

(** X9.  [readPump] does not unregister its connection: when it returns,
    the connection set is as it was and the client has only been handed
    to [Run].  Once the unregister case of [Run] has completed for the
    client handed over, whatever the system did in between, the
    connection is out of the connection set and of every room, and its
    queue is closed. *)
Theorem cleanup_follows_readPump (c who : ptr) (frames : list frame)
    (w0 w1 w2 w3 : World) :
  rtc hub_step w_start w0 → is_Some (heap w0 !! c) →
  readPump c frames w0 = Ok who w1 →
  rtc hub_step w1 w2 →
  Run_unregister who w2 = Ok () w3 →
  who = c ∧ clients (hub w1) = clients (hub w0) ∧
  (c ∉ clients (hub w3)) ∧ in_no_room c (voiceRooms (hub w3)) ∧
  ∃ cl, heap w3 !! c = Some cl ∧ closed (send cl) = true.
Proof.
  intros Hreach Halloc Hread Hlater Hun. unfold readPump in Hread.
  apply bind_inv in Hread as ([] & w1' & Hloop & Hret).
  rewrite ret_unfold in Hret. simplify_eq.
  split; [done|].
  split; [by apply calm_readLoop in Hloop as [? _]|].
  destruct (Run_unregister_clears _ _ _ Hun) as [Hout Hrooms].
  split; [done|]. split; [done|].
  assert (rtc hub_step w_start w2) as Hreach2.
  { etrans; [exact Hreach|]. etrans; [by eapply readLoop_steps|done]. }
  assert (rtc hub_step w_start w3) as Hreach3.
  { eapply rtc_r; [exact Hreach2|]. by eapply step_unregister. }
  destruct (grown_reach w0 w3) as [_ Hg].
  { etrans; [by eapply readLoop_steps|]. eapply rtc_r; [exact Hlater|].
    by eapply step_unregister. }
  { by apply steady_always. }
  destruct (Hg who Halloc) as [cl Hcl]. exists cl. split; [done|].
  by apply (proj2 (steady_always w3 Hreach3) who cl).
Qed.

(** X10.  [BroadcastToVoiceRoom] has no guard against a closed queue: when
    some member of the room other than the excluded one has a closed
    queue, the call panics. *)
Theorem room_send_panics_on_closed (chID : string) (event : WSEvent)
    (exclude : option ptr) (room : gset ptr) (t : ptr) (tcl : Client) (w : World) :
  voiceRooms (hub w) !! chID = Some room →
  t ∈ room → Some t ≠ exclude →
  heap w !! t = Some tcl → closed (send tcl) = true →
  BroadcastToVoiceRoom chID event exclude w = Panic.
Proof.
  intros Hroom Hin Hex Ht Hclosed.
  unfold BroadcastToVoiceRoom, get_rooms. rewrite bind_unfold, Hroom.
  apply elem_of_elements in Hin. revert w tcl Ht Hclosed Hroom.
  induction (elements room) as [|x l IH]; intros w tcl Ht Hclosed Hroom.
  - by apply elem_of_nil in Hin.
  - simpl. rewrite bind_unfold.
    destruct (decide (x = t)) as [->|Hne].
    + rewrite decide_False by done.
      by rewrite bind_unfold, (select_send_closed t event w tcl).
    + apply elem_of_cons in Hin as [?|Hin]; [done|].
      destruct (decide (Some x = exclude)).
      * rewrite ret_unfold. by apply (IH Hin w tcl).
      * rewrite bind_unfold.
        destruct (select_send x event w) as [b w1| |] eqn:Hsend; [|done|].
        -- rewrite ret_unfold.
           pose proof (queues_only_select_send _ _ _ _ _ Hsend) as [Hhub Hid].
           destruct (same_idents_lookup _ _ _ _ Hid Ht) as (tcl1 & Ht1 & Hident).
           apply (IH Hin w1 tcl1); [done| |by rewrite Hhub].
           injection Hident as _ _ -> _. done.
        -- by apply select_send_not_blocked in Hsend.
Qed.

(** X11.  A connection that is accepted and then unregistered before it
    has joined a room leaves the hub as it found it; all that remains is
    its client, with the queue closed. *)
Theorem connect_then_disconnect (c : ptr) (uid : string) (w : World) :
  heap w !! c = None → c ∉ clients (hub w) →
  in_no_room c (voiceRooms (hub w)) →
  (WebSocket c uid;; Run_unregister c) w
    = Ok () (mkWorld (<[c := shut (new_client uid)]> (heap w)) (hub w)).
Proof.
  intros Hfresh Hout Hrooms.
  unfold WebSocket, Run_register, store, get_hub, set_clients.
  rewrite !bind_unfold. simpl.
  unfold Run_unregister, get_hub. rewrite bind_unfold. simpl.
  rewrite decide_True by (apply elem_of_union; left; by apply elem_of_singleton).
  rewrite !bind_unfold. simpl.
  rewrite (close_send_open c _ (new_client uid)); [|by simpl; rewrite lookup_insert_eq|done].
  simpl. rewrite leaveAllVoiceRooms_noop by done.
  rewrite insert_insert_eq. do 3 f_equal.
  rewrite <- (hub_eta (hub w)) at 4. f_equal.
  apply set_eq. intros x.
  rewrite elem_of_difference, elem_of_union, elem_of_singleton. split.
  - by intros [[->|?] ?].
  - intros Hx. split; [by right|]. by intros ->.
Qed.

(** ** Subscribing and leaving through [handleMessage] *)

(** X12.  After a [subscribe] for channel [A], the connection is reached
    by a channel-scoped broadcast exactly when the broadcast is for [A]:
    the last subscription decides, and nothing else about the hub has
    changed. *)
Theorem subscription_routes (c : ptr) (cl : Client) (data : RawMessage)
    (A : string) (w : World) :
  registered_ok w → c ∈ clients (hub w) → heap w !! c = Some cl →
  unmarshal_channel data = Some A →
  ∃ w1, handleMessage c (mkRaw "subscribe" data) w = Ok () w1 ∧
    hub w1 = hub w ∧ heap w1 = <[c := viewing_now cl A]> (heap w) ∧
    ∀ B event, ∃ w2, BroadcastToChannel B event w1 = Ok () w2 ∧
      heap w2 !! c
        = Some (if String.eqb A B then try_push event (viewing_now cl A)
                else viewing_now cl A).
Proof.
  intros Hreg Hin Hcl Hdata.
  assert (handleMessage c (mkRaw "subscribe" data) w
          = Ok () (mkWorld (<[c := viewing_now cl A]> (heap w)) (hub w))) as Hrun.
  { unfold handleMessage. simpl. rewrite Hdata. unfold SetChannel.
    by rewrite bind_unfold, (deref_Some c w cl). }
  eexists. split; [exact Hrun|]. split; [done|]. split; [done|].
  intros B event.
  assert (registered_ok (mkWorld (<[c := viewing_now cl A]> (heap w)) (hub w))) as Hreg1.
  { eapply registered_ok_calm; [|exact Hreg]. by eapply calm_handleMessage. }
  rewrite BroadcastToChannel_spec by done. eexists. split; [done|]. simpl.
  rewrite sends_lookup by apply NoDup_filter, NoDup_elements.
  rewrite lookup_insert_eq. simpl.
  destruct (String.eqb A B) eqn:HAB.
  - rewrite decide_True; [done|]. apply list_elem_of_filter.
    split; [|by apply elem_of_elements]. unfold viewing.
    by rewrite lookup_insert_eq.
  - rewrite decide_False; [done|]. intros [Hv _]%list_elem_of_filter.
    unfold viewing in Hv. rewrite lookup_insert_eq in Hv. simpl in Hv. congruence.
Qed.

Lemma default_vacated (client : ptr) (room : gset ptr) :
  client ∈ room → default ∅ (vacated client room) = room ∖ {[client]}.
Proof.
  intros Hin. unfold vacated. rewrite decide_True by done.
  by case_decide as He; [rewrite He|].
Qed.

(** X13.  A [voice.leave] from a connection that is not in the room
    changes nothing and announces nothing.  From a member, when the
    queues of the remaining members are open and the broadcast channel
    is open and not full, it takes the connection out of the room, gives
    every remaining member one non-blocking send of [voice.left] for
    that room and user, touches no other queue, and hands one such
    [voice.left] to the hub's broadcast channel. *)
Theorem leave_announced_to_room (c : ptr) (cl : Client) (data : RawMessage)
    (chID : string) (w : World) :
  let room := default ∅ (voiceRooms (hub w) !! chID) in
  let event :=
    mkEvent "voice.left"
      (JObj [("channel_id", JStr chID); ("user_id", JStr (userID cl))]) in
  unmarshal_channel data = Some chID → chID ≠ "" →
  heap w !! c = Some cl →
  (c ∉ room → handleMessage c (mkRaw "voice.leave" data) w = Ok () w) ∧
  (c ∈ room →
   (∀ t, t ∈ room → t ≠ c → open_at (heap w) t) → broadcast_ready w →
   ∃ w', handleMessage c (mkRaw "voice.leave" data) w = Ok () w' ∧
     clients (hub w') = clients (hub w) ∧
     (∀ ch, voiceRooms (hub w') !! ch
            = if decide (ch = chID) then vacated c room
              else voiceRooms (hub w) !! ch) ∧
     broadcast (hub w') = push event (broadcast (hub w)) ∧
     (∀ t tcl, t ∈ room → t ≠ c → heap w !! t = Some tcl →
        heap w' !! t = Some (try_push event tcl)) ∧
     (∀ t, ¬ (t ∈ room ∧ t ≠ c) → heap w' !! t = heap w !! t)).
Proof.
  intros room event Hdata Hne%String.eqb_neq Hcl.
  assert (handleMessage c (mkRaw "voice.leave" data) =
          (was ← leaveVoiceRoom chID c;
           if was : bool then
             cl ← deref c;
             BroadcastToVoiceRoom chID (evVoiceLeft chID (userID cl)) None;;
             Broadcast (evVoiceLeft chID (userID cl))
           else mret ())) as ->.
  { unfold handleMessage. simpl. by rewrite Hdata, Hne. }
  rewrite bind_unfold, leaveVoiceRoom_spec. subst room.
  destruct (voiceRooms (hub w) !! chID) as [room|] eqn:Hroom; simpl.
  2: { split; [done|]. by intros []%elem_of_empty. }
  split.
  { intros Hout. by rewrite decide_False. }
  intros Hin Hopen Hready. rewrite decide_True by done.
  rewrite bind_unfold, (deref_Some c _ cl) by done.
  assert (default ∅ (without c chID room (voiceRooms (hub w)) !! chID)
          = room ∖ {[c]}) as Hleft.
  { rewrite (without_lookup _ _ _ _ _ Hin Hroom), decide_True by done.
    by apply default_vacated. }
  rewrite bind_unfold, BroadcastToVoiceRoom_spec; simpl; rewrite Hleft.
  2: { intros t [Ht Htc]%elem_of_difference _. apply Hopen; [done|].
       by rewrite elem_of_singleton in Htc. }
  rewrite Broadcast_ready by exact Hready. simpl.
  eexists. split; [done|]. simpl. split; [done|]. split.
  { intros ch. by apply without_lookup. }
  split; [done|].
  assert (∀ t, t ∈ filter (λ c0, not_excluded None c0 = true) (elements (room ∖ {[c]}))
               ↔ t ∈ room ∧ t ≠ c) as Hfilter.
  { intros t. rewrite list_elem_of_filter, elem_of_elements, elem_of_difference,
      elem_of_singleton. unfold not_excluded. rewrite bool_decide_eq_true.
    split; [by intros [_ ?]|]. intros ?. split; [done|done]. }
  split.
  - intros t tcl Ht Htc Htcl.
    rewrite sends_lookup_in, Htcl; [done|apply NoDup_filter, NoDup_elements|].
    by apply Hfilter.
  - intros t Ht. apply sends_lookup_notin. by rewrite Hfilter.
Qed.

(** ** Global broadcasts through the hub loop *)

Lemma room_for_two_has_room (q : chan) : room_for_two q → has_room q = true.
Proof. unfold room_for_two, has_room. intros ?. apply Nat.ltb_lt. lia. Qed.

Lemma room_for_two_push (m : WSEvent) (q : chan) :
  room_for_two q → has_room (push m q) = true.
Proof.
  unfold room_for_two, has_room. intros ?. apply Nat.ltb_lt. simpl.
  rewrite length_app. simpl. lia.
Qed.

Lemma delivered_room (m : WSEvent) (cl : Client) :
  has_room (send cl) = true → delivered m cl = with_send cl (push m (send cl)).
Proof. unfold delivered. by intros ->. Qed.

Lemma not_stalled (w : World) (c : ptr) (cl : Client) :
  heap w !! c = Some cl → has_room (send cl) = true → stalled (heap w) c = false.
Proof. unfold stalled. by intros -> ->. Qed.

(** X14.  Two global broadcasts handed to an idle hub are delivered by
    the hub loop in the order they were handed over: every registered
    connection with room for two more messages ends with the first event
    and then the second at the end of its queue; nobody is evicted, and
    the broadcast channel is empty again. *)
Theorem broadcasts_arrive_in_order (e1 e2 : WSEvent) (w : World) :
  registered_ok w → broadcast_idle w →
  (∀ c cl, c ∈ clients (hub w) → heap w !! c = Some cl → room_for_two (send cl)) →
  ∃ w', (Broadcast e1;; Broadcast e2;; Run_broadcast;; Run_broadcast) w = Ok () w' ∧
    (∀ c, c ∈ clients (hub w') ↔ c ∈ clients (hub w)) ∧
    voiceRooms (hub w') = voiceRooms (hub w) ∧
    buf (broadcast (hub w')) = [] ∧
    (∀ c cl, c ∈ clients (hub w) → heap w !! c = Some cl →
       heap w' !! c = Some (with_send cl (push e2 (push e1 (send cl))))) ∧
    (∀ c, c ∉ clients (hub w) → heap w' !! c = heap w !! c).
Proof.
  intros Hreg Hidle Hroom.
  rewrite bind_unfold, Broadcast_ready
    by (unfold broadcast_ready; by rewrite Hidle).
  rewrite bind_unfold, Broadcast_ready
    by (unfold broadcast_ready; simpl; by rewrite Hidle).
  simpl. rewrite Hidle.
  match goal with |- ∃ _, (_ ;; _) ?w0 = _ ∧ _ => set (w1 := w0) end.
  destruct (Run_broadcast_outcome e1 [e2] w1)
    as (w2 & Hrun2 & Hcl2 & Hheap2 & Hout2 & Hrooms2 & Hbuf2); [exact Hreg|done|].
  assert (∀ c, c ∈ clients (hub w2) ↔ c ∈ clients (hub w)) as Hsame2.
  { intros c. rewrite Hcl2. simpl. split; [by intros [? _]|]. intros Hc.
    split; [done|]. destruct (Hreg c Hc) as (cl & Hcl & _).
    eapply not_stalled; [exact Hcl|]. by eapply room_for_two_has_room, Hroom. }
  assert (∀ c cl, c ∈ clients (hub w) → heap w !! c = Some cl →
            heap w2 !! c = Some (with_send cl (push e1 (send cl)))) as Hq2.
  { intros c cl Hc Hcl. rewrite (Hheap2 c cl Hc Hcl).
    by rewrite delivered_room by (by eapply room_for_two_has_room, Hroom). }
  destruct (Run_broadcast_outcome e2 [] w2)
    as (w3 & Hrun3 & Hcl3 & Hheap3 & Hout3 & Hrooms3 & Hbuf3); [|exact Hbuf2|].
  { intros c Hc%Hsame2. destruct (Hreg c Hc) as (cl & Hcl & Hopen).
    eexists. split; [by apply Hq2|]. done. }
  rewrite bind_unfold, Hrun2, Hrun3.
  exists w3. split; [done|]. split; [|split; [|split; [|split]]].
  - intros c. rewrite Hcl3, Hsame2. split; [by intros [? _]|]. intros Hc.
    split; [done|]. destruct (Hreg c Hc) as (cl & Hcl & _).
    eapply not_stalled; [by apply Hq2|]. simpl. by eapply room_for_two_push, Hroom.
  - by rewrite Hrooms3, Hrooms2.
  - exact Hbuf3.
  - intros c cl Hc Hcl. rewrite (Hheap3 c _ (proj2 (Hsame2 c) Hc) (Hq2 c cl Hc Hcl)).
    rewrite delivered_room; [done|]. simpl. by eapply room_for_two_push, Hroom.
  - intros c Hc. rewrite Hout3 by (by rewrite Hsame2). by apply Hout2.
Qed.

(** X15.  A [voice.join] followed by the hub loop's delivery of the
    global announcement, on an idle hub all of whose room members are
    registered and all of whose registered queues have room for two
    messages: the joiner receives [voice.room_state] with the members
    found and then its own [voice.joined]; a registered connection that
    was already in the room receives that [voice.joined] twice (once
    from the room send, once from the global broadcast); every other
    registered connection receives it once. *)
Theorem join_announced_twice_in_room (c : ptr) (cl : Client) (chID : string)
    (existing : list string) (w : World) :
  let room := default ∅ (voiceRooms (hub w) !! chID) in
  let joined :=
    mkEvent "voice.joined"
      (JObj [("channel_id", JStr chID); ("user_id", JStr (userID cl))]) in
  let state :=
    mkEvent "voice.room_state"
      (JObj [("channel_id", JStr chID);
             ("participants", JArr (JStr <$> existing))]) in
  chID ≠ "" → registered_ok w → broadcast_idle w →
  c ∈ clients (hub w) → heap w !! c = Some cl →
  (∀ t, t ∈ room → t ∈ clients (hub w)) →
  (∀ t tcl, t ∈ clients (hub w) → heap w !! t = Some tcl → room_for_two (send tcl)) →
  uids_of (heap w) (elements room) = Some existing →
  ∃ w', (handleMessage c (frame_join chID);; Run_broadcast) w = Ok () w' ∧
    (∀ t, t ∈ clients (hub w') ↔ t ∈ clients (hub w)) ∧
    voiceRooms (hub w') = <[chID := {[c]} ∪ room]> (voiceRooms (hub w)) ∧
    heap w' !! c
      = Some (with_send cl (push joined (push state (send cl)))) ∧
    (∀ t tcl, t ∈ clients (hub w) → t ≠ c → heap w !! t = Some tcl →
       heap w' !! t
         = Some (with_send tcl (if decide (t ∈ room)
                                then push joined (push joined (send tcl))
                                else push joined (send tcl)))).
Proof.
  intros room joined state Hne Hreg Hidle Hc Hcl Hmem Hroom Hex.
  destruct (Hreg c Hc) as (cl' & Hcl' & Hopen). simplify_eq.
  set (wj := after_join chID c existing (userID cl) w).
  assert (handleMessage c (frame_join chID) w = Ok () wj) as Hj.
  { apply handle_join; try done.
    - intros t Ht _. by apply Hreg, Hmem.
    - unfold broadcast_ready. by rewrite Hidle. }
  rewrite bind_unfold, Hj.
  assert (NoDup (filter (λ c0, not_excluded (Some c) c0 = true)
                   (elements ({[c]} ∪ room)))) as Hnd
    by apply NoDup_filter, NoDup_elements.
  assert (∀ t, t ∈ filter (λ c0, not_excluded (Some c) c0 = true)
                     (elements ({[c]} ∪ room)) ↔ t ∈ room ∧ t ≠ c) as Htargets.
  { intros t. rewrite list_elem_of_filter, elem_of_elements, elem_of_union,
      elem_of_singleton. unfold not_excluded. rewrite bool_decide_eq_true.
    split.
    - intros [Hx [->|?]]; [done|]. split; [done|]. by intros ->.
    - intros [? Hx]. split; [|by right]. by intros [= ->]. }
  assert (heap wj !! c = Some (with_send cl (push (evRoomState chID existing) (send cl))))
    as Hjc.
  { unfold wj, after_join. simpl. fold room.
    rewrite sends_lookup_notin by (rewrite Htargets; by intros [_ ?]).
    rewrite lookup_alter_eq, Hcl. simpl. unfold try_push.
    by rewrite (room_for_two_has_room _ (Hroom c cl Hc Hcl)). }
  assert (∀ t tcl, t ∈ clients (hub w) → t ≠ c → heap w !! t = Some tcl →
            heap wj !! t = Some (if decide (t ∈ room)
                                 then with_send tcl (push joined (send tcl))
                                 else tcl)) as Hjt.
  { intros t tcl Ht Htc Htcl. unfold wj, after_join. simpl. fold room.
    destruct (decide (t ∈ room)) as [Hin|Hin].
    - rewrite sends_lookup_in, lookup_alter_ne, Htcl by (done || by apply Htargets).
      simpl. unfold try_push.
      by rewrite (room_for_two_has_room _ (Hroom t tcl Ht Htcl)).
    - rewrite sends_lookup_notin, lookup_alter_ne by (done || rewrite Htargets; tauto).
      done. }
  destruct (Run_broadcast_outcome joined [] wj)
    as (w' & Hrun & Hcl2 & Hheap2 & _ & Hrooms2 & _).
  { eapply registered_ok_calm; [|exact Hreg].
    eapply (calm_handleMessage c); exact Hj. }
  { unfold wj, after_join. simpl. by rewrite Hidle. }
  rewrite Hrun. exists w'. split; [done|]. split; [|split; [|split]].
  - intros t. rewrite Hcl2. change (clients (hub wj)) with (clients (hub w)).
    split; [by intros [? _]|]. intros Ht.
    split; [done|]. destruct (Hreg t Ht) as (tcl & Htcl & _).
    destruct (decide (t = c)) as [->|Htc].
    + eapply not_stalled; [exact Hjc|]. simpl. simplify_eq.
      by eapply room_for_two_push, Hroom.
    + eapply not_stalled; [by apply Hjt|].
      pose proof (Hroom t tcl Ht Htcl) as Htwo. case_decide; simpl.
      * by apply room_for_two_push.
      * by apply room_for_two_has_room.
  - by rewrite Hrooms2.
  - rewrite (Hheap2 c _ Hc Hjc). rewrite delivered_room; [done|]. simpl.
    by eapply room_for_two_push, Hroom.
  - intros t tcl Ht Htc Htcl. rewrite (Hheap2 t _ Ht (Hjt t tcl Ht Htc Htcl)).
    pose proof (Hroom t tcl Ht Htcl) as Htwo.
    case_decide; rewrite delivered_room; try done; simpl.
    + by apply room_for_two_push.
    + by apply room_for_two_has_room.
Qed.

(** ** Targeted sends: what they never do *)

Lemma unblocked_bind {A B : Type} (m : M A) (f : A → M B) (w : World) :
  m w ≠ Blocked → (∀ a w1, m w = Ok a w1 → f a w1 ≠ Blocked) →
  (m ≫= f) w ≠ Blocked.
Proof.
  intros Hm Hf. rewrite bind_unfold. destruct (m w) as [a w1| |]; [|done|done].
  by apply Hf.
Qed.

Lemma unblocked_for_each {A : Type} (xs : list A) (body : A → M unit) :
  (∀ x w, body x w ≠ Blocked) → ∀ w, for_each xs body w ≠ Blocked.
Proof.
  intros Hbody. induction xs as [|x xs IH]; intros w; simpl; [done|].
  apply unblocked_bind; [apply Hbody|]. intros _ w1 _. apply IH.
Qed.

Lemma unblocked_send_unit c data w : (select_send c data;; mret ()) w ≠ Blocked.
Proof. apply unblocked_bind; [apply select_send_not_blocked|done]. Qed.

Lemma unblocked_deref_then {B : Type} (c : ptr) (f : Client → M B) (w : World) :
  (∀ cl, f cl w ≠ Blocked) → (deref c ≫= f) w ≠ Blocked.
Proof.
  intros Hf. rewrite bind_unfold. unfold deref. by destruct (heap w !! c).
Qed.

(** X16.  The hub's targeted sends ([BroadcastToChannel], [SendToUser],
    [BroadcastToVoiceRoom]) and [sendEvent] never park the calling
    goroutine, and when they return they have changed nothing but the
    contents of client queues: the connection set, the broadcast channel,
    the rooms, and every client's user id, viewed channel, queue capacity
    and closed flag are as before. *)
Theorem targeted_sends_touch_queues_only (chID uid : string) (event : WSEvent)
    (exclude : option ptr) (c : ptr) :
  harmless (BroadcastToChannel chID event) ∧
  harmless (SendToUser uid event) ∧
  harmless (BroadcastToVoiceRoom chID event exclude) ∧
  harmless (sendEvent c event).
Proof.
  split; [|split; [|split]]; intros w; split.
  - unfold BroadcastToChannel, get_hub. rewrite bind_unfold.
    apply unblocked_for_each. intros x w1. apply unblocked_deref_then. intros cl.
    destruct (String.eqb _ _); [apply unblocked_send_unit|done].
  - intros w'. apply queues_only_BroadcastToChannel.
  - unfold SendToUser, get_hub. rewrite bind_unfold.
    apply unblocked_for_each. intros x w1. apply unblocked_deref_then. intros cl.
    destruct (String.eqb _ _); [apply unblocked_send_unit|done].
  - intros w'. apply queues_only_SendToUser.
  - unfold BroadcastToVoiceRoom, get_rooms. rewrite bind_unfold.
    destruct (_ !! chID); [|done].
    apply unblocked_for_each. intros x w1.
    case_decide; [done|apply unblocked_send_unit].
  - intros w'. apply queues_only_BroadcastToVoiceRoom.
  - apply unblocked_send_unit.
  - intros w' H. unfold sendEvent in H.
    apply bind_inv in H as (b & w1 & H1 & H2). rewrite ret_unfold in H2.
    simplify_eq. by eapply queues_only_select_send.
Qed.

Lemma sends_nil m hp : sends m [] hp = hp.
Proof. reflexivity. Qed.

Lemma filter_nothing {A : Type} (P : A → bool) (l : list A) :
  (∀ x, x ∈ l → P x = false) → filter (λ x, P x = true) l = [].
Proof.
  intros H. induction l as [|x l IH]; [done|].
  rewrite filter_cons, decide_False.
  - apply IH. intros y Hy. apply H. by right.
  - rewrite H by left. done.
Qed.

(** X17.  A message for which there is no recipient is dropped without
    a trace: a channel broadcast with no registered viewer, a send to a
    user with no registered connection, and a room send to a room that
    does not exist each return with the world unchanged. *)
Theorem no_recipient_no_effect (chID uid : string) (event : WSEvent)
    (exclude : option ptr) (w : World) :
  registered_ok w →
  ((∀ c, c ∈ clients (hub w) → viewing (heap w) chID c = false) →
   BroadcastToChannel chID event w = Ok () w) ∧
  ((∀ c, c ∈ clients (hub w) → owned_by (heap w) uid c = false) →
   SendToUser uid event w = Ok () w) ∧
  (voiceRooms (hub w) !! chID = None →
   BroadcastToVoiceRoom chID event exclude w = Ok () w).
Proof.
  intros Hreg. split; [|split].
  - intros Hnone. rewrite BroadcastToChannel_spec by done.
    rewrite (filter_nothing (λ c, viewing (heap w) chID c))
      by (intros c Hc; by apply Hnone, elem_of_elements).
    by rewrite sends_nil, world_eta.
  - intros Hnone. rewrite SendToUser_spec by done.
    rewrite (filter_nothing (λ c, owned_by (heap w) uid c))
      by (intros c Hc; by apply Hnone, elem_of_elements).
    by rewrite sends_nil, world_eta.
  - intros Hroom. unfold BroadcastToVoiceRoom, get_rooms.
    by rewrite bind_unfold, Hroom.
Qed.

(** ** The write side *)

Lemma writePump_next_some (c : ptr) (cl : Client) (m : WSEvent)
    (rest : list WSEvent) (w : World) :
  heap w !! c = Some cl → buf (send cl) = m :: rest →
  writePump_next c w =
    Ok (Some m)
       (mkWorld (<[c := with_send cl (mkChan rest (cap (send cl)) (closed (send cl)))]>
                   (heap w)) (hub w)).
Proof.
  intros Hcl Hbuf. unfold writePump_next.
  by rewrite bind_unfold, (deref_Some c w cl), Hbuf.
Qed.

Lemma writePump_closed_from (c : ptr) (pending : list WSEvent) :
  ∀ (cl : Client) (w : World),
    heap w !! c = Some cl → closed (send cl) = true → buf (send cl) = pending →
    writePump c (replicate (S (List.length pending)) true) w =
      Ok (Some pending) (mkWorld (<[c := drained cl]> (heap w)) (hub w)).
Proof.
  induction pending as [|m pending IH]; intros cl w Hcl Hclosed Hbuf.
  - simpl. unfold writePump_next.
    rewrite !bind_unfold, (deref_Some c w cl), Hbuf, Hclosed by done.
    rewrite !ret_unfold.
    unfold drained. rewrite <- Hbuf.
    assert (with_send cl (mkChan (buf (send cl)) (cap (send cl)) (closed (send cl))) = cl)
      as -> by (by destruct cl as [[] ? ?]).
    by rewrite insert_id, world_eta.
  - change (replicate (S (List.length (m :: pending))) true)
      with (true :: replicate (S (List.length pending)) true).
    cbn [writePump].
    rewrite bind_unfold, (writePump_next_some c cl m pending) by done.
    rewrite bind_unfold.
    erewrite IH; [|by simpl; rewrite lookup_insert_eq|done|done].
    rewrite ret_unfold. simpl. by rewrite insert_insert_eq.
Qed.

(** X18.  Once a connection's queue has been closed (by unregistration
    or eviction), its [writePump] does not park: with every write
    succeeding it writes the whole backlog in queue order, leaves the
    queue empty, and ends. *)
Theorem writePump_flushes_closed_queue (c : ptr) (cl : Client) (w : World) :
  heap w !! c = Some cl → closed (send cl) = true →
  writePump c (replicate (S (List.length (buf (send cl)))) true) w =
    Ok (Some (buf (send cl))) (mkWorld (<[c := drained cl]> (heap w)) (hub w)).
Proof. intros Hcl Hclosed. by apply writePump_closed_from. Qed.

(** ** Permission checks *)

Lemma land_flag (p k : Z) :
  (0 ≤ k)%Z → (Z.land p (Z.shiftl 1 k) =? 0)%Z = negb (Z.testbit p k).
Proof.
  intros Hk. rewrite Z.shiftl_1_l.
  destruct (Z.testbit p k) eqn:Hbit; simpl.
  - apply Z.eqb_neq. intros H0.
    assert (Z.testbit (Z.land p (2 ^ k)) k = true) as Hk1
      by (by rewrite Z.land_spec, Hbit, Z.pow2_bits_true).
    by rewrite H0, Z.bits_0 in Hk1.
  - apply Z.eqb_eq, Z.bits_inj'. intros n Hn.
    rewrite Z.land_spec, Z.bits_0, Z.pow2_bits_eqb by done.
    destruct (Z.eqb_spec k n) as [->|_]; [by rewrite Hbit|by rewrite andb_false_r].
Qed.

Lemma testbit_lor_roles (k : Z) (l : list db.Role) (acc : Z) :
  Z.testbit (foldl (λ perms r, Z.lor perms (db.rolePermissions r)) acc l) k = true
  ↔ Z.testbit acc k = true ∨ ∃ r, r ∈ l ∧ db.grants k r.
Proof.
  revert acc. induction l as [|r l IH]; intros acc; simpl.
  - split; [by left|]. intros [?|(r & []%elem_of_nil & _)]. done.
  - rewrite IH, Z.lor_spec, orb_true_iff. unfold db.grants. split.
    + intros [[?|?]|(r' & ? & ?)]; [by left|right..].
      * exists r. split; [left|done].
      * exists r'. split; [by right|done].
    + intros [?|(r' & [->|?]%elem_of_cons & ?)].
      * by left; left.
      * by left; right.
      * right. by exists r'.
Qed.

Lemma testbit_computed (everyone : option db.Role) (u : db.User) (k : Z) :
  db.IsOwner u = false →
  Z.testbit (db.ComputePermissions everyone u) k = true
  ↔ ∃ r, r ∈ db.granted everyone u ∧ db.grants k r.
Proof.
  intros Hown. unfold db.ComputePermissions, db.granted. rewrite Hown.
  rewrite testbit_lor_roles. setoid_rewrite elem_of_app.
  destruct everyone as [e|]; simpl.
  - rewrite ?Z.lor_0_l. split.
    + intros [?|(r & ? & ?)].
      * exists e. split; [left; by left|done].
      * exists r. split; [by right|done].
    + intros (r & [[->|[]%elem_of_nil]%elem_of_cons|?] & ?); [by left|].
      right. by exists r.
  - rewrite Z.bits_0. split.
    + intros [?|(r & ? & ?)]; [done|]. exists r. split; [by right|done].
    + intros (r & [[]%elem_of_nil|?] & ?). right. by exists r.
Qed.

(** X19.  What a permission check means for a user as loaded from the
    database: the check for the flag [1 << k] passes exactly when the
    user is the owner, or one of the roles that count for the user
    ([@everyone] when it exists, and the user's own roles) has the
    administrator flag or the flag asked for. *)
Theorem permission_check_meaning (everyone : option db.Role) (u : db.User) (k : Z) :
  (0 ≤ k)%Z →
  db.HasPermission (db.loaded everyone u) (Z.shiftl 1 k) = true
  ↔ db.IsOwner u = true ∨
    ∃ r, r ∈ db.granted everyone u ∧ (db.grants 6 r ∨ db.grants k r).
Proof.
  intros Hk. unfold db.HasPermission, db.loaded, db.PermAdministrator. simpl.
  rewrite !land_flag, !negb_involutive by lia.
  destruct (db.IsOwner u) eqn:Hown.
  - split; [by left|]. intros _. unfold db.ComputePermissions. by rewrite Hown.
  - destruct (Z.testbit (db.ComputePermissions everyone u) 6) eqn:Hadm.
    + split; [|done]. intros _. right.
      apply testbit_computed in Hadm as (r & ? & ?); [|done]. exists r. auto.
    + rewrite testbit_computed by done. split.
      * intros (r & ? & ?). right. exists r. auto.
      * intros [?|(r & Hr & [Hg|Hg])]; [done| |by exists r].
        assert (Z.testbit (db.ComputePermissions everyone u) 6 = true) as Hyes
          by (apply testbit_computed; [done|by exists r]).
        congruence.
Qed.

(** ** Reachable states *)

(** X1.  In every state the system can reach from start-up, delivery to
    the registered connections is safe: a channel broadcast and a send to
    a user both complete, and the broadcast case of [Run] does not crash
    on a closed queue. *)
Theorem reachable_delivery_is_safe (w : World) :
  rtc hub_step w_start w →
  (∀ chID event, ∃ w', BroadcastToChannel chID event w = Ok () w') ∧
  (∀ uid event, ∃ w', SendToUser uid event w = Ok () w') ∧
  Run_broadcast w ≠ Panic.
Proof.
  intros [Hreg _]%hub_inv_always. split; [|split].
  - intros chID event. rewrite BroadcastToChannel_spec by done. by eexists.
  - intros uid event. rewrite SendToUser_spec by done. by eexists.
  - destruct (buf (broadcast (hub w))) as [|message rest] eqn:Hbuf.
    + unfold Run_broadcast, recv_broadcast, get_hub. rewrite !bind_unfold. simpl.
      by rewrite Hbuf.
    + destruct (Run_broadcast_outcome message rest w Hreg Hbuf) as (w' & -> & _).
      done.
Qed.

(** X20.  The room sends have no such protection.  A state can be
    reached from start-up in which an evicted connection is still a
    member of a voice room; there, a valid [voice.join] from a registered
    connection crashes on the send to the closed queue. *)
Theorem evicted_member_crashes_join :
  ∃ w c, rtc hub_step w_start w ∧ c ∈ clients (hub w) ∧
    handleMessage c (frame_join "general-voice") w = Panic.
Proof.
  exists w_flooded, 2. split; [|split].
  - apply (play_reaches moves_flood). vm_compute. reflexivity.
  - compute_done.
  - vm_compute. reflexivity.
Qed.

(** ** The further properties on concrete worlds *)

Lemma w_idle_registered : registered_ok w_idle.
Proof. intros c Hc. by apply heap3_open. Qed.

Lemma heap3_fresh (c : ptr) (cl : Client) :
  heap3 !! c = Some cl → send cl = make_chan 256.
Proof.
  unfold heap3. rewrite !lookup_insert_Some, lookup_empty.
  intros [[_ <-]|[_ [[_ <-]|[_ [[_ <-]|[_ ?]]]]]]; done.
Qed.

Lemma heap3_room_for_two (c : ptr) (cl : Client) :
  heap3 !! c = Some cl → room_for_two (send cl).
Proof. intros ->%heap3_fresh. unfold room_for_two. simpl. lia. Qed.

Lemma reachable_delivery_is_safe_witness :
  (∀ chID event, ∃ w', BroadcastToChannel chID event w_two = Ok () w') ∧
  (∀ uid event, ∃ w', SendToUser uid event w_two = Ok () w') ∧
  Run_broadcast w_two ≠ Panic.
Proof. apply (reachable_delivery_is_safe w_two). apply w_two_reachable. Defined.

Lemma broadcast_delivers_or_evicts_witness :
  ∃ w', Run_broadcast w_stalled = Ok () w' ∧
    (3 ∉ clients (hub w')) ∧ (1 ∈ clients (hub w')) ∧
    queue_of w' 1 = Some [some_event] ∧
    (λ cl, closed (send cl)) <$> heap w' !! 3 = Some true.
Proof.
  destruct (broadcast_delivers_or_evicts some_event [] w_stalled)
    as (w' & H & Hclients & Hheap & _).
  - apply w_stalled_registered.
  - reflexivity.
  - exists w'. split; [exact H|]. split; [|split; [|split]].
    + rewrite Hclients. by intros [_ ?].
    + apply Hclients. split; [|reflexivity]. compute_done.
    + unfold queue_of. rewrite (Hheap 1 (new_client "U1")); [reflexivity| |reflexivity].
      compute_done.
    + rewrite (Hheap 3 (mkClient (mkChan (replicate 256 some_event) 256 false) "U3" ""));
        [reflexivity| |reflexivity].
      compute_done.
Defined.

Lemma queues_stay_bounded_witness : bounded w_two.
Proof. apply (queues_stay_bounded w_two). apply w_two_reachable. Defined.

Lemma join_then_leave_witness :
  (joinVoiceRoom "general-voice" 3 ≫= λ _, leaveVoiceRoom "general-voice" 3) w_call
    = Ok true w_call.
Proof.
  apply (join_then_leave "general-voice" 3 ["U2"; "U1"] w_call).
  - compute_done.
  - compute_done.
  - vm_compute. reflexivity.
Defined.

Lemma co_membership_meaning_witness :
  AreInSameVoiceRoom "general-voice" "U1" "U2" w_call
    = AreInSameVoiceRoom "general-voice" "U2" "U1" w_call ∧
  AreInSameVoiceRoom "general-voice" "U1" "U2" w_call = Ok true w_call.
Proof.
  destruct (co_membership_meaning "general-voice" "U1" "U2" w_call)
    as (Hsym & same & Hrun & Hiff).
  - intros room c. apply w_call_alloc.
  - split; [exact Hsym|]. rewrite Hrun. f_equal. apply Hiff.
    exists {[1; 2]}, 1, (new_client "U1"), 2, (new_client "U2").
    split; [reflexivity|]. split; [compute_done|]. split; [reflexivity|].
    split; [reflexivity|]. split; [compute_done|]. split; reflexivity.
Defined.

Lemma snapshot_exact_witness :
  ∃ snap, GetVoiceRoomSnapshot w_call = Ok snap w_call ∧
    ∀ chID, snap !! chID = voiceRooms (hub w_call) !! chID ≫= room_uids w_call.
Proof. apply (snapshot_exact w_call). apply w_call_alloc. Defined.

Lemma departure_announced_once_witness :
  clients (hub w_left) = clients (hub w_call) ∧
  (∀ chID, voiceRooms (hub w_left) !! chID
           = voiceRooms (hub w_call) !! chID ≫= vacated 1) ∧
  ∃ affected,
    NoDup affected ∧
    (∀ chID, chID ∈ affected ↔
       ∃ room, voiceRooms (hub w_call) !! chID = Some room ∧ 1 ∈ room) ∧
    buf (broadcast (hub w_left))
      = (buf (broadcast (hub w_call))
         ++ ((λ chID,
                mkEvent "voice.left"
                  (JObj [("channel_id", JStr chID); ("user_id", JStr "U1")]))
               <$> affected))%list.
Proof.
  apply (departure_announced_once 1 (new_client "U1") w_call w_left).
  - reflexivity.
  - vm_compute. reflexivity.
Defined.

Lemma cleanup_follows_readPump_witness :
  clients (hub w_read) = clients (hub w_two) ∧
  (1 ∉ clients (hub w_gone)) ∧ in_no_room 1 (voiceRooms (hub w_gone)) ∧
  ∃ cl, heap w_gone !! 1 = Some cl ∧ closed (send cl) = true.
Proof.
  apply (cleanup_follows_readPump 1 1 frames_last w_two w_read w_read_on w_gone).
  - apply (play_reaches moves_two). vm_compute. reflexivity.
  - vm_compute. by eexists.
  - vm_compute. reflexivity.
  - apply (play_reaches [Frame 2 (mkRaw "typing" (channel_data ""))]).
    vm_compute. reflexivity.
  - vm_compute. reflexivity.
Defined.

Lemma room_send_panics_on_closed_witness :
  BroadcastToVoiceRoom "general-voice" some_event None w_evicted = Panic.
Proof.
  apply (room_send_panics_on_closed "general-voice" some_event None {[1; 2]} 1
           (shut (new_client "U1")) w_evicted).
  - reflexivity.
  - compute_done.
  - discriminate.
  - reflexivity.
  - reflexivity.
Defined.

Lemma connect_then_disconnect_witness :
  (WebSocket 4 "U4";; Run_unregister 4) w_call
    = Ok () (mkWorld (<[4 := shut (new_client "U4")]> (heap w_call)) (hub w_call)).
Proof.
  apply (connect_then_disconnect 4 "U4" w_call).
  - reflexivity.
  - compute_done.
  - intros chID room Hroom. simpl in Hroom.
    apply lookup_singleton_Some in Hroom as [_ <-]. compute_done.
Defined.

Lemma subscription_routes_witness :
  ∃ w1, handleMessage 1 (mkRaw "subscribe" (channel_data "A")) w_idle = Ok () w1 ∧
    ∃ w2, BroadcastToChannel "A" some_event w1 = Ok () w2 ∧
      queue_of w2 1 = Some [some_event] ∧
    ∃ w3, BroadcastToChannel "B" some_event w1 = Ok () w3 ∧
      queue_of w3 1 = Some [].
Proof.
  destruct (subscription_routes 1 (new_client "U1") (channel_data "A") "A" w_idle)
    as (w1 & Hsub & _ & _ & Hroute).
  - apply w_idle_registered.
  - compute_done.
  - reflexivity.
  - reflexivity.
  - exists w1. split; [exact Hsub|].
    destruct (Hroute "A" some_event) as (w2 & HA & HqA).
    destruct (Hroute "B" some_event) as (w3 & HB & HqB).
    exists w2. split; [exact HA|]. split; [unfold queue_of; by rewrite HqA|].
    exists w3. split; [exact HB|]. unfold queue_of. by rewrite HqB.
Defined.

Lemma leave_announced_to_room_witness :
  handleMessage 3 (mkRaw "voice.leave" (channel_data "general-voice")) w_call
    = Ok () w_call ∧
  ∃ w', handleMessage 1 (mkRaw "voice.leave" (channel_data "general-voice")) w_call
          = Ok () w' ∧
    voiceRooms (hub w') !! "general-voice" = Some {[2]} ∧
    queue_of w' 2 =
      Some [mkEvent "voice.left"
              (JObj [("channel_id", JStr "general-voice"); ("user_id", JStr "U1")])] ∧
    queue_of w' 1 = Some [].
Proof.
  split.
  - destruct (leave_announced_to_room 3 (new_client "U3") (channel_data "general-voice")
                "general-voice" w_call) as [Hout _].
    + reflexivity.
    + discriminate.
    + reflexivity.
    + apply Hout. compute_done.
  - destruct (leave_announced_to_room 1 (new_client "U1") (channel_data "general-voice")
                "general-voice" w_call) as [_ Hin].
    + reflexivity.
    + discriminate.
    + reflexivity.
    + destruct Hin as (w' & Hrun & _ & Hrooms & _ & Hmembers & Hothers).
      * compute_done.
      * intros t Ht _. apply heap3_open. revert Ht. simpl.
        rewrite lookup_singleton_eq. simpl.
        rewrite !elem_of_union, !elem_of_singleton. tauto.
      * split; reflexivity.
      * exists w'. split; [exact Hrun|]. split; [|split].
        -- rewrite Hrooms. vm_compute. reflexivity.
        -- unfold queue_of. rewrite (Hmembers 2 (new_client "U2"));
             [reflexivity|compute_done|done|reflexivity].
        -- unfold queue_of. rewrite Hothers; [reflexivity|]. by intros [_ ?].
Defined.

Lemma broadcasts_arrive_in_order_witness :
  ∃ w', (Broadcast some_event;; Broadcast (evTyping "U1" "A");;
         Run_broadcast;; Run_broadcast) w_idle = Ok () w' ∧
    queue_of w' 2 = Some [some_event; evTyping "U1" "A"].
Proof.
  destruct (broadcasts_arrive_in_order some_event (evTyping "U1" "A") w_idle)
    as (w' & Hrun & _ & _ & _ & Hq & _).
  - apply w_idle_registered.
  - reflexivity.
  - intros c cl _. apply heap3_room_for_two.
  - exists w'. split; [exact Hrun|]. unfold queue_of.
    rewrite (Hq 2 (new_client "U2")); [reflexivity|compute_done|reflexivity].
Defined.

Lemma join_announced_twice_in_room_witness :
  ∃ w', (handleMessage 3 (frame_join "general-voice");; Run_broadcast) w_call
          = Ok () w' ∧
    queue_of w' 3 =
      Some [mkEvent "voice.room_state"
              (JObj [("channel_id", JStr "general-voice");
                     ("participants", JArr [JStr "U2"; JStr "U1"])]);
            mkEvent "voice.joined"
              (JObj [("channel_id", JStr "general-voice"); ("user_id", JStr "U3")])] ∧
    queue_of w' 1 =
      Some [mkEvent "voice.joined"
              (JObj [("channel_id", JStr "general-voice"); ("user_id", JStr "U3")]);
            mkEvent "voice.joined"
              (JObj [("channel_id", JStr "general-voice"); ("user_id", JStr "U3")])].
Proof.
  destruct (join_announced_twice_in_room 3 (new_client "U3") "general-voice"
              ["U2"; "U1"] w_call) as (w' & Hrun & _ & _ & Hjoiner & Hothers).
  - discriminate.
  - apply w_call_registered.
  - reflexivity.
  - compute_done.
  - reflexivity.
  - intros t. simpl. rewrite lookup_singleton_eq. simpl.
    rewrite !elem_of_union, !elem_of_singleton. tauto.
  - intros t tcl _. apply heap3_room_for_two.
  - vm_compute. reflexivity.
  - exists w'. split; [exact Hrun|]. unfold queue_of. split.
    + rewrite Hjoiner. reflexivity.
    + rewrite (Hothers 1 (new_client "U1")); [|compute_done|done|reflexivity].
      vm_compute. reflexivity.
Defined.

Lemma no_recipient_no_effect_witness :
  SendToUser "U9" some_event w_call = Ok () w_call.
Proof.
  destruct (no_recipient_no_effect "general" "U9" some_event None w_call)
    as (_ & Huser & _).
  - apply w_call_registered.
  - apply Huser. intros c. simpl. rewrite !elem_of_union, !elem_of_singleton.
    intros [[->| ->]| ->]; reflexivity.
Defined.

Lemma writePump_flushes_closed_queue_witness :
  writePump 1 [true; true; true] w_closing =
    Ok (Some [some_event; evVoiceLeft "general-voice" "U2"])
       (mkWorld (<[1 := drained closing_client]> (heap w_closing)) (hub w_closing)).
Proof.
  apply (writePump_flushes_closed_queue 1 closing_client w_closing); reflexivity.
Defined.

Lemma permission_check_meaning_witness :
  db.HasPermission (db.loaded (Some role_everyone) user_moderator) db.PermManageMessages
    = true.
Proof.
  apply (permission_check_meaning (Some role_everyone) user_moderator 2); [lia|].
  right. exists role_moderator. split.
  - unfold db.granted. simpl. apply elem_of_cons. right. apply elem_of_cons. by left.
  - right. reflexivity.
Defined.
